(** * Quine-McCluskey minimisation engine of karnaugh-map-app

    A shallow embedding of the TypeScript library
    [libs/mintplayer/quine-mccluskey] and the properties its
    specification states about it.

    JavaScript numbers that hold integers are modelled as [Z]; the 32-bit
    operators [>>], [<<] and [&] are written out with their wrap-around.
    Arrays are lists, [Set<number>] is [gset Z], and a [Map] whose
    iteration order is observed is an association list in insertion
    order.  Mutable flags on shared objects ([isUsed], [isSelected],
    [isCovered]) are threaded through the functions that mutate them. *)

From Stdlib Require Import ZArith String Ascii.
From stdpp Require Import base numbers list gmap strings pretty sorting.

Open Scope Z_scope.

#[local] Set Warnings "-clear-no-such-hyp".

(** ** JavaScript 32-bit integer operators *)

(** [ToInt32]: reduction modulo 2^32 into the signed range. *)
Definition toInt32 (x : Z) : Z := (x + 2 ^ 31) `mod` 2 ^ 32 - 2 ^ 31.

(** [x >> n]: the left operand is converted with [ToInt32], only the low
    five bits of the shift count are used. *)
Definition js_shr (x n : Z) : Z := Z.shiftr (toInt32 x) (n `mod` 32).

(** [x << n]. *)
Definition js_shl (x n : Z) : Z := toInt32 (Z.shiftl (toInt32 x) (n `mod` 32)).

(** [x & y]. *)
Definition js_and (x y : Z) : Z := toInt32 (Z.land (toInt32 x) (toInt32 y)).

(** ** enums/logic-state.enum.ts *)

Module ELogicState.
Inductive t : Set := False | True | DontCare.
End ELogicState.

#[global] Instance ELogicState_eq_dec : EqDecision ELogicState.t.
Proof. solve_decision. Defined.

(** ** data/table1/record.ts *)

Record Table1Record : Set := mkTable1Record {
  minterms : list Z;
  bits : list ELogicState.t;
  isUsed : bool
}.

#[global] Instance Table1Record_eq_dec : EqDecision Table1Record.
Proof. solve_decision. Defined.

(** The constructor copies both arrays and clears the flag. *)
Definition newTable1Record (ms : list Z) (bs : list ELogicState.t) : Table1Record :=
  {| minterms := ms; bits := bs; isUsed := false |}.

(** The loop [for (let i = numVariables - 1; i >= 0; i--)] of
    [fromMinterm], with [n] the number of iterations left, so that the
    current index is [n - 1]. *)
Fixpoint fromMintermBits (minterm : Z) (n : nat) : list ELogicState.t :=
  match n with
  | O => []
  | S i =>
      (if decide (js_and (js_shr minterm (Z.of_nat i)) 1 = 0)
       then ELogicState.False else ELogicState.True)
      :: fromMintermBits minterm i
  end.

Definition fromMinterm (minterm numVariables : Z) : Table1Record :=
  newTable1Record [minterm] (fromMintermBits minterm (Z.to_nat numVariables)).

Definition countOnes (r : Table1Record) : nat :=
  length (filter (λ b, b = ELogicState.True) (bits r)).

(** The scanning loop of [canCombineWith]; [i] is the current index and
    the two lists are the parts of the bit patterns from [i] on. *)
Fixpoint canCombineScan (i : Z) (bs1 bs2 : list ELogicState.t)
    (differingPosition : Z) (differCount : nat) : Z :=
  match bs1, bs2 with
  | b1 :: r1, b2 :: r2 =>
      if decide (b1 ≠ b2) then
        if decide (b1 = ELogicState.DontCare ∨ b2 = ELogicState.DontCare)
        then -1
        else if decide (1 < S differCount)%nat then -1
        else canCombineScan (i + 1) r1 r2 i (S differCount)
      else canCombineScan (i + 1) r1 r2 differingPosition differCount
  | _, _ => differingPosition
  end.

Definition canCombineWith (this other : Table1Record) : Z :=
  if decide (length (bits this) ≠ length (bits other)) then -1
  else canCombineScan 0 (bits this) (bits other) (-1) 0.

(** ** JavaScript arrays and sets used by the solver *)

(** [new Set(l)] followed by iteration: insertion order, every value at
    its first occurrence.  [key] is the identity for a plain [Set]; the
    prime-implicant deduplication uses the same loop with [getKey]. *)
Definition insertUnique {A K : Type} `{EqDecision K} (key : A → K)
    (seen : list A) (x : A) : list A :=
  if decide (key x ∈ key <$> seen) then seen else seen ++ [x].

Definition uniqueBy {A K : Type} `{EqDecision K} (key : A → K) (l : list A) : list A :=
  foldl (insertUnique key) [] l.

Definition setOf (l : list Z) : list Z := uniqueBy id l.

(** [Array.prototype.sort(compare)]: a stable sort; [x] goes before the
    first element it does not compare greater than. *)
Fixpoint insertSorted {A : Type} (compare : A → A → Z) (x : A) (l : list A) : list A :=
  match l with
  | [] => [x]
  | y :: r => if decide (compare x y ≤ 0) then x :: y :: r
              else y :: insertSorted compare x r
  end.

Definition js_sort {A : Type} (compare : A → A → Z) (l : list A) : list A :=
  foldr (insertSorted compare) [] l.

(** [l.sort((a, b) => a - b)] *)
Definition sortNumeric (l : list Z) : list Z := js_sort (λ a b, a - b) l.

(** [arr[position] = v] on a copy of a typed array.  A negative
    [position] only sets a property that the copying constructor drops,
    so no element changes.  A [position] at or beyond the length would
    make JavaScript extend the array with holes, which are not
    [ELogicState] values; [canCombineWith] never returns such a position
    and the list is left as it is there. *)
Definition arraySet {A : Type} (l : list A) (position : Z) (v : A) : list A :=
  if decide (0 ≤ position) then <[Z.to_nat position := v]> l else l.

Definition combineWith (this other : Table1Record) (position : Z) : Table1Record :=
  let newBits := arraySet (bits this) position ELogicState.DontCare in
  let newMinterms := sortNumeric (setOf (minterms this ++ minterms other)) in
  newTable1Record newMinterms newBits.

(** [getKey] joins the minterms with commas.  The decimal rendering of an
    integer contains no comma, so two keys are equal exactly when the
    minterm lists are; the key is modelled by the list itself. *)
Definition getKey (r : Table1Record) : list Z := minterms r.

(** ** data/table1/group.ts *)

Record Table1Group : Set := mkTable1Group {
  onesCount : nat;
  records : list Table1Record
}.

Definition containsRecord (g : Table1Group) (record : Table1Record) : bool :=
  bool_decide (Exists (λ r, getKey r = getKey record) (records g)).

Definition groupAddRecord (g : Table1Group) (record : Table1Record) : Table1Group :=
  {| onesCount := onesCount g; records := records g ++ [record] |}.

(** ** data/table1/column.ts *)

(** [groups : Map<number, Table1Group>], in insertion order. *)
Record Table1Column : Set := mkTable1Column {
  groups : list Table1Group
}.

Definition emptyColumn : Table1Column := {| groups := [] |}.

(** [getOrCreateGroup] followed by the duplicate check of [addRecord],
    on the association list: the group with the key [ones] is updated in
    place, a missing one is created at the end. *)
Fixpoint addRecordTo (ones : nat) (record : Table1Record) (gs : list Table1Group)
    : list Table1Group :=
  match gs with
  | [] => [groupAddRecord {| onesCount := ones; records := [] |} record]
  | g :: rest =>
      if decide (onesCount g = ones) then
        (if containsRecord g record then g else groupAddRecord g record) :: rest
      else g :: addRecordTo ones record rest
  end.

Definition addRecord (column : Table1Column) (record : Table1Record) : Table1Column :=
  {| groups := addRecordTo (countOnes record) record (groups column) |}.

(** [this.groups.get(key)]: the group object held under the key,
    together with its place in the map. *)
Definition getGroup (column : Table1Column) (key : nat) : option (nat * Table1Group) :=
  list_find (λ g, onesCount g = key) (groups column).

(** Writing a mutated group object back to its place. *)
Definition setGroup (column : Table1Column) (i : nat) (g : Table1Group) : Table1Column :=
  {| groups := <[i := g]> (groups column) |}.

(** [[...this.groups.keys()].sort((a, b) => a - b)] *)
Definition sortedKeys (column : Table1Column) : list nat :=
  js_sort (λ a b, Z.of_nat a - Z.of_nat b) (onesCount <$> groups column).

Definition getAllRecords (column : Table1Column) : list Table1Record :=
  g ← groups column; records g.

Definition getUnusedRecords (column : Table1Column) : list Table1Record :=
  g ← groups column; filter (λ r, isUsed r = false) (records g).

Definition isEmpty (column : Table1Column) : bool :=
  bool_decide (length (groups column) = 0%nat).

(** ** required-loop.ts *)

Module RequiredLoop.

Record t : Set := mk {
  minterms : list Z;
  bits : list ELogicState.t
}.

(** The constructor sorts a copy of the minterms and copies the bits. *)
Definition new (ms : list Z) (bs : list ELogicState.t) : t :=
  {| minterms := sortNumeric ms; bits := bs |}.

(** [inputVariables[i] || `x${i}`]: a missing name and the empty
    string are both falsy. *)
Definition varName (inputVariables : list string) (i : nat) : string :=
  match inputVariables !! i with
  | Some name => if decide (name = EmptyString) then "x" +:+ pretty i else name
  | None => "x" +:+ pretty i
  end.

(** The [for] loop of [toString] from index [i] on; [bs] is the part of
    the bit pattern that is left. *)
Fixpoint terms (inputVariables : list string) (i : nat) (bs : list ELogicState.t)
    : list string :=
  match bs with
  | [] => []
  | b :: rest =>
      match b with
      | ELogicState.False => [varName inputVariables i +:+ "'"]
      | ELogicState.True => [varName inputVariables i]
      | ELogicState.DontCare => []
      end ++ terms inputVariables (S i) rest
  end.

Definition toString (this : t) (inputVariables : list string) : string :=
  if decide (length (bits this) = 0%nat) then "1"
  else if bool_decide (Forall (λ b, b = ELogicState.DontCare) (bits this)) then "1"
  else
    let terms := terms inputVariables 0 (bits this) in
    if decide (length terms = 0%nat) then "1"
    else String.concat "" terms.

Definition getBits (this : t) : list ELogicState.t := bits this.

Definition getLiteralCount (this : t) : nat :=
  length (filter (λ b, b ≠ ELogicState.DontCare) (bits this)).

End RequiredLoop.

(** ** data/table2/row.ts and data/table2/column.ts *)

(** [coverage : Map<number, boolean>] only ever maps to [true]; its keys,
    in insertion order, are kept. *)
Record Table2Row : Set := mkTable2Row {
  record : Table1Record;
  coverage : list Z;
  isSelected : bool
}.

Definition newTable2Row (r : Table1Record) : Table2Row :=
  {| record := r; coverage := setOf (minterms r); isSelected := false |}.

Definition coversMinterm (row : Table2Row) (m : Z) : bool :=
  bool_decide (m ∈ coverage row).

Definition getCoveredMinterms (row : Table2Row) : list Z := coverage row.

Definition countCoverage (row : Table2Row) (uncoveredMinterms : gset Z) : nat :=
  length (filter (λ m, m ∈ uncoveredMinterms) (coverage row)).

(** [b !== 2], where 2 is the value of [ELogicState.DontCare]. *)
Definition getLiteralCount (row : Table2Row) : nat :=
  length (filter (λ b, b ≠ ELogicState.DontCare) (bits (record row))).

Record Table2Column : Set := mkTable2Column {
  minterm : Z;
  isCovered : bool
}.

Definition newTable2Column (m : Z) : Table2Column :=
  {| minterm := m; isCovered := false |}.

(** ** data/table2/table2.ts *)

(** Rows and columns are objects shared between the table and the lists
    the methods hand out; a row is referred to by its index in [rows]. *)
Record Table2 : Type := mkTable2 {
  rows : list Table2Row;
  columns : list Table2Column;
  uncoveredMinterms : gset Z
}.

Definition newTable2 (primeImplicants : list Table1Record) (ms : list Z) : Table2 :=
  {| rows := newTable2Row <$> primeImplicants;
     columns := newTable2Column <$> ms;
     uncoveredMinterms := list_to_set ms |}.

(** One iteration of the loop of [markCovered]: the first column with the
    minterm, if any, is flagged, and the minterm leaves the set. *)
Definition markMinterm (table : Table2) (m : Z) : Table2 :=
  {| rows := rows table;
     columns :=
       match list_find (λ c, minterm c = m) (columns table) with
       | Some (i, c) => <[i := {| minterm := minterm c; isCovered := true |}]> (columns table)
       | None => columns table
       end;
     uncoveredMinterms := uncoveredMinterms table ∖ {[m]} |}.

Definition markCovered (table : Table2) (row : Table2Row) : Table2 :=
  foldl markMinterm table (getCoveredMinterms row).

(** [row.isSelected = true] for the row object at index [j]. *)
Definition setSelected (table : Table2) (j : nat) : Table2 :=
  {| rows := alter (λ row, {| record := record row; coverage := coverage row;
                              isSelected := true |}) j (rows table);
     columns := columns table;
     uncoveredMinterms := uncoveredMinterms table |}.

(** The rows, with their indices, that pass a filter. *)
Definition filterRows (P : Table2Row → Prop) `{∀ row, Decision (P row)}
    (table : Table2) : list (nat * Table2Row) :=
  filter (λ jr, P jr.2) (imap pair (rows table)).

(** The body of the loop over [this.columns], for the column at index
    [i]; [essential] collects the (indices of the) rows pushed. *)
Definition essentialStep (st : Table2 * list nat) (i : nat) : Table2 * list nat :=
  let '(table, essential) := st in
  match columns table !! i with
  | None => st
  | Some column =>
      if isCovered column then st
      else
        let coveringRows :=
          filterRows (λ row, isSelected row = false
                             ∧ coversMinterm row (minterm column) = true) table in
        match coveringRows with
        | [(j, essentialRow)] =>
            if isSelected essentialRow then st
            else (markCovered (setSelected table j) essentialRow, essential ++ [j])
        | _ => st
        end
  end.

(** The method mutates the table and returns [essential]; both are
    returned here.  The loop runs over the indices of [this.columns],
    whose length never changes. *)
Definition findEssentialPrimeImplicants (table : Table2) : Table2 * list nat :=
  foldl essentialStep (table, []) (seq 0 (length (columns table))).

Definition getUncoveredMinterms (table : Table2) : gset Z := uncoveredMinterms table.

Definition getUnselectedRows (table : Table2) : list (nat * Table2Row) :=
  filterRows (λ row, isSelected row = false) table.

Definition isFullyCovered (table : Table2) : bool :=
  bool_decide (size (uncoveredMinterms table) = 0%nat).

(** [selectRow(row)] for the row object at index [j]. *)
Definition selectRow (table : Table2) (j : nat) : Table2 :=
  match rows table !! j with
  | Some row => markCovered (setSelected table j) row
  | None => table
  end.

Definition getSelectedRows (table : Table2) : list Table2Row :=
  filter (λ row, isSelected row = true) (rows table).

(** ** quine-mccluskey-solver.ts *)

Definition markUsed (r : Table1Record) : Table1Record :=
  {| minterms := minterms r; bits := bits r; isUsed := true |}.

(** The inner loop of [combineColumn], over the records of the next
    group, for one [record1] of the current group.  Both flags are
    mutated in place, so the two records and the next column are
    returned as they are after the loop. *)
Fixpoint combineInner (record1 : Table1Record) (records2 : list Table1Record)
    (nextColumn : Table1Column) : Table1Record * list Table1Record * Table1Column :=
  match records2 with
  | [] => (record1, [], nextColumn)
  | record2 :: rest =>
      let differPos := canCombineWith record1 record2 in
      if decide (0 ≤ differPos) then
        let combined := combineWith record1 record2 differPos in
        let '(record1', rest', nextColumn') :=
          combineInner (markUsed record1) rest (addRecord nextColumn combined) in
        (record1', markUsed record2 :: rest', nextColumn')
      else
        let '(record1', rest', nextColumn') := combineInner record1 rest nextColumn in
        (record1', record2 :: rest', nextColumn')
  end.

(** The loop over the records of the current group. *)
Fixpoint combineOuter (records1 records2 : list Table1Record)
    (nextColumn : Table1Column) : list Table1Record * list Table1Record * Table1Column :=
  match records1 with
  | [] => ([], records2, nextColumn)
  | record1 :: rest1 =>
      let '(record1', records2', nextColumn') := combineInner record1 records2 nextColumn in
      let '(rest1', records2'', nextColumn'') := combineOuter rest1 records2' nextColumn' in
      (record1' :: rest1', records2'', nextColumn'')
  end.

(** The loop [for (let i = 0; i < groups.length - 1; i++)] over the
    groups in the order of their keys; the groups are the objects held by
    the column, which is therefore threaded along.  The keys are those
    of the column, so both lookups succeed. *)
Fixpoint combineAdjacent (keys : list nat) (column nextColumn : Table1Column)
    : Table1Column * Table1Column :=
  match keys with
  | key1 :: ((key2 :: _) as rest) =>
      match getGroup column key1, getGroup column key2 with
      | Some (i1, currentGroup), Some (i2, nextGroup) =>
          let '(records1, records2, nextColumn') :=
            combineOuter (records currentGroup) (records nextGroup) nextColumn in
          combineAdjacent rest
            (setGroup (setGroup column i1 {| onesCount := key1; records := records1 |})
                      i2 {| onesCount := key2; records := records2 |})
            nextColumn'
      | _, _ => combineAdjacent rest column nextColumn
      end
  | _ => (column, nextColumn)
  end.

(** Returns the column with the flags set by the pass, and the next
    column. *)
Definition combineColumn (column : Table1Column) : Table1Column * Table1Column :=
  combineAdjacent (sortedKeys column) column emptyColumn.

Definition deduplicatePrimeImplicants (implicants : list Table1Record)
    : list Table1Record :=
  uniqueBy getKey implicants.

(** The [while (!currentColumn.isEmpty())] loop.  [fuel] bounds the
    number of executions of the loop body; [None] means the bound was
    reached with the column still not empty. *)
Fixpoint primeImplicantLoop (fuel : nat) (currentColumn : Table1Column)
    (allPrimeImplicants : list Table1Record) : option (list Table1Record) :=
  if isEmpty currentColumn then Some allPrimeImplicants
  else
    match fuel with
    | O => None
    | S fuel' =>
        let '(currentColumn', nextColumn) := combineColumn currentColumn in
        primeImplicantLoop fuel' nextColumn
          (allPrimeImplicants ++ getUnusedRecords currentColumn')
    end.

(** The first column, built from the distinct terms. *)
Definition firstColumn (ms dontcares : list Z) (numVariables : Z) : Table1Column :=
  foldl (λ column term, addRecord column (fromMinterm term numVariables))
        emptyColumn (setOf (ms ++ dontcares)).

Definition findPrimeImplicants (fuel : nat) (ms dontcares : list Z) (numVariables : Z)
    : option (list Table1Record) :=
  deduplicatePrimeImplicants
    <$> primeImplicantLoop fuel (firstColumn ms dontcares numVariables) [].

(** The comparator of [candidates.sort]: coverage descending, then
    literal count ascending. *)
Definition compareCandidates (currentUncovered : gset Z)
    (a b : nat * Table2Row) : Z :=
  let coverageDiff :=
    Z.of_nat (countCoverage b.2 currentUncovered)
    - Z.of_nat (countCoverage a.2 currentUncovered) in
  if decide (coverageDiff ≠ 0) then coverageDiff
  else Z.of_nat (getLiteralCount a.2) - Z.of_nat (getLiteralCount b.2).

(** The [while (!table2.isFullyCovered())] loop of
    [applyPetricksMethod]; [fuel] bounds the number of rows it selects.
    The first [Some table2] below is the [break]; [candidates[0]] is the
    head of the sorted list, which is not empty there. *)
Fixpoint petrickLoop (fuel : nat) (table2 : Table2) : option Table2 :=
  if isFullyCovered table2 then Some table2
  else
    let currentUncovered := getUncoveredMinterms table2 in
    let candidates :=
      filter (λ jr, (0 < countCoverage jr.2 currentUncovered)%nat)
             (getUnselectedRows table2) in
    if decide (length candidates = 0%nat) then Some table2
    else
      match js_sort (compareCandidates currentUncovered) candidates with
      | [] => Some table2
      | (j, _) :: _ =>
          match fuel with
          | O => None
          | S fuel' => petrickLoop fuel' (selectRow table2 j)
          end
      end.

Definition applyPetricksMethod (fuel : nat) (table2 : Table2) : option Table2 :=
  let uncovered := getUncoveredMinterms table2 in
  let unselectedRows := getUnselectedRows table2 in
  if decide (size uncovered = 0%nat ∨ length unselectedRows = 0%nat) then Some table2
  else
    let relevantRows :=
      filter (λ jr, (0 < countCoverage jr.2 uncovered)%nat) unselectedRows in
    if decide (length relevantRows = 0%nat) then Some table2
    else petrickLoop fuel table2.

(** The local [table2] of [selectPrimeImplicants] at the moment the
    method returns. *)
Definition selectionTable (fuel : nat) (primeImplicants : list Table1Record)
    (ms : list Z) : option Table2 :=
  let table2 := newTable2 primeImplicants ms in
  let table2 := (findEssentialPrimeImplicants table2).1 in
  if isFullyCovered table2 then Some table2
  else applyPetricksMethod fuel table2.

Definition selectPrimeImplicants (fuel : nat) (primeImplicants : list Table1Record)
    (ms : list Z) : option (list Table1Record) :=
  (λ table2, record <$> getSelectedRows table2)
    <$> selectionTable fuel primeImplicants ms.

(** [(record) => new RequiredLoop(record.minterms, record.bits)] *)
Definition loopOfRecord (r : Table1Record) : RequiredLoop.t :=
  RequiredLoop.new (minterms r) (bits r).

(** What a call of [solve] ends with. *)
Inductive Outcome : Set :=
  | Returned (loops : list RequiredLoop.t)
  | Threw (message : string).

(** The text of the template literal.  A number is printed by
    [Number::toString], which gives the decimal digits of an integer of
    absolute value below [2^53]; above, it rounds to the shortest digits
    that read back as the same double and, from [1e21] on, switches to
    exponent notation.  [pretty] is that rendering for the integers
    below [2^53] only, and nothing is stated about the text outside
    this range. *)
Definition exceedsMessage (term maxPossibleTerm vars : Z) : string :=
  "Term " +:+ pretty term +:+ " exceeds maximum possible value "
  +:+ pretty maxPossibleTerm +:+ " for " +:+ pretty vars +:+ " variables".

(** [(1 << vars) - 1] *)
Definition maxPossibleTerm (vars : Z) : Z := js_shl 1 vars - 1.

(** [solve] with the variable count given.  The automatic detection of
    the count goes through the floating-point [Math.log2] and is left
    out; with [numVariables] present its result is not used.  The one
    [fuel] bounds each of the two loops; [None] means it ran out. *)
Definition solve (fuel : nat) (ms dontcares : list Z) (numVariables : Z)
    : option Outcome :=
  if decide (length ms = 0%nat) then Some (Returned [])
  else
    let allTerms := ms ++ dontcares in
    let vars := numVariables in
    match list_find (λ term, maxPossibleTerm vars < term) allTerms with
    | Some (_, term) => Some (Threw (exceedsMessage term (maxPossibleTerm vars) vars))
    | None =>
        primeImplicants ← findPrimeImplicants fuel ms dontcares vars;
        if decide (length primeImplicants = 0%nat) then Some (Returned [])
        else
          selectedImplicants ← selectPrimeImplicants fuel primeImplicants ms;
          Some (Returned (loopOfRecord <$> selectedImplicants))
    end.

(** * Notions the specification uses to state its properties *)

(** The number a bit pattern spells in binary, index 0 most significant.
    A [DontCare] position counts as 0; the patterns this is applied to
    have none. *)
Definition bitsValue (bs : list ELogicState.t) : Z :=
  foldl (λ acc b, 2 * acc + (if decide (b = ELogicState.True) then 1 else 0)) 0 bs.

(** The bit state that stands for a Boolean. *)
Definition stateOfBool (b : bool) : ELogicState.t :=
  if b then ELogicState.True else ELogicState.False.

(** The literal of one position: the name with an apostrophe for
    [False], the bare name for [True], nothing for [DontCare]. *)
Definition literalOf (name : string) (b : ELogicState.t) : string :=
  match b with
  | ELogicState.False => name +:+ "'"
  | ELogicState.True => name
  | ELogicState.DontCare => ""
  end.

(** The separator-free concatenation of the literals, in position order,
    each position taking the name at the same index. *)
Fixpoint productOf (names : list string) (bs : list ELogicState.t) : string :=
  match names, bs with
  | name :: names', b :: bs' => literalOf name b +:+ productOf names' bs'
  | _, _ => ""
  end.

(** A value is a good answer of [canCombineWith] for the pattern [L] when
    it is -1 or the index of a position of [L] that is not [DontCare]. *)
Definition goodPosition (L : list ELogicState.t) (p : Z) : Prop :=
  p = -1 ∨ (0 ≤ p ∧ ∃ b, L !! Z.to_nat p = Some b ∧ b ≠ ELogicState.DontCare).

(** The number of [DontCare] positions of a record. *)
Definition dontCareCount (r : Table1Record) : nat :=
  length (filter (λ b, b = ELogicState.DontCare) (bits r)).

(** Every record of every group of a column satisfies [P], and no group
    is without records. *)
Definition columnForall (P : Table1Record → Prop) (column : Table1Column) : Prop :=
  Forall (λ g, records g ≠ [] ∧ Forall P (records g)) (groups column).

(** Every record held by the column satisfies [P]. *)
Definition recordsForall (P : Table1Record → Prop) (column : Table1Column) : Prop :=
  Forall (λ g, Forall P (records g)) (groups column).

(** A record over [n] variables of which [k] have been eliminated. *)
Definition uniform (n k : nat) (r : Table1Record) : Prop :=
  length (bits r) = n ∧ dontCareCount r = k.

(** The part of a row that never changes. *)
Definition rowData (row : Table2Row) : Table1Record * list Z :=
  (record row, coverage row).

(** Every minterm still to be covered has an unselected row covering it. *)
Definition coverable (table : Table2) : Prop :=
  ∀ m, m ∈ uncoveredMinterms table →
       ∃ j row, rows table !! j = Some row ∧ isSelected row = false ∧ m ∈ coverage row.

(** Every requested minterm is still to be covered or belongs to a
    selected row. *)
Definition accounted (ms : list Z) (table : Table2) : Prop :=
  ∀ m, m ∈ ms →
       m ∈ uncoveredMinterms table
       ∨ ∃ row, row ∈ rows table ∧ isSelected row = true ∧ m ∈ coverage row.

(** The minterm lists of the records of a column, group by group: what a
    combination pass, which only sets flags, leaves alone. *)
Definition shape (column : Table1Column) : list (list (list Z)) :=
  (λ g, minterms <$> records g) <$> groups column.

(** Some record of the list has [t] among its minterms. *)
Definition covers (rs : list Table1Record) (t : Z) : Prop :=
  ∃ r, r ∈ rs ∧ t ∈ minterms r.

(** A record of the current column is accounted for once the pass is
    over: it is still unused, or a record of the next column has all its
    minterms. *)
Definition justified (next : Table1Column) (r : Table1Record) : Prop :=
  isUsed r = false
  ∨ ∃ r', r' ∈ getAllRecords next ∧ ∀ t, t ∈ minterms r → t ∈ minterms r'.

(** The coverage table of [solve] ends with every requested minterm
    covered: the residual heuristic, if it ran at all, did not run out of
    candidates. *)
Definition fullyCoveredRun (fuel : nat) (ms dontcares : list Z) (v : Z) : Prop :=
  ∃ primes table,
    findPrimeImplicants fuel ms dontcares v = Some primes
    ∧ selectionTable fuel primes ms = Some table
    ∧ isFullyCovered table = true.

(** [coveringRows] of [findEssentialPrimeImplicants] for the minterm [m]:
    the unselected rows that cover it. *)
Definition unselectedCoverers (table : Table2) (m : Z) : list (nat * Table2Row) :=
  filterRows (λ row, isSelected row = false ∧ coversMinterm row m = true) table.

(** Row [j] is the one unselected row of the table that covers [m]. *)
Definition uniqueUnselectedCoverer (table : Table2) (m : Z) (j : nat) : Prop :=
  ∃ row, rows table !! j = Some row
         ∧ isSelected row = false
         ∧ coversMinterm row m = true
         ∧ ∀ j' row', rows table !! j' = Some row' → isSelected row' = false →
                      coversMinterm row' m = true → j' = j.

(** The table and the list [essential] after the first [k] iterations of
    the loop of [findEssentialPrimeImplicants]. *)
Definition essentialPrefix (table : Table2) (k : nat) : Table2 * list nat :=
  foldl essentialStep (table, []) (seq 0 k).

(** No column among the first [k] is unflagged with exactly one
    unselected covering row. *)
Definition settled (k : nat) (table : Table2) : Prop :=
  ∀ i column, (i < k)%nat → columns table !! i = Some column →
              isCovered column = false →
              length (unselectedCoverers table (minterm column)) ≠ 1%nat.

(** A column is flagged exactly when a selected row covers its minterm. *)
Definition flagsFollowSelection (table : Table2) : Prop :=
  ∀ column, column ∈ columns table →
    (isCovered column = true
     ↔ ∃ j row, rows table !! j = Some row ∧ isSelected row = true
                ∧ coversMinterm row (minterm column) = true).

(** The selected rows are the rows listed in [essential]. *)
Definition selectedAre (table : Table2) (essential : list nat) : Prop :=
  ∀ j row, rows table !! j = Some row → (isSelected row = true ↔ j ∈ essential).

(** * Further notions used to state properties of the code *)

(** The two bit patterns have the same length and differ at position
    [p] only, where neither holds [DontCare]. *)
Definition differOnlyAt (bs1 bs2 : list ELogicState.t) (p : nat) : Prop :=
  length bs1 = length bs2
  ∧ ∃ b1 b2,
      bs1 !! p = Some b1 ∧ bs2 !! p = Some b2
      ∧ b1 ≠ b2 ∧ b1 ≠ ELogicState.DontCare ∧ b2 ≠ ELogicState.DontCare
      ∧ ∀ i, i ≠ p → bs1 !! i = bs2 !! i.

(** The number [m] is one of those the bit pattern stands for: every
    position that is not [DontCare] holds the corresponding bit of [m],
    index 0 being the most significant of [length bs] bits. *)
Definition matchesBits (bs : list ELogicState.t) (m : Z) : Prop :=
  ∀ i b, bs !! i = Some b →
         b = ELogicState.DontCare
         ∨ b = stateOfBool (Z.testbit m (Z.of_nat (length bs - 1 - i))).

(** The record is a cube over [n] variables: its minterms are exactly the
    [n]-bit numbers its bit pattern stands for. *)
Definition isCube (n : nat) (r : Table1Record) : Prop :=
  length (bits r) = n
  ∧ ∀ m, m ∈ minterms r ↔ 0 ≤ m < 2 ^ Z.of_nat n ∧ matchesBits (bits r) m.

(** What every record of table 1 is, for terms in range: a cube whose
    minterms are listed in strictly ascending order, two to the number
    of its [DontCare] positions of them. *)
Definition goodRecord (n : nat) (r : Table1Record) : Prop :=
  isCube n r
  ∧ StronglySorted Z.lt (minterms r)
  ∧ Z.of_nat (length (minterms r)) = 2 ^ Z.of_nat (dontCareCount r).

(** The column is a proper grouping: one group per Hamming weight, no
    empty group, every record in the group of its own weight, and no two
    records of a group with the same key. *)
Definition wellFormedColumn (column : Table1Column) : Prop :=
  NoDup (onesCount <$> groups column)
  ∧ Forall (λ g, records g ≠ []
                 ∧ NoDup (getKey <$> records g)
                 ∧ Forall (λ r, countOnes r = onesCount g) (records g))
           (groups column).

(** ** ng-karnaugh-map: helpers/gray-code.helper.ts

    The helper works on JS numbers with the 32-bit operators [^], [|],
    [&], [<<] and [>>]; the arguments are modelled as integers. *)

(** [x ^ y] and [x | y]: both operands are converted with [ToInt32]. *)
Definition js_xor (x y : Z) : Z := toInt32 (Z.lxor (toInt32 x) (toInt32 y)).

Definition js_or (x y : Z) : Z := toInt32 (Z.lor (toInt32 x) (toInt32 y)).

Module GrayCodeHelper.

(** [binary ^ (binary >> 1)]. *)
Definition binaryToGray (binary : Z) : Z := js_xor binary (js_shr binary 1).

(** The loop [while (mask !== 0) { binary ^= mask; mask >>= 1; }]; the
    fuel bounds the number of times the condition is tested. *)
Fixpoint grayToBinaryLoop (fuel : nat) (binary mask : Z) : option Z :=
  match fuel with
  | O => None
  | S fuel =>
      if decide (mask = 0) then Some binary
      else grayToBinaryLoop fuel (js_xor binary mask) (js_shr mask 1)
  end.

Definition grayToBinary (fuel : nat) (gray : Z) : option Z :=
  grayToBinaryLoop fuel gray (js_shr gray 1).

(** [for (let i = 0; i < count; i++) result.push(binaryToGray(i))]. *)
Definition generateGrayCode (bits : Z) : list Z :=
  if decide (bits ≤ 0) then [0]
  else
    let count := js_shl 1 bits in
    binaryToGray <$> seqZ 0 count.

(** [rowBits] is a parameter that the function does not use. *)
Definition gridPositionToMinterm (row col rowBits colBits : Z) : Z :=
  let rowGray := binaryToGray row in
  let colGray := binaryToGray col in
  js_or (js_shl rowGray colBits) colGray.

Record GridPosition : Set := mkGridPosition { row : Z; col : Z }.

Definition mintermToGridPosition (fuel : nat) (minterm rowBits colBits : Z)
    : option GridPosition :=
  let colMask := js_shl 1 colBits - 1 in
  let colGray := js_and minterm colMask in
  let rowGray := js_shr minterm colBits in
  col ← grayToBinary fuel colGray;
  row ← grayToBinary fuel rowGray;
  Some (mkGridPosition row col).

Record GridDimensions : Set := mkGridDimensions {
  rowBits : Z;
  colBits : Z;
  rows : Z;
  cols : Z
}.

(** [Math.ceil(n / 2)] and [Math.floor(n / 2)] of an integer [n]. *)
Definition ceilHalf (n : Z) : Z := - ((- n) `div` 2).

Definition floorHalf (n : Z) : Z := n `div` 2.

Definition calculateGridDimensions (numVariables : Z) : GridDimensions :=
  let colBits := ceilHalf numVariables in
  let rowBits := floorHalf numVariables in
  mkGridDimensions rowBits colBits (js_shl 1 rowBits) (js_shl 1 colBits).

Record VariableDistribution : Set := mkVariableDistribution {
  rowVars : list string;
  colVars : list string
}.

(** [variables.slice(0, rowCount)] and [variables.slice(rowCount)]. *)
Definition distributeVariables (variables : list string) : VariableDistribution :=
  let n := Z.of_nat (length variables) in
  let rowCount := floorHalf n in
  mkVariableDistribution (take (Z.to_nat rowCount) variables)
                         (drop (Z.to_nat rowCount) variables).

End GrayCodeHelper.

(** Two numbers differ in exactly one binary digit. *)
Definition oneBitApart (x y : Z) : Prop :=
  ∃ k, 0 ≤ k ∧ Z.lxor x y = 2 ^ k.

(** * Properties *)

(** ** Bit-level facts about the 32-bit operators *)

Lemma toInt32_mod (x : Z) : toInt32 x `mod` 2 ^ 32 = x `mod` 2 ^ 32.
Proof.
  unfold toInt32.
  rewrite <- Zminus_mod_idemp_l, Z.mod_mod by lia.
  rewrite Zminus_mod_idemp_l. f_equal. lia.
Qed.

Lemma testbit_toInt32 (x j : Z) :
  0 ≤ j < 32 → Z.testbit (toInt32 x) j = Z.testbit x j.
Proof.
  intros Hj.
  rewrite <- (Z.mod_pow2_bits_low (toInt32 x) 32 j) by lia.
  rewrite toInt32_mod. apply Z.mod_pow2_bits_low. lia.
Qed.

Lemma toInt32_small (x : Z) : - 2 ^ 31 ≤ x < 2 ^ 31 → toInt32 x = x.
Proof. intros H. unfold toInt32. rewrite Z.mod_small; lia. Qed.

Lemma js_and_1 (x : Z) : js_and x 1 = Z.b2z (Z.testbit x 0).
Proof.
  unfold js_and. rewrite (toInt32_small 1) by lia.
  change 1 with (Z.ones 1). rewrite Z.land_ones by lia.
  change (2 ^ 1) with 2. rewrite <- Z.bit0_mod, testbit_toInt32 by lia.
  destruct (Z.testbit x 0); reflexivity.
Qed.

Lemma js_bit (m i : Z) :
  0 ≤ i → js_and (js_shr m i) 1 = Z.b2z (Z.testbit m (i `mod` 32)).
Proof.
  intros Hi. rewrite js_and_1. unfold js_shr.
  assert (0 ≤ i `mod` 32 < 32) by (apply Z.mod_pos_bound; lia).
  rewrite Z.shiftr_spec by lia. rewrite Z.add_0_l.
  by rewrite testbit_toInt32.
Qed.

(** ** [fromMinterm] *)

Lemma fromMintermBits_length (m : Z) (n : nat) : length (fromMintermBits m n) = n.
Proof. induction n as [|n IH]; simpl; [done | by rewrite IH]. Qed.

(** Every position holds the bit the 32-bit shift reads: the shift count
    is taken modulo 32. *)
Lemma fromMintermBits_lookup (m : Z) (n i : nat) :
  (i < n)%nat →
  fromMintermBits m n !! i
  = Some (stateOfBool (Z.testbit m (Z.of_nat (n - 1 - i) `mod` 32))).
Proof.
  revert i. induction n as [|n IH]; intros i Hi; [lia |].
  destruct i as [|i].
  - replace (S n - 1 - 0)%nat with n by lia. simpl.
    rewrite js_bit by lia.
    by destruct (Z.testbit m (Z.of_nat n `mod` 32)).
  - replace (S n - 1 - S i)%nat with (n - 1 - i)%nat by lia. simpl.
    apply IH. lia.
Qed.

Lemma mod_pow2_succ (m : Z) (i : nat) :
  m `mod` 2 ^ Z.of_nat (S i)
  = 2 ^ Z.of_nat i * Z.b2z (Z.testbit m (Z.of_nat i)) + m `mod` 2 ^ Z.of_nat i.
Proof.
  rewrite Nat2Z.inj_succ, Z.pow_succ_r by lia.
  rewrite (Z.mul_comm 2), Z.rem_mul_r by lia.
  rewrite Z.testbit_spec' by lia. lia.
Qed.

Lemma foldl_bitsValue (m acc : Z) (n : nat) :
  (n ≤ 32)%nat →
  foldl (λ acc b, 2 * acc + (if decide (b = ELogicState.True) then 1 else 0))
        acc (fromMintermBits m n)
  = acc * 2 ^ Z.of_nat n + m `mod` 2 ^ Z.of_nat n.
Proof.
  revert acc. induction n as [|n IH]; intros acc Hn.
  - simpl. rewrite Z.mod_1_r. lia.
  - cbn [fromMintermBits foldl]. rewrite IH by lia.
    rewrite js_bit by lia. rewrite Z.mod_small by lia.
    rewrite mod_pow2_succ.
    rewrite Nat2Z.inj_succ, Z.pow_succ_r by lia.
    destruct (Z.testbit m (Z.of_nat n)); simpl; lia.
Qed.

(** C9 as the specification states it does not hold for more than 32
    variables: the shift count wraps, so position 0 of a 33-bit pattern
    repeats bit 0 of the minterm instead of bit 32. *)
Lemma fromMinterm_roundtrip_fails_at_33 :
  0 ≤ 2 ^ 32 ≤ 2 ^ 33 - 1
  ∧ bits (fromMinterm (2 ^ 32) 33) !! 0%nat = Some ELogicState.False
  ∧ Z.testbit (2 ^ 32) (33 - 1 - 0) = true
  ∧ bitsValue (bits (fromMinterm (2 ^ 32) 33)) = 0
  ∧ bitsValue (bits (fromMinterm (2 ^ 32) 33)) ≠ 2 ^ 32.
Proof. vm_compute. repeat split; congruence. Qed.

(** C9 (amended): for a variable count [v] of at most 32 and a minterm
    [m] with [0 <= m <= 2^v - 1], the record [fromMinterm m v] has a bit
    pattern of length [v] whose position [i] holds bit [v - 1 - i] of
    [m], and reading the pattern as a binary number, index 0 most
    significant, gives [m] back. *)
Theorem fromMinterm_roundtrip (m v : Z) :
  0 ≤ v ≤ 32 →
  0 ≤ m ≤ 2 ^ v - 1 →
  Z.of_nat (length (bits (fromMinterm m v))) = v
  ∧ (∀ i : nat, Z.of_nat i < v →
       bits (fromMinterm m v) !! i
       = Some (stateOfBool (Z.testbit m (v - 1 - Z.of_nat i))))
  ∧ bitsValue (bits (fromMinterm m v)) = m.
Proof.
  intros Hv Hm. unfold fromMinterm, newTable1Record. cbn [bits].
  split; [| split].
  - rewrite fromMintermBits_length. lia.
  - intros i Hi. rewrite fromMintermBits_lookup by lia.
    do 3 f_equal. rewrite Z.mod_small by lia. lia.
  - unfold bitsValue. rewrite foldl_bitsValue by lia.
    rewrite Z2Nat.id by lia. rewrite Z.mod_small; lia.
Qed.

Lemma fromMinterm_roundtrip_witness :
  Z.of_nat (length (bits (fromMinterm 5 3))) = 3
  ∧ (∀ i : nat, Z.of_nat i < 3 →
       bits (fromMinterm 5 3) !! i
       = Some (stateOfBool (Z.testbit 5 (3 - 1 - Z.of_nat i))))
  ∧ bitsValue (bits (fromMinterm 5 3)) = 5.
Proof. apply (fromMinterm_roundtrip 5 3); simpl; lia. Defined.

(** ** [canCombineWith] *)

Lemma canCombineScan_sym (bs1 bs2 : list ELogicState.t) (i p : Z) (c : nat) :
  canCombineScan i bs1 bs2 p c = canCombineScan i bs2 bs1 p c.
Proof.
  revert bs2 i p c.
  induction bs1 as [|b1 r1 IH]; intros [|b2 r2] i p c; simpl; try done.
  repeat case_decide; first [done | apply IH | exfalso; intuition congruence].
Qed.

(** C7: [canCombineWith] is symmetric: called either way round, it
    returns the same value, be it -1 for "cannot combine" or the single
    differing position. *)
Theorem canCombineWith_symmetric (a b : Table1Record) :
  canCombineWith a b = canCombineWith b a.
Proof.
  unfold canCombineWith.
  repeat case_decide; try done; try congruence.
  apply canCombineScan_sym.
Qed.

(** ** The array and set helpers *)

Section Sorting.
Context {A : Type} (compare : A → A → Z).

Lemma insertSorted_Permutation (x : A) (l : list A) :
  insertSorted compare x l ≡ₚ x :: l.
Proof.
  induction l as [|y r IH]; simpl; [done |].
  case_decide; [done |]. rewrite IH. apply Permutation_swap.
Qed.

Lemma js_sort_Permutation (l : list A) : js_sort compare l ≡ₚ l.
Proof.
  induction l as [|x l IH]; simpl; [done |].
  rewrite insertSorted_Permutation. by f_equiv.
Qed.

Lemma elem_of_js_sort (x : A) (l : list A) : x ∈ js_sort compare l ↔ x ∈ l.
Proof. by rewrite js_sort_Permutation. Qed.

Lemma js_sort_length (l : list A) : length (js_sort compare l) = length l.
Proof. by rewrite js_sort_Permutation. Qed.
End Sorting.

Lemma insertSorted_sorted (x : Z) (l : list Z) :
  StronglySorted Z.le l → StronglySorted Z.le (insertSorted (λ a b, a - b) x l).
Proof.
  induction 1 as [|y r Hr IH Hy]; simpl.
  - repeat constructor.
  - case_decide.
    + constructor; [by constructor |].
      constructor; [lia |]. eapply Forall_impl; [exact Hy |]. simpl. lia.
    + constructor; [done |].
      rewrite insertSorted_Permutation. constructor; [lia | done].
Qed.

Lemma sortNumeric_sorted (l : list Z) : StronglySorted Z.le (sortNumeric l).
Proof.
  unfold sortNumeric, js_sort.
  induction l as [|x l IH]; simpl; [constructor | by apply insertSorted_sorted].
Qed.

Lemma StronglySorted_le_NoDup_lt (l : list Z) :
  StronglySorted Z.le l → NoDup l → StronglySorted Z.lt l.
Proof.
  induction 1 as [|x l Hl IH Hx]; intros Hnd; [constructor |].
  apply NoDup_cons in Hnd as [Hnotin Hnd].
  constructor; [by apply IH |].
  apply Forall_forall. intros y Hy.
  rewrite Forall_forall in Hx. specialize (Hx y Hy).
  assert (x ≠ y) by (intros ->; done). lia.
Qed.

Section Unique.
Context {A K : Type} `{EqDecision K} (key : A → K).

Lemma foldl_insertUnique_prefix (acc l : list A) :
  ∃ rest, foldl (insertUnique key) acc l = acc ++ rest ∧ rest ⊆ l.
Proof.
  revert acc. induction l as [|x l IH]; intros acc; simpl.
  - exists []. by rewrite app_nil_r.
  - unfold insertUnique at 2. case_decide.
    + destruct (IH acc) as (rest & -> & Hsub). exists rest. split; [done |].
      set_solver.
    + destruct (IH (acc ++ [x])) as (rest & -> & Hsub).
      exists (x :: rest). rewrite <- app_assoc. split; [done |]. set_solver.
Qed.

Lemma foldl_insertUnique_keys (acc l : list A) (x : A) :
  x ∈ acc ++ l → key x ∈ key <$> foldl (insertUnique key) acc l.
Proof.
  revert acc. induction l as [|y l IH]; intros acc Hx; simpl.
  - by rewrite app_nil_r in Hx; apply list_elem_of_fmap_2.
  - unfold insertUnique at 2. case_decide as Hin.
    + apply elem_of_app in Hx as [Hx | Hx].
      * apply IH. set_solver.
      * apply elem_of_cons in Hx as [-> | Hx].
        -- destruct (foldl_insertUnique_prefix acc l) as (rest & -> & _).
           rewrite fmap_app. set_solver.
        -- apply IH. set_solver.
    + apply IH. rewrite <- app_assoc. done.
Qed.

Lemma foldl_insertUnique_NoDup (acc l : list A) :
  NoDup (key <$> acc) → NoDup (key <$> foldl (insertUnique key) acc l).
Proof.
  revert acc. induction l as [|y l IH]; intros acc Hnd; simpl; [done |].
  apply IH. unfold insertUnique. case_decide as Hin; [done |].
  rewrite fmap_app. simpl. apply NoDup_app. split; [done |].
  split; [| apply NoDup_singleton].
  intros k Hk Hk'. apply list_elem_of_singleton in Hk'. by subst.
Qed.

Lemma elem_of_uniqueBy (l : list A) (x : A) : x ∈ uniqueBy key l → x ∈ l.
Proof.
  unfold uniqueBy. destruct (foldl_insertUnique_prefix [] l) as (rest & -> & Hsub).
  simpl. apply Hsub.
Qed.

Lemma uniqueBy_keys (l : list A) (x : A) : x ∈ l → key x ∈ key <$> uniqueBy key l.
Proof. intros Hx. by apply foldl_insertUnique_keys. Qed.

Lemma uniqueBy_NoDup (l : list A) : NoDup (key <$> uniqueBy key l).
Proof. apply foldl_insertUnique_NoDup. constructor. Qed.
End Unique.

Lemma elem_of_setOf (l : list Z) (x : Z) : x ∈ setOf l ↔ x ∈ l.
Proof.
  split; [apply elem_of_uniqueBy |].
  intros Hx. apply (uniqueBy_keys id) in Hx. by rewrite list_fmap_id in Hx.
Qed.

Lemma setOf_NoDup (l : list Z) : NoDup (setOf l).
Proof. unfold setOf. rewrite <- (list_fmap_id (uniqueBy id l)). apply uniqueBy_NoDup. Qed.

(** ** What [canCombineWith] returns *)

Lemma canCombineScan_good (L bs1 bs2 : list ELogicState.t) (k : nat) (p : Z) (c : nat) :
  drop k L = bs1 →
  goodPosition L p →
  goodPosition L (canCombineScan (Z.of_nat k) bs1 bs2 p c).
Proof.
  revert bs2 k p c.
  induction bs1 as [|b1 r1 IH]; intros [|b2 r2] k p c Hdrop Hp; simpl; try done.
  assert (L !! k = Some b1) as Hk.
  { rewrite <- (Nat.add_0_r k), <- lookup_drop, Hdrop. done. }
  assert (drop (S k) L = r1) as Hdrop'.
  { replace (S k) with (k + 1)%nat by lia. rewrite <- drop_drop, Hdrop. done. }
  replace (Z.of_nat k + 1) with (Z.of_nat (S k)) by lia.
  repeat case_decide; try (by left); apply IH; try done.
  right. split; [lia |]. exists b1. rewrite Nat2Z.id. naive_solver.
Qed.

Lemma canCombineWith_good (a b : Table1Record) :
  goodPosition (bits a) (canCombineWith a b).
Proof.
  unfold canCombineWith. case_decide; [by left |].
  apply (canCombineScan_good (bits a) (bits a) (bits b) 0); [done | by left].
Qed.

Lemma arraySet_length {A : Type} (l : list A) (p : Z) (v : A) :
  length (arraySet l p v) = length l.
Proof. unfold arraySet. case_decide; [apply length_insert | done]. Qed.

Lemma arraySet_lookup {A : Type} (l : list A) (p : Z) (v : A) (i : nat) :
  (p = -1 ∨ (0 ≤ p ∧ is_Some (l !! Z.to_nat p))) →
  arraySet l p v !! i = if decide (Z.of_nat i = p) then Some v else l !! i.
Proof.
  intros Hp. unfold arraySet. repeat case_decide; try lia; try done.
  - subst p. rewrite Nat2Z.id in *. destruct Hp as [? | [_ Hp]]; [lia |].
    apply list_lookup_insert_eq. by apply lookup_lt_is_Some.
  - apply list_lookup_insert_ne. lia.
Qed.

(** C8: for two records of equal bit-pattern length and the position
    [pos] that [canCombineWith] returns for them, the combined record has
    as minterms the strictly ascending (sorted, duplicate-free) list of
    exactly the minterms of either parent, and a bit pattern of the same
    length as the first parent's that holds [DontCare] at [pos] and the
    first parent's bit everywhere else. *)
Theorem combineWith_correct (a b : Table1Record) (pos : Z) :
  length (bits a) = length (bits b) →
  canCombineWith a b = pos →
  StronglySorted Z.lt (minterms (combineWith a b pos))
  ∧ (∀ x, x ∈ minterms (combineWith a b pos) ↔ x ∈ minterms a ∨ x ∈ minterms b)
  ∧ length (bits (combineWith a b pos)) = length (bits a)
  ∧ (∀ i : nat, bits (combineWith a b pos) !! i
       = if decide (Z.of_nat i = pos) then Some ELogicState.DontCare
         else bits a !! i).
Proof.
  intros _ Hpos. unfold combineWith, newTable1Record. cbn [minterms bits].
  repeat split.
  - apply StronglySorted_le_NoDup_lt; [apply sortNumeric_sorted |].
    unfold sortNumeric. rewrite js_sort_Permutation. apply setOf_NoDup.
  - unfold sortNumeric. rewrite elem_of_js_sort, elem_of_setOf, elem_of_app. done.
  - unfold sortNumeric. rewrite elem_of_js_sort, elem_of_setOf, elem_of_app. done.
  - apply arraySet_length.
  - intros i. apply arraySet_lookup.
    pose proof (canCombineWith_good a b) as Hgood. rewrite Hpos in Hgood.
    destruct Hgood as [? | (? & x & ? & _)]; [by left | right; eauto].
Qed.

Lemma combineWith_correct_witness :
  StronglySorted Z.lt
    (minterms (combineWith (fromMinterm 1 2) (fromMinterm 3 2) 0))
  ∧ (∀ x, x ∈ minterms (combineWith (fromMinterm 1 2) (fromMinterm 3 2) 0)
          ↔ x ∈ minterms (fromMinterm 1 2) ∨ x ∈ minterms (fromMinterm 3 2))
  ∧ length (bits (combineWith (fromMinterm 1 2) (fromMinterm 3 2) 0))
    = length (bits (fromMinterm 1 2))
  ∧ (∀ i : nat, bits (combineWith (fromMinterm 1 2) (fromMinterm 3 2) 0) !! i
       = if decide (Z.of_nat i = 0) then Some ELogicState.DontCare
         else bits (fromMinterm 1 2) !! i).
Proof. apply (combineWith_correct (fromMinterm 1 2) (fromMinterm 3 2) 0); reflexivity. Defined.

(** ** Rendering a loop *)

Lemma string_app_cons (c : ascii) (s t : string) :
  String c s +:+ t = String c (s +:+ t).
Proof. reflexivity. Qed.

Lemma string_app_nil_l (s : string) : "" +:+ s = s.
Proof. reflexivity. Qed.

Lemma string_app_nil_r (s : string) : s +:+ "" = s.
Proof. induction s as [|c s IH]; [done |]. by rewrite string_app_cons, IH. Qed.

Lemma string_app_assoc (s t u : string) : (s +:+ t) +:+ u = s +:+ (t +:+ u).
Proof. induction s as [|c s IH]; [done |]. by rewrite !string_app_cons, IH. Qed.

Lemma string_concat_cons (x : string) (l : list string) :
  String.concat "" (x :: l) = x +:+ String.concat "" l.
Proof. destruct l; simpl; [by rewrite string_app_nil_r | done]. Qed.

Lemma string_concat_singleton (x : string) : String.concat "" [x] = x.
Proof. done. Qed.

Lemma string_concat_app (l1 l2 : list string) :
  String.concat "" (l1 ++ l2) = String.concat "" l1 +:+ String.concat "" l2.
Proof.
  induction l1 as [|x l1 IH]; [done |].
  by rewrite <- app_comm_cons, !string_concat_cons, IH, string_app_assoc.
Qed.

Section Rendering.
Variable inputVariables : list string.
Hypothesis names_nonempty : Forall (λ name, name ≠ EmptyString) inputVariables.

Lemma varName_present (i : nat) (name : string) :
  inputVariables !! i = Some name → RequiredLoop.varName inputVariables i = name.
Proof.
  intros Hi. unfold RequiredLoop.varName. rewrite Hi.
  case_decide as Hempty; [| done].
  rewrite Forall_forall in names_nonempty.
  destruct (names_nonempty name); [| done]. by eapply list_elem_of_lookup_2.
Qed.

Lemma terms_productOf (i : nat) (bs : list ELogicState.t) :
  (i + length bs ≤ length inputVariables)%nat →
  String.concat "" (RequiredLoop.terms inputVariables i bs)
  = productOf (drop i inputVariables) bs.
Proof.
  revert i. induction bs as [|b bs IH]; intros i Hlen.
  - simpl. by destruct (drop i inputVariables).
  - simpl in Hlen.
    destruct (lookup_lt_is_Some_2 inputVariables i) as [name Hname]; [lia |].
    rewrite (drop_S _ _ _ Hname). cbn [RequiredLoop.terms productOf].
    rewrite string_concat_app, IH by lia.
    rewrite (varName_present i name Hname).
    destruct b; cbn [literalOf]; by rewrite ?string_concat_singleton.
Qed.
End Rendering.

Lemma terms_nil (inputVariables : list string) (i : nat) (bs : list ELogicState.t) :
  RequiredLoop.terms inputVariables i bs = []
  ↔ Forall (λ b, b = ELogicState.DontCare) bs.
Proof.
  revert i. induction bs as [|b bs IH]; intros i; simpl.
  - split; [constructor | done].
  - rewrite Forall_cons. destruct b; simpl; try (split; [done | by intros [? _]]).
    rewrite IH. naive_solver.
Qed.

Lemma productOf_not_1 (names : list string) (bs : list ELogicState.t) :
  Forall (λ name, name ≠ EmptyString ∧ name ≠ "1"%string) names →
  productOf names bs ≠ "1"%string.
Proof.
  revert bs. induction names as [|name names IH]; intros bs Hnames; [done |].
  apply Forall_cons in Hnames as [[Hne H1] Hnames].
  destruct bs as [|b bs]; [done |]. cbn [productOf].
  destruct b; cbn [literalOf].
  - destruct name as [|c [|c' name]]; [done | |];
      rewrite !string_app_cons; [rewrite string_app_nil_l | done].
    rewrite string_app_cons. done.
  - destruct name as [|c [|c' name]]; [done | |];
      rewrite !string_app_cons; [rewrite string_app_nil_l | done].
    intros Heq. destruct (productOf names bs); [| done].
    apply H1. congruence.
  - rewrite string_app_nil_l. by apply IH.
Qed.

(** C10 as the specification states it fails for a list of names that
    covers every position but holds an empty name: the empty string is
    falsy, so the placeholder is rendered where the claim expects the
    bare (empty) name. *)
Lemma toString_empty_name_placeholder :
  (length (RequiredLoop.bits (RequiredLoop.new [1%Z] [ELogicState.True]))
   ≤ length [EmptyString])%nat
  ∧ RequiredLoop.toString (RequiredLoop.new [1] [ELogicState.True]) [EmptyString]
    = "x0"%string
  ∧ productOf [EmptyString] [ELogicState.True] = EmptyString.
Proof. vm_compute. by repeat split. Qed.

(** C10 (amended): for a loop and a list of non-empty variable names that
    covers every bit position, rendering returns "1" when the bit pattern
    is empty or all [DontCare], and otherwise the separator-free
    concatenation, in position order, of the name followed by an
    apostrophe for each [False] position and the bare name for each
    [True] position, [DontCare] positions left out.  When moreover no
    variable is named "1", the result is "1" exactly in the first case. *)
Theorem toString_renders (this : RequiredLoop.t) (inputVariables : list string) :
  (length (RequiredLoop.bits this) ≤ length inputVariables)%nat →
  Forall (λ name, name ≠ EmptyString) inputVariables →
  let allDontCare :=
    RequiredLoop.bits this = []
    ∨ Forall (λ b, b = ELogicState.DontCare) (RequiredLoop.bits this) in
  (allDontCare → RequiredLoop.toString this inputVariables = "1"%string)
  ∧ (¬ allDontCare →
     RequiredLoop.toString this inputVariables
     = productOf inputVariables (RequiredLoop.bits this))
  ∧ (Forall (λ name, name ≠ "1"%string) inputVariables →
     RequiredLoop.toString this inputVariables = "1"%string ↔ allDontCare).
Proof.
  intros Hlen Hnames allDontCare.
  assert (allDontCare → RequiredLoop.toString this inputVariables = "1"%string) as Hone.
  { intros [Hnil | Hall]; unfold RequiredLoop.toString.
    - rewrite Hnil. done.
    - case_decide; [done |]. by rewrite bool_decide_eq_true_2. }
  assert (¬ allDontCare →
          RequiredLoop.toString this inputVariables
          = productOf inputVariables (RequiredLoop.bits this)) as Hprod.
  { intros Hnot. unfold RequiredLoop.toString.
    case_decide as Hl.
    { destruct Hnot. left. by apply nil_length_inv. }
    rewrite bool_decide_eq_false_2 by (intros ?; apply Hnot; by right).
    case_decide as Ht.
    { destruct Hnot. right. apply nil_length_inv in Ht. by eapply terms_nil. }
    by rewrite terms_productOf. }
  split; [done |]. split; [done |].
  intros Hno1. split; [| done].
  intros Heq. destruct (decide allDontCare) as [| Hnot]; [done |].
  rewrite Hprod in Heq by done.
  exfalso. eapply productOf_not_1; [| exact Heq].
  rewrite Forall_forall in *. naive_solver.
Qed.

Lemma toString_renders_witness :
  let this := RequiredLoop.new [0; 2; 8; 10]
                [ELogicState.DontCare; ELogicState.False;
                 ELogicState.DontCare; ELogicState.False] in
  let inputVariables := ["A"; "B"; "C"; "D"]%string in
  let allDontCare :=
    RequiredLoop.bits this = []
    ∨ Forall (λ b, b = ELogicState.DontCare) (RequiredLoop.bits this) in
  (allDontCare → RequiredLoop.toString this inputVariables = "1"%string)
  ∧ (¬ allDontCare →
     RequiredLoop.toString this inputVariables
     = productOf inputVariables (RequiredLoop.bits this))
  ∧ (Forall (λ name, name ≠ "1"%string) inputVariables →
     RequiredLoop.toString this inputVariables = "1"%string ↔ allDontCare).
Proof.
  apply (toString_renders
           (RequiredLoop.new [0; 2; 8; 10]
              [ELogicState.DontCare; ELogicState.False;
               ELogicState.DontCare; ELogicState.False])
           ["A"; "B"; "C"; "D"]%string).
  - simpl. lia.
  - repeat constructor; done.
Defined.

(** ** The columns of table 1 *)

Lemma getGroup_Some (column : Table1Column) (key i : nat) (g : Table1Group) :
  getGroup column key = Some (i, g) → groups column !! i = Some g ∧ onesCount g = key.
Proof. unfold getGroup. intros H. apply list_find_Some in H. naive_solver. Qed.

Lemma recordsForall_lookup P (column : Table1Column) (i : nat) (g : Table1Group) :
  recordsForall P column → groups column !! i = Some g → Forall P (records g).
Proof. intros Hall Hi. by eapply (Forall_lookup_1 _ _ _ _ Hall Hi). Qed.

Lemma recordsForall_setGroup P (column : Table1Column) (i ones : nat)
    (rs : list Table1Record) :
  recordsForall P column → Forall P rs →
  recordsForall P (setGroup column i {| onesCount := ones; records := rs |}).
Proof. intros Hall Hrs. by apply Forall_insert. Qed.

Lemma recordsForall_impl (P Q : Table1Record → Prop) (column : Table1Column) :
  recordsForall P column → (∀ r, P r → Q r) → recordsForall Q column.
Proof.
  unfold recordsForall. intros Hall HPQ. eapply Forall_impl; [exact Hall |].
  intros g Hg. simpl in Hg. by eapply Forall_impl.
Qed.

Lemma elem_of_getAllRecords (column : Table1Column) (r : Table1Record) :
  r ∈ getAllRecords column ↔ ∃ g, g ∈ groups column ∧ r ∈ records g.
Proof. unfold getAllRecords. rewrite list_elem_of_bind. naive_solver. Qed.

Lemma elem_of_getUnusedRecords (column : Table1Column) (r : Table1Record) :
  r ∈ getUnusedRecords column ↔ r ∈ getAllRecords column ∧ isUsed r = false.
Proof.
  unfold getUnusedRecords. rewrite list_elem_of_bind, elem_of_getAllRecords.
  setoid_rewrite list_elem_of_filter. naive_solver.
Qed.

Lemma recordsForall_elem_of P (column : Table1Column) :
  recordsForall P column ↔ ∀ r, r ∈ getAllRecords column → P r.
Proof.
  unfold recordsForall. rewrite Forall_forall.
  setoid_rewrite Forall_forall. setoid_rewrite elem_of_getAllRecords. naive_solver.
Qed.

Lemma columnForall_recordsForall P (column : Table1Column) :
  columnForall P column → recordsForall P column.
Proof.
  unfold columnForall, recordsForall. intros H.
  eapply Forall_impl; [exact H |]. naive_solver.
Qed.

Lemma addRecordTo_columnForall P (ones : nat) (c : Table1Record) (gs : list Table1Group) :
  Forall (λ g, records g ≠ [] ∧ Forall P (records g)) gs → P c →
  Forall (λ g, records g ≠ [] ∧ Forall P (records g)) (addRecordTo ones c gs).
Proof.
  intros Hgs Hc. induction Hgs as [|g gs [Hne Hg] Hgs IH]; simpl.
  - repeat constructor; [done | done].
  - case_decide; [| by constructor].
    constructor; [| done].
    destruct (containsRecord g c); [done |]. simpl. split.
    + by destruct (records g).
    + apply Forall_app. by repeat constructor.
Qed.

Lemma addRecord_columnForall P (column : Table1Column) (c : Table1Record) :
  columnForall P column → P c → columnForall P (addRecord column c).
Proof. apply addRecordTo_columnForall. Qed.

Lemma addRecordTo_elem_of (ones : nat) (c : Table1Record) (gs : list Table1Group)
    (r : Table1Record) (g : Table1Group) :
  g ∈ gs → r ∈ records g → ∃ g', g' ∈ addRecordTo ones c gs ∧ r ∈ records g'.
Proof.
  intros Hg Hr. induction gs as [|g0 gs IH]; [by apply elem_of_nil in Hg |].
  simpl. apply elem_of_cons in Hg as [-> | Hg].
  - case_decide; [| exists g0; set_solver].
    destruct (containsRecord g0 c); [exists g0; set_solver |].
    exists (groupAddRecord g0 c). split; [set_solver |]. simpl. set_solver.
  - case_decide; [exists g; set_solver |].
    destruct (IH Hg) as (g' & ? & ?). exists g'. set_solver.
Qed.

Lemma addRecord_elem_of (column : Table1Column) (c r : Table1Record) :
  r ∈ getAllRecords column → r ∈ getAllRecords (addRecord column c).
Proof.
  rewrite !elem_of_getAllRecords. intros (g & Hg & Hr).
  by eapply addRecordTo_elem_of.
Qed.

Lemma addRecordTo_key (ones : nat) (c : Table1Record) (gs : list Table1Group) :
  ∃ g r, g ∈ addRecordTo ones c gs ∧ r ∈ records g ∧ getKey r = getKey c.
Proof.
  induction gs as [|g0 gs IH]; simpl.
  - eexists _, c. split; [apply list_elem_of_here |]. simpl. set_solver.
  - case_decide.
    + destruct (containsRecord g0 c) eqn:Hc.
      * apply bool_decide_eq_true in Hc. apply Exists_exists in Hc as (r & Hr & Hk).
        exists g0, r. set_solver.
      * exists (groupAddRecord g0 c), c. simpl. set_solver.
    + destruct IH as (g & r & ? & ? & ?). exists g, r. set_solver.
Qed.

Lemma addRecord_key (column : Table1Column) (c : Table1Record) :
  ∃ r, r ∈ getAllRecords (addRecord column c) ∧ getKey r = getKey c.
Proof.
  destruct (addRecordTo_key (countOnes c) c (groups column)) as (g & r & ? & ? & ?).
  exists r. rewrite elem_of_getAllRecords. eauto.
Qed.

Lemma combineAdjacent_cons (key1 key2 : nat) (rest : list nat)
    (column nextColumn : Table1Column) :
  combineAdjacent (key1 :: key2 :: rest) column nextColumn
  = match getGroup column key1, getGroup column key2 with
    | Some (i1, currentGroup), Some (i2, nextGroup) =>
        let '(records1, records2, nextColumn') :=
          combineOuter (records currentGroup) (records nextGroup) nextColumn in
        combineAdjacent (key2 :: rest)
          (setGroup (setGroup column i1 {| onesCount := key1; records := records1 |})
                    i2 {| onesCount := key2; records := records2 |})
          nextColumn'
    | _, _ => combineAdjacent (key2 :: rest) column nextColumn
    end.
Proof. reflexivity. Qed.

(** ** One combination pass keeps an invariant *)

Section PassInvariant.
(** [Φ] is about the next column, [Ψ] about a record of the current
    column in the presence of the next column. *)
Variable Φ : Table1Column → Prop.
Variable Ψ : Table1Column → Table1Record → Prop.

Hypothesis Ψ_mono : ∀ next c r, Ψ next r → Ψ (addRecord next c) r.

Hypothesis combine_step : ∀ next r1 r2,
  Φ next → Ψ next r1 → Ψ next r2 → 0 ≤ canCombineWith r1 r2 →
  Φ (addRecord next (combineWith r1 r2 (canCombineWith r1 r2)))
  ∧ Ψ (addRecord next (combineWith r1 r2 (canCombineWith r1 r2))) (markUsed r1)
  ∧ Ψ (addRecord next (combineWith r1 r2 (canCombineWith r1 r2))) (markUsed r2).

Lemma combineInner_inv (record1 : Table1Record) (records2 : list Table1Record)
    (next : Table1Column) :
  Φ next → Ψ next record1 → Forall (Ψ next) records2 →
  Φ (combineInner record1 records2 next).2
  ∧ Ψ (combineInner record1 records2 next).2 (combineInner record1 records2 next).1.1
  ∧ Forall (Ψ (combineInner record1 records2 next).2)
           (combineInner record1 records2 next).1.2
  ∧ (∀ r, Ψ next r → Ψ (combineInner record1 records2 next).2 r).
Proof.
  revert record1 next.
  induction records2 as [|record2 rest IH]; intros record1 next HΦ H1 H2.
  { simpl. by repeat split. }
  apply Forall_cons in H2 as [H2 Hrest]. cbn [combineInner].
  case_decide as Hpos.
  - destruct (combine_step next record1 record2 HΦ H1 H2 Hpos) as (HΦ' & H1' & H2').
    set (next1 := addRecord next _) in *.
    assert (Forall (Ψ next1) rest) as Hrest'.
    { eapply Forall_impl; [exact Hrest |]. intros r. apply Ψ_mono. }
    specialize (IH (markUsed record1) next1 HΦ' H1' Hrest').
    destruct (combineInner (markUsed record1) rest next1) as [[r1' rest'] next'].
    simpl in *. destruct IH as (? & ? & ? & Hmono).
    repeat split; try done.
    + constructor; [by apply Hmono | done].
    + intros r Hr. by apply Hmono, Ψ_mono.
  - specialize (IH record1 next HΦ H1 Hrest).
    destruct (combineInner record1 rest next) as [[r1' rest'] next'].
    simpl in *. destruct IH as (? & ? & ? & Hmono).
    repeat split; try done. constructor; [by apply Hmono | done].
Qed.

Lemma combineOuter_inv (records1 records2 : list Table1Record) (next : Table1Column) :
  Φ next → Forall (Ψ next) records1 → Forall (Ψ next) records2 →
  Φ (combineOuter records1 records2 next).2
  ∧ Forall (Ψ (combineOuter records1 records2 next).2)
           (combineOuter records1 records2 next).1.1
  ∧ Forall (Ψ (combineOuter records1 records2 next).2)
           (combineOuter records1 records2 next).1.2
  ∧ (∀ r, Ψ next r → Ψ (combineOuter records1 records2 next).2 r).
Proof.
  revert records2 next.
  induction records1 as [|record1 rest1 IH]; intros records2 next HΦ H1 H2.
  { simpl. by repeat split. }
  apply Forall_cons in H1 as [H1 Hrest]. cbn [combineOuter].
  pose proof (combineInner_inv record1 records2 next HΦ H1 H2) as Hin.
  destruct (combineInner record1 records2 next) as [[r1' records2'] next'].
  simpl in Hin. destruct Hin as (HΦ' & H1' & H2' & Hmono).
  assert (Forall (Ψ next') rest1) as Hrest'.
  { eapply Forall_impl; [exact Hrest |]. exact Hmono. }
  specialize (IH records2' next' HΦ' Hrest' H2').
  destruct (combineOuter rest1 records2' next') as [[rest1' records2''] next''].
  simpl in *. destruct IH as (? & ? & ? & Hmono').
  repeat split; try done.
  - constructor; [by apply Hmono' | done].
  - intros r Hr. by apply Hmono', Hmono.
Qed.

Lemma combineAdjacent_inv (keys : list nat) (column next : Table1Column) :
  Φ next → recordsForall (Ψ next) column →
  Φ (combineAdjacent keys column next).2
  ∧ recordsForall (Ψ (combineAdjacent keys column next).2)
                  (combineAdjacent keys column next).1.
Proof.
  revert column next.
  induction keys as [|key1 rest IH]; intros column next HΦ Hcol; [done |].
  destruct rest as [|key2 rest]; [done |].
  rewrite combineAdjacent_cons.
  destruct (getGroup column key1) as [[i1 currentGroup]|] eqn:Hg1; [| by apply IH].
  destruct (getGroup column key2) as [[i2 nextGroup]|] eqn:Hg2; [| by apply IH].
  apply getGroup_Some in Hg1 as [Hg1 _]. apply getGroup_Some in Hg2 as [Hg2 _].
  pose proof (combineOuter_inv (records currentGroup) (records nextGroup) next HΦ
                (recordsForall_lookup _ _ _ _ Hcol Hg1)
                (recordsForall_lookup _ _ _ _ Hcol Hg2)) as Hout.
  destruct (combineOuter (records currentGroup) (records nextGroup) next)
    as [[records1 records2] next'].
  simpl in Hout. destruct Hout as (HΦ' & H1 & H2 & Hmono).
  apply IH; [done |].
  apply recordsForall_setGroup; [| done].
  apply recordsForall_setGroup; [| done].
  eapply recordsForall_impl; [exact Hcol | exact Hmono].
Qed.

Lemma combineColumn_inv (column : Table1Column) :
  Φ emptyColumn → recordsForall (Ψ emptyColumn) column →
  Φ (combineColumn column).2
  ∧ recordsForall (Ψ (combineColumn column).2) (combineColumn column).1.
Proof. apply combineAdjacent_inv. Qed.
End PassInvariant.

(** ** Termination of the extraction loop *)

Lemma filter_insert_dontCare (l : list ELogicState.t) (i : nat) (b : ELogicState.t) :
  l !! i = Some b → b ≠ ELogicState.DontCare →
  length (filter (λ b, b = ELogicState.DontCare) (<[i := ELogicState.DontCare]> l))
  = S (length (filter (λ b, b = ELogicState.DontCare) l)).
Proof.
  intros Hi Hb.
  rewrite insert_take_drop by (by eapply lookup_lt_Some).
  rewrite <- (take_drop_middle l i b Hi) at 3.
  rewrite !filter_app, !length_app, filter_cons_True by done.
  rewrite (filter_cons_False _ b) by done. simpl. lia.
Qed.

Lemma combineWith_uniform (n k : nat) (r1 r2 : Table1Record) :
  uniform n k r1 → 0 ≤ canCombineWith r1 r2 →
  uniform n (S k) (combineWith r1 r2 (canCombineWith r1 r2)).
Proof.
  intros [Hlen Hk] Hpos. unfold uniform, dontCareCount, combineWith. cbn [bits newTable1Record].
  destruct (canCombineWith_good r1 r2) as [? | (_ & b & Hb & Hne)]; [lia |].
  split; [by rewrite arraySet_length |].
  unfold arraySet. rewrite decide_True by done.
  rewrite (filter_insert_dontCare _ _ b) by done.
  unfold dontCareCount in Hk. by rewrite Hk.
Qed.

Lemma combineColumn_uniform (n k : nat) (column : Table1Column) :
  recordsForall (uniform n k) column →
  columnForall (uniform n (S k)) (combineColumn column).2.
Proof.
  intros Hcol.
  apply (combineColumn_inv (columnForall (uniform n (S k))) (λ _, uniform n k)); try done.
  - intros next r1 r2 Hnext H1 H2 Hpos. split; [| done].
    apply addRecord_columnForall; [done |]. by apply combineWith_uniform.
  - constructor.
Qed.

Lemma fromMintermBits_no_dontCare (m : Z) (n : nat) :
  filter (λ b, b = ELogicState.DontCare) (fromMintermBits m n) = [].
Proof.
  induction n as [|n IH]; [done |]. simpl.
  rewrite filter_cons_False; [done |]. by case_decide.
Qed.

Lemma fromMinterm_uniform (m v : Z) : uniform (Z.to_nat v) 0 (fromMinterm m v).
Proof.
  unfold uniform, dontCareCount, fromMinterm. cbn [bits newTable1Record].
  by rewrite fromMintermBits_length, fromMintermBits_no_dontCare.
Qed.

Lemma foldl_addRecord_columnForall {T : Type} P (f : T → Table1Record)
    (l : list T) (column : Table1Column) :
  columnForall P column → (∀ x, x ∈ l → P (f x)) →
  columnForall P (foldl (λ column x, addRecord column (f x)) column l).
Proof.
  revert column. induction l as [|x l IH]; intros column Hcol Hf; [done |].
  simpl. apply IH; [| set_solver].
  apply addRecord_columnForall; [done |]. apply Hf. set_solver.
Qed.

Lemma firstColumn_uniform (ms dontcares : list Z) (v : Z) :
  columnForall (uniform (Z.to_nat v) 0) (firstColumn ms dontcares v).
Proof.
  apply foldl_addRecord_columnForall; [constructor |].
  intros x _. apply fromMinterm_uniform.
Qed.

Lemma columnForall_inhabited P (column : Table1Column) :
  columnForall P column → isEmpty column = false → ∃ r, P r.
Proof.
  unfold isEmpty. intros Hcol Hne. apply bool_decide_eq_false in Hne.
  destruct (groups column) as [|g gs] eqn:Hg; [done |].
  unfold columnForall in Hcol. rewrite Hg in Hcol.
  apply Forall_cons in Hcol as [[Hrs Hg'] _].
  destruct (records g) as [|r rs]; [done |].
  apply Forall_cons in Hg' as [Hr _]. eauto.
Qed.

Lemma uniform_le (n k : nat) (r : Table1Record) : uniform n k r → (k ≤ n)%nat.
Proof. intros [<- <-]. apply length_filter. Qed.

(** With [k] variables already eliminated, [n + 1 - k] executions of the
    loop body are enough. *)
Lemma primeImplicantLoop_terminates (n : nat) (fuel : nat) :
  ∀ (k : nat) (column : Table1Column) (acc : list Table1Record),
    columnForall (uniform n k) column →
    (n + 1 ≤ k + fuel)%nat →
    is_Some (primeImplicantLoop fuel column acc).
Proof.
  induction fuel as [|fuel IH]; intros k column acc Hcol Hfuel.
  - simpl. destruct (isEmpty column) eqn:Hempty; [done |].
    destruct (columnForall_inhabited _ _ Hcol Hempty) as [r Hr].
    apply uniform_le in Hr. lia.
  - simpl. destruct (isEmpty column) eqn:Hempty; [done |].
    pose proof (combineColumn_uniform n k column
                  (columnForall_recordsForall _ _ Hcol)) as Hnext.
    destruct (combineColumn column) as [column' next].
    apply (IH (S k)); [done | lia].
Qed.

(** The bound is reached: the four minterms over two variables need
    three generations, and two executions of the body are not enough. *)
Lemma extraction_bound_sharp :
  primeImplicantLoop 2 (firstColumn [0; 1; 2; 3] [] 2) [] = None
  ∧ is_Some (primeImplicantLoop 3 (firstColumn [0; 1; 2; 3] [] 2) []).
Proof. split; [by vm_compute |]. vm_compute. eauto. Qed.

(** C5: whatever the terms and the variable count [v], the extraction
    loop started on the first column ends within [v + 1] executions of
    its body, that is, after at most [v + 1] generations. *)
Theorem extraction_terminates (ms dontcares : list Z) (v : Z) :
  is_Some (primeImplicantLoop (Z.to_nat v + 1) (firstColumn ms dontcares v) [])
  ∧ is_Some (findPrimeImplicants (Z.to_nat v + 1) ms dontcares v).
Proof.
  assert (is_Some (primeImplicantLoop (Z.to_nat v + 1) (firstColumn ms dontcares v) []))
    as Hloop.
  { apply (primeImplicantLoop_terminates (Z.to_nat v) _ 0);
      [apply firstColumn_uniform | lia]. }
  split; [done |]. unfold findPrimeImplicants.
  destruct Hloop as [primes ->]. done.
Qed.

(** ** Validation of the terms *)

Lemma maxPossibleTerm_exact (v : Z) : 0 ≤ v ≤ 30 → maxPossibleTerm v = 2 ^ v - 1.
Proof.
  intros Hv. unfold maxPossibleTerm, js_shl.
  rewrite (toInt32_small 1) by lia. rewrite Z.mod_small by lia.
  rewrite Z.shiftl_1_l.
  assert (0 < 2 ^ v) by (apply Z.pow_pos_nonneg; lia).
  assert (2 ^ v ≤ 2 ^ 30) by (apply Z.pow_le_mono_r; lia).
  rewrite toInt32_small; lia.
Qed.

Lemma solve_Threw (fuel : nat) (ms dontcares : list Z) (v : Z) (msg : string) :
  solve fuel ms dontcares v = Some (Threw msg) →
  ms ≠ []
  ∧ ∃ i term, list_find (λ term, maxPossibleTerm v < term) (ms ++ dontcares)
              = Some (i, term)
              ∧ msg = exceedsMessage term (maxPossibleTerm v) v.
Proof.
  unfold solve. case_decide as Hlen; [done |].
  intros Hsolve. split; [by intros -> |].
  destruct (list_find _ (ms ++ dontcares)) as [[i term]|]; [naive_solver |].
  destruct (findPrimeImplicants fuel ms dontcares v) as [primes|]; [| done].
  simpl in Hsolve. case_decide; [done |].
  by destruct (selectPrimeImplicants fuel primes ms).
Qed.

(** C2 as the specification states it fails for a negative term: -1 is
    outside [0, 2^2 - 1], and [solve] returns a loop for it. *)
Lemma solve_accepts_negative_term :
  ¬ (0 ≤ -1 ≤ 2 ^ 2 - 1)
  ∧ solve 3 [-1] [] 2
    = Some (Returned [RequiredLoop.mk [-1] [ELogicState.True; ELogicState.True]]).
Proof. split; [lia | by vm_compute]. Qed.

(** C2 (amended): for a variable count [v] from 0 to 30, a call of
    [solve] throws exactly when the minterms are not empty and some
    minterm or don't-care is greater than [2^v - 1].  The failure is
    raised whatever the fuel, so before any loop of the minimisation has
    run, and it is about the first such term in the order minterms then
    don't-cares; when that term is below [2^53], so that it prints as
    its decimal digits, the one message names it, the capacity
    [2^v - 1] and [v].  A negative term is not rejected. *)
Theorem solve_validation (ms dontcares : list Z) (v : Z) :
  0 ≤ v ≤ 30 →
  (∀ fuel msg, solve fuel ms dontcares v = Some (Threw msg) →
     ms ≠ []
     ∧ ∃ pre term post,
         ms ++ dontcares = pre ++ term :: post
         ∧ Forall (λ t, t ≤ 2 ^ v - 1) pre
         ∧ 2 ^ v - 1 < term
         ∧ (term < 2 ^ 53 → msg = exceedsMessage term (2 ^ v - 1) v))
  ∧ (ms ≠ [] → (∃ term, term ∈ ms ++ dontcares ∧ 2 ^ v - 1 < term) →
     ∃ msg, ∀ fuel, solve fuel ms dontcares v = Some (Threw msg)).
Proof.
  intros Hv. split.
  - intros fuel msg Hsolve.
    apply solve_Threw in Hsolve as (Hne & i & term & Hfind & ->).
    split; [done |]. rewrite maxPossibleTerm_exact in * by done.
    apply list_find_Some in Hfind as (Hi & Hterm & Hbefore).
    exists (take i (ms ++ dontcares)), term, (drop (S i) (ms ++ dontcares)).
    split; [by rewrite take_drop_middle |].
    split; [| done].
    apply Forall_forall. intros t Ht.
    apply list_elem_of_lookup in Ht as [j Hj].
    pose proof (lookup_lt_Some _ _ _ Hj) as Hlt. rewrite length_take in Hlt.
    rewrite lookup_take_lt in Hj by lia.
    specialize (Hbefore j t Hj). lia.
  - intros Hne (term & Hin & Hterm).
    destruct (list_find_elem_of (λ term, maxPossibleTerm v < term)
                (ms ++ dontcares) term Hin) as [[i term'] Hfind].
    { rewrite maxPossibleTerm_exact; done. }
    exists (exceedsMessage term' (maxPossibleTerm v) v). intros fuel.
    unfold solve. rewrite decide_False by (by destruct ms).
    by rewrite Hfind.
Qed.

Lemma solve_validation_witness :
  ∃ msg,
    (∀ fuel, solve fuel [1; 5] [2] 2 = Some (Threw msg))
    ∧ msg = "Term 5 exceeds maximum possible value 3 for 2 variables"%string.
Proof.
  destruct (solve_validation [1; 5] [2] 2) as [Hmsg Hthrows]; [lia |].
  destruct Hthrows as [msg Hsolve]; [done | |].
  - exists 5. split; [| lia]. apply list_elem_of_lookup. by exists 1%nat.
  - exists msg. split; [done |].
    destruct (Hmsg 0%nat msg (Hsolve 0%nat))
      as (_ & pre & term & post & Hsplit & Hpre & Hterm & Htext).
    destruct pre as [|t0 [|t1 pre]].
    + injection Hsplit as <- _. simpl in Hterm. lia.
    + injection Hsplit as _ <- _. rewrite Htext by lia. by vm_compute.
    + injection Hsplit as _ <- _. apply Forall_cons in Hpre as [_ Hpre].
      apply Forall_cons in Hpre as [Ht1 _]. simpl in Ht1. lia.
Defined.

(** ** The coverage table *)

Lemma elem_of_filterRows (P : Table2Row → Prop) `{∀ row, Decision (P row)}
    (table : Table2) (j : nat) (row : Table2Row) :
  (j, row) ∈ filterRows P table ↔ rows table !! j = Some row ∧ P row.
Proof.
  unfold filterRows. rewrite list_elem_of_filter, elem_of_lookup_imap. simpl.
  split; [intros (HP & i & y & [= -> ->] & Hi); done |].
  intros [Hj HP]. split; [done |]. by exists j, row.
Qed.

Lemma markCovered_rows (table : Table2) (row : Table2Row) :
  rows (markCovered table row) = rows table.
Proof.
  unfold markCovered. generalize (getCoveredMinterms row). intros l. revert table.
  induction l as [|m l IH]; intros table; [done |]. simpl. by rewrite IH.
Qed.

Lemma markCovered_uncovered (table : Table2) (row : Table2Row) :
  uncoveredMinterms (markCovered table row)
  = uncoveredMinterms table ∖ list_to_set (coverage row).
Proof.
  unfold markCovered, getCoveredMinterms. generalize (coverage row). intros l.
  revert table. induction l as [|m l IH]; intros table; simpl.
  - set_solver.
  - rewrite IH. simpl. set_solver.
Qed.

Lemma selectRow_rows (table : Table2) (j : nat) (row : Table2Row) :
  rows table !! j = Some row →
  rows (selectRow table j)
  = <[j := {| record := record row; coverage := coverage row; isSelected := true |}]>
      (rows table).
Proof.
  intros Hj. unfold selectRow. rewrite Hj, markCovered_rows. simpl.
  apply list_eq. intros i. destruct (decide (i = j)) as [-> | Hne].
  - rewrite list_lookup_alter_eq, Hj. simpl.
    rewrite list_lookup_insert_eq; [done |]. by eapply lookup_lt_Some.
  - by rewrite list_lookup_alter_ne, list_lookup_insert_ne.
Qed.

Lemma selectRow_uncovered (table : Table2) (j : nat) (row : Table2Row) :
  rows table !! j = Some row →
  uncoveredMinterms (selectRow table j)
  = uncoveredMinterms table ∖ list_to_set (coverage row).
Proof. intros Hj. unfold selectRow. rewrite Hj. by rewrite markCovered_uncovered. Qed.

(** The body of the essential-implicant loop either leaves everything as
    it is, or selects the one unselected row covering a column that is
    not yet flagged. *)
Lemma essentialStep_cases (table : Table2) (essential : list nat) (i : nat) :
  essentialStep (table, essential) i = (table, essential)
  ∨ ∃ column j row,
      columns table !! i = Some column
      ∧ isCovered column = false
      ∧ filterRows (λ row, isSelected row = false
                           ∧ coversMinterm row (minterm column) = true) table
        = [(j, row)]
      ∧ rows table !! j = Some row
      ∧ isSelected row = false
      ∧ essentialStep (table, essential) i = (selectRow table j, essential ++ [j]).
Proof.
  unfold essentialStep.
  destruct (columns table !! i) as [column|] eqn:Hi; [| by left].
  destruct (isCovered column) eqn:Hcov; [by left |].
  destruct (filterRows _ table) as [|[j row] [|? ?]] eqn:Hrows; [by left | | by left].
  assert ((j, row) ∈ filterRows (λ row, isSelected row = false
            ∧ coversMinterm row (minterm column) = true) table) as Hin.
  { rewrite Hrows. apply list_elem_of_here. }
  apply elem_of_filterRows in Hin as (Hj & Hsel & Hcovers).
  right. exists column, j, row. rewrite Hsel.
  repeat split; try done. unfold selectRow. by rewrite Hj.
Qed.

Section TableInvariant.
Variable Inv : Table2 → Prop.
Hypothesis Inv_selectRow : ∀ table j row,
  Inv table → rows table !! j = Some row → isSelected row = false →
  Inv (selectRow table j).

Lemma essentialStep_Inv (st : Table2 * list nat) (i : nat) :
  Inv st.1 → Inv (essentialStep st i).1.
Proof.
  destruct st as [table essential]. intros HInv.
  destruct (essentialStep_cases table essential i)
    as [-> | (column & j & row & _ & _ & _ & Hj & Hsel & ->)]; [done |].
  by eapply Inv_selectRow.
Qed.

Lemma findEssentialPrimeImplicants_Inv (table : Table2) :
  Inv table → Inv (findEssentialPrimeImplicants table).1.
Proof.
  unfold findEssentialPrimeImplicants.
  generalize (seq 0 (length (columns table))). intros l.
  generalize (@nil nat). revert table.
  induction l as [|i l IH]; intros table essential HInv; [done |].
  cbn [foldl]. pose proof (essentialStep_Inv (table, essential) i HInv) as Hstep.
  destruct (essentialStep (table, essential) i) as [table' essential'].
  by apply IH.
Qed.

Lemma petrickLoop_Inv (fuel : nat) (table table' : Table2) :
  Inv table → petrickLoop fuel table = Some table' → Inv table'.
Proof.
  revert table. induction fuel as [|fuel IH]; intros table HInv; simpl.
  - destruct (isFullyCovered table); [naive_solver |].
    case_decide; [naive_solver |].
    destruct (js_sort _ _) as [|[j row] ?]; naive_solver.
  - destruct (isFullyCovered table); [naive_solver |].
    case_decide; [naive_solver |].
    destruct (js_sort _ _) as [|[j row] sorted] eqn:Hsort; [naive_solver |].
    assert ((j, row) ∈ (j, row) :: sorted) as Hin by apply list_elem_of_here.
    rewrite <- Hsort, elem_of_js_sort, list_elem_of_filter in Hin.
    destruct Hin as [_ Hin]. apply elem_of_filterRows in Hin as [Hj Hsel].
    apply IH. by eapply Inv_selectRow.
Qed.

Lemma applyPetricksMethod_Inv (fuel : nat) (table table' : Table2) :
  Inv table → applyPetricksMethod fuel table = Some table' → Inv table'.
Proof.
  unfold applyPetricksMethod. intros HInv.
  case_decide; [naive_solver |]. case_decide; [naive_solver |].
  by apply petrickLoop_Inv.
Qed.

Lemma selectionTable_Inv (fuel : nat) (primes : list Table1Record) (ms : list Z)
    (table : Table2) :
  Inv (newTable2 primes ms) → selectionTable fuel primes ms = Some table → Inv table.
Proof.
  unfold selectionTable. intros HInv.
  apply findEssentialPrimeImplicants_Inv in HInv.
  destruct (isFullyCovered _); [naive_solver |].
  by apply applyPetricksMethod_Inv.
Qed.
End TableInvariant.

Lemma selectRow_rowData (table : Table2) (j : nat) (row : Table2Row) :
  rows table !! j = Some row →
  rowData <$> rows (selectRow table j) = rowData <$> rows table.
Proof.
  intros Hj. rewrite (selectRow_rows _ _ _ Hj), list_fmap_insert.
  apply list_insert_id. by rewrite list_lookup_fmap, Hj.
Qed.

Lemma selectionTable_rowData (fuel : nat) (primes : list Table1Record) (ms : list Z)
    (table : Table2) :
  selectionTable fuel primes ms = Some table →
  rowData <$> rows table = rowData <$> (newTable2Row <$> primes).
Proof.
  apply (selectionTable_Inv
           (λ t, rowData <$> rows t = rowData <$> (newTable2Row <$> primes)));
    [| done].
  intros t j row Ht Hj _. by rewrite (selectRow_rowData _ _ _ Hj).
Qed.

Lemma selectionTable_records (fuel : nat) (primes : list Table1Record) (ms : list Z)
    (table : Table2) :
  selectionTable fuel primes ms = Some table → record <$> rows table = primes.
Proof.
  intros Hsel. apply selectionTable_rowData in Hsel.
  apply (f_equal (fmap fst)) in Hsel.
  rewrite <- !list_fmap_compose in Hsel.
  etrans; [exact Hsel |]. clear. induction primes as [|r primes IH]; [done |].
  by rewrite fmap_cons, IH.
Qed.

Lemma selectionTable_coverage (fuel : nat) (primes : list Table1Record) (ms : list Z)
    (table : Table2) (row : Table2Row) :
  selectionTable fuel primes ms = Some table → row ∈ rows table →
  coverage row = setOf (minterms (record row)).
Proof.
  intros Hsel Hrow. apply selectionTable_rowData in Hsel.
  apply (list_elem_of_fmap_2 rowData) in Hrow. rewrite Hsel in Hrow.
  rewrite <- list_fmap_compose in Hrow.
  apply list_elem_of_fmap in Hrow as (r & Heq & _).
  unfold rowData in Heq. simpl in Heq. by injection Heq as -> ->.
Qed.

(** ** Termination of the residual heuristic and of [solve] *)

Lemma petrickLoop_terminates (fuel : nat) (table : Table2) :
  (size (uncoveredMinterms table) ≤ fuel)%nat → is_Some (petrickLoop fuel table).
Proof.
  revert table. induction fuel as [|fuel IH]; intros table Hsize.
  - simpl. unfold isFullyCovered. rewrite bool_decide_eq_true_2 by lia. done.
  - simpl. destruct (isFullyCovered table); [done |].
    case_decide; [done |].
    destruct (js_sort _ _) as [|[j row] sorted] eqn:Hsort; [done |].
    assert ((j, row) ∈ (j, row) :: sorted) as Hin by apply list_elem_of_here.
    rewrite <- Hsort, elem_of_js_sort, list_elem_of_filter in Hin.
    destruct Hin as [Hcount Hin]. apply elem_of_filterRows in Hin as [Hj Hsel].
    apply IH. rewrite (selectRow_uncovered _ _ _ Hj).
    simpl in Hcount. unfold countCoverage, getUncoveredMinterms in Hcount.
    destruct (filter _ (coverage row)) as [|m ?] eqn:Hfilter; [simpl in Hcount; lia |].
    assert (m ∈ filter (λ m, m ∈ uncoveredMinterms table) (coverage row)) as Hm.
    { rewrite Hfilter. apply list_elem_of_here. }
    apply list_elem_of_filter in Hm as [Hm1 Hm2].
    assert (uncoveredMinterms table ∖ list_to_set (coverage row)
            ⊂ uncoveredMinterms table) as Hsub.
    { split; [set_solver |]. intros Hsub. specialize (Hsub m Hm1). set_solver. }
    apply subset_size in Hsub. lia.
Qed.

Lemma size_list_to_set_le (l : list Z) :
  (size (list_to_set (C:=gset Z) l) ≤ length l)%nat.
Proof.
  induction l as [|x l IH].
  - done.
  - cbn [list_to_set length]. rewrite size_union_alt, size_singleton.
    assert (list_to_set (C:=gset Z) l ∖ {[x]} ⊆ list_to_set l) as Hle by set_solver.
    apply subseteq_size in Hle. lia.
Qed.

Lemma applyPetricksMethod_terminates (fuel : nat) (table : Table2) :
  (size (uncoveredMinterms table) ≤ fuel)%nat → is_Some (applyPetricksMethod fuel table).
Proof.
  intros Hsize. unfold applyPetricksMethod.
  case_decide; [done |]. case_decide; [done |]. by apply petrickLoop_terminates.
Qed.

Lemma selectionTable_terminates (fuel : nat) (primes : list Table1Record) (ms : list Z) :
  (length ms ≤ fuel)%nat → is_Some (selectionTable fuel primes ms).
Proof.
  intros Hfuel. unfold selectionTable.
  destruct (isFullyCovered _); [done |].
  apply applyPetricksMethod_terminates.
  etrans; [| exact Hfuel]. etrans; [| apply size_list_to_set_le].
  apply subseteq_size.
  apply (findEssentialPrimeImplicants_Inv
           (λ t, uncoveredMinterms t ⊆ list_to_set ms)); [| done].
  intros t j row Ht Hj _. rewrite (selectRow_uncovered _ _ _ Hj). set_solver.
Qed.

Lemma findPrimeImplicants_terminates (fuel : nat) (ms dontcares : list Z) (v : Z) :
  (Z.to_nat v + 1 ≤ fuel)%nat → is_Some (findPrimeImplicants fuel ms dontcares v).
Proof.
  intros Hfuel. unfold findPrimeImplicants.
  destruct (primeImplicantLoop_terminates (Z.to_nat v) fuel 0
              (firstColumn ms dontcares v) [] (firstColumn_uniform _ _ _))
    as [primes ->]; [lia | done].
Qed.

Lemma solve_terminates (fuel : nat) (ms dontcares : list Z) (v : Z) :
  (Z.to_nat v + 1 + length ms ≤ fuel)%nat → is_Some (solve fuel ms dontcares v).
Proof.
  intros Hfuel. unfold solve. case_decide; [done |].
  destruct (list_find _ _) as [[? ?]|]; [done |].
  destruct (findPrimeImplicants_terminates fuel ms dontcares v) as [primes ->]; [lia |].
  simpl. case_decide; [done |]. unfold selectPrimeImplicants.
  destruct (selectionTable_terminates fuel primes ms) as [table ->]; [lia | done].
Qed.

(** ** The order of the returned loops *)

(** C3 as the specification states it fails on [solve([0, 1, 6], [], 3)]:
    the essential pass first selects row 1, the implicant of 0 and 1
    (unique coverer of the first column), and then row 0, the implicant
    of 6; nothing is left for the heuristic; the returned list has the
    implicant of 6 first. *)
Lemma solve_not_in_selection_order :
  findPrimeImplicants 4 [0; 1; 6] [] 3
  = Some [fromMinterm 6 3; combineWith (fromMinterm 0 3) (fromMinterm 1 3) 2]
  ∧ (findEssentialPrimeImplicants
       (newTable2 [fromMinterm 6 3; combineWith (fromMinterm 0 3) (fromMinterm 1 3) 2]
                  [0; 1; 6])).2
    = [1%nat; 0%nat]
  ∧ isFullyCovered
      (findEssentialPrimeImplicants
         (newTable2 [fromMinterm 6 3; combineWith (fromMinterm 0 3) (fromMinterm 1 3) 2]
                    [0; 1; 6])).1
    = true
  ∧ solve 4 [0; 1; 6] [] 3
    = Some (Returned
              [loopOfRecord (fromMinterm 6 3);
               loopOfRecord (combineWith (fromMinterm 0 3) (fromMinterm 1 3) 2)])
  ∧ loopOfRecord (fromMinterm 6 3)
    ≠ loopOfRecord (combineWith (fromMinterm 0 3) (fromMinterm 1 3) 2).
Proof. repeat split; by vm_compute. Qed.

(** C3 (amended): the list returned by [solve] is ordered by the rows of
    the coverage table, that is, by the order in which the prime
    implicants were collected, not by the order of selection: it is made
    of the selected rows in row order, hence a sub-list of the list of
    prime implicants, essential and residual implicants interleaved as
    their rows are. *)
Theorem solve_row_order (fuel : nat) (ms dontcares : list Z) (v : Z) :
  (Z.to_nat v + 1 + length ms ≤ fuel)%nat →
  ∃ outcome primes,
    solve fuel ms dontcares v = Some outcome
    ∧ findPrimeImplicants fuel ms dontcares v = Some primes
    ∧ ∀ loops, outcome = Returned loops →
        loops `sublist_of` (loopOfRecord <$> primes)
        ∧ (loops = []
           ∨ ∃ table,
               selectionTable fuel primes ms = Some table
               ∧ record <$> rows table = primes
               ∧ loops = loopOfRecord <$> (record <$> getSelectedRows table)).
Proof.
  intros Hfuel.
  destruct (solve_terminates fuel ms dontcares v Hfuel) as [outcome Hsolve].
  destruct (findPrimeImplicants_terminates fuel ms dontcares v) as [primes Hprimes];
    [lia |].
  exists outcome, primes. split; [done |]. split; [done |].
  intros loops ->. unfold solve in Hsolve.
  case_decide; [injection Hsolve as <-; split; [apply sublist_nil_l | by left] |].
  destruct (list_find _ _) as [[? ?]|]; [done |].
  rewrite Hprimes in Hsolve. simpl in Hsolve.
  case_decide; [injection Hsolve as <-; split; [apply sublist_nil_l | by left] |].
  unfold selectPrimeImplicants in Hsolve.
  destruct (selectionTable fuel primes ms) as [table|] eqn:Htable; [| done].
  simpl in Hsolve. injection Hsolve as <-.
  pose proof (selectionTable_records _ _ _ _ Htable) as Hrecords.
  split; [| right; by exists table].
  rewrite <- Hrecords. do 2 apply fmap_sublist. apply sublist_filter.
Qed.

Lemma solve_row_order_witness :
  solve 7 [0; 1; 6] [] 3
  = Some (Returned
            [loopOfRecord (fromMinterm 6 3);
             loopOfRecord (combineWith (fromMinterm 0 3) (fromMinterm 1 3) 2)])
  ∧ findPrimeImplicants 7 [0; 1; 6] [] 3
    = Some [fromMinterm 6 3; combineWith (fromMinterm 0 3) (fromMinterm 1 3) 2]
  ∧ [loopOfRecord (fromMinterm 6 3);
     loopOfRecord (combineWith (fromMinterm 0 3) (fromMinterm 1 3) 2)]
    `sublist_of`
    (loopOfRecord
       <$> [fromMinterm 6 3; combineWith (fromMinterm 0 3) (fromMinterm 1 3) 2]).
Proof.
  destruct (solve_row_order 7 [0; 1; 6] [] 3)
    as (outcome & primes & Hsolve & Hprimes & Hloops); [simpl; lia |].
  split; [by vm_compute |]. split; [by vm_compute |].
  assert (primes
          = [fromMinterm 6 3; combineWith (fromMinterm 0 3) (fromMinterm 1 3) 2])
    as -> by (vm_compute in Hprimes; vm_compute; congruence).
  apply Hloops. vm_compute in Hsolve. vm_compute. congruence.
Defined.

(** ** A combination pass only sets flags *)

Lemma combineInner_minterms (record1 : Table1Record) (records2 : list Table1Record)
    (next : Table1Column) :
  minterms (combineInner record1 records2 next).1.1 = minterms record1
  ∧ minterms <$> (combineInner record1 records2 next).1.2 = minterms <$> records2.
Proof.
  revert record1 next. induction records2 as [|record2 rest IH]; intros record1 next.
  { done. }
  cbn [combineInner]. case_decide.
  - specialize (IH (markUsed record1)
                  (addRecord next (combineWith record1 record2
                                     (canCombineWith record1 record2)))).
    destruct (combineInner _ rest _) as [[r1' rest'] next'].
    cbn [fst snd] in *. destruct IH as [H1 H2].
    by rewrite !fmap_cons, H1, H2.
  - specialize (IH record1 next).
    destruct (combineInner _ rest _) as [[r1' rest'] next'].
    cbn [fst snd] in *. destruct IH as [H1 H2].
    by rewrite !fmap_cons, H1, H2.
Qed.

Lemma combineOuter_minterms (records1 records2 : list Table1Record)
    (next : Table1Column) :
  minterms <$> (combineOuter records1 records2 next).1.1 = minterms <$> records1
  ∧ minterms <$> (combineOuter records1 records2 next).1.2 = minterms <$> records2.
Proof.
  revert records2 next. induction records1 as [|record1 rest1 IH]; intros records2 next.
  { done. }
  cbn [combineOuter].
  pose proof (combineInner_minterms record1 records2 next) as Hin.
  destruct (combineInner record1 records2 next) as [[r1' records2'] next'].
  specialize (IH records2' next').
  destruct (combineOuter rest1 records2' next') as [[rest1' records2''] next''].
  cbn [fst snd] in *. destruct Hin as [H1 H2]. destruct IH as [H3 H4].
  by rewrite !fmap_cons, H1, H3, H4, H2.
Qed.

Lemma shape_setGroup (column : Table1Column) (i ones : nat) (rs : list Table1Record) :
  shape column !! i = Some (minterms <$> rs) →
  shape (setGroup column i {| onesCount := ones; records := rs |}) = shape column.
Proof.
  intros Hi. unfold shape, setGroup. cbn [groups].
  rewrite list_fmap_insert. by apply list_insert_id.
Qed.

Lemma combineAdjacent_shape (keys : list nat) (column next : Table1Column) :
  shape (combineAdjacent keys column next).1 = shape column.
Proof.
  revert column next. induction keys as [|key1 rest IH]; intros column next; [done |].
  destruct rest as [|key2 rest]; [done |].
  rewrite combineAdjacent_cons.
  destruct (getGroup column key1) as [[i1 currentGroup]|] eqn:Hg1; [| by apply IH].
  destruct (getGroup column key2) as [[i2 nextGroup]|] eqn:Hg2; [| by apply IH].
  apply getGroup_Some in Hg1 as [Hg1 _]. apply getGroup_Some in Hg2 as [Hg2 _].
  pose proof (combineOuter_minterms (records currentGroup) (records nextGroup) next)
    as Hout.
  destruct (combineOuter (records currentGroup) (records nextGroup) next)
    as [[records1 records2] next'].
  cbn [fst snd] in Hout. destruct Hout as [H1 H2].
  rewrite IH.
  assert (shape (setGroup column i1 {| onesCount := key1; records := records1 |})
          = shape column) as Hshape1.
  { apply shape_setGroup. unfold shape. by rewrite list_lookup_fmap, Hg1, H1. }
  rewrite shape_setGroup; [done |].
  rewrite Hshape1. unfold shape. by rewrite list_lookup_fmap, Hg2, H2.
Qed.

Lemma shape_covers (column column' : Table1Column) (t : Z) :
  shape column' = shape column →
  covers (getAllRecords column) t → covers (getAllRecords column') t.
Proof.
  intros Hshape (r & Hr & Ht).
  apply elem_of_getAllRecords in Hr as (g & Hg & Hr).
  apply list_elem_of_lookup in Hg as [i Hi].
  apply list_elem_of_lookup in Hr as [j Hj].
  assert (shape column !! i = Some (minterms <$> records g)) as Hs.
  { unfold shape. by rewrite list_lookup_fmap, Hi. }
  rewrite <- Hshape in Hs. unfold shape in Hs.
  rewrite list_lookup_fmap in Hs.
  destruct (groups column' !! i) as [g'|] eqn:Hi'; [| done].
  simpl in Hs. injection Hs as Hs.
  assert ((minterms <$> records g') !! j = Some (minterms r)) as Hj'.
  { by rewrite Hs, list_lookup_fmap, Hj. }
  rewrite list_lookup_fmap in Hj'.
  destruct (records g' !! j) as [r'|] eqn:Hr'; [| done].
  simpl in Hj'. injection Hj' as Hj'.
  exists r'. split; [| by rewrite Hj'].
  apply elem_of_getAllRecords. exists g'.
  split; by eapply list_elem_of_lookup_2.
Qed.

(** ** What the prime implicants cover *)

Lemma elem_of_combineWith_minterms (r1 r2 : Table1Record) (p t : Z) :
  t ∈ minterms (combineWith r1 r2 p) ↔ t ∈ minterms r1 ∨ t ∈ minterms r2.
Proof.
  unfold combineWith, newTable1Record, sortNumeric. cbn [minterms].
  by rewrite elem_of_js_sort, elem_of_setOf, elem_of_app.
Qed.

Lemma justified_mono (next : Table1Column) (c r : Table1Record) :
  justified next r → justified (addRecord next c) r.
Proof.
  intros [Hunused | (r' & Hr' & Hsub)]; [by left |].
  right. exists r'. split; [by apply addRecord_elem_of | done].
Qed.

Lemma justified_combine (next : Table1Column) (r1 r2 r : Table1Record) (p : Z) :
  (∀ t, t ∈ minterms r → t ∈ minterms r1 ∨ t ∈ minterms r2) →
  justified (addRecord next (combineWith r1 r2 p)) r.
Proof.
  intros Hsub. right.
  destruct (addRecord_key next (combineWith r1 r2 p)) as (r' & Hr' & Hkey).
  exists r'. split; [done |]. intros t Ht.
  unfold getKey in Hkey. rewrite Hkey. apply elem_of_combineWith_minterms. auto.
Qed.

Lemma combineColumn_justified (column : Table1Column) :
  recordsForall (λ r, isUsed r = false) column →
  columnForall (λ r, isUsed r = false) (combineColumn column).2
  ∧ recordsForall (justified (combineColumn column).2) (combineColumn column).1.
Proof.
  intros Hcol.
  apply (combineColumn_inv (columnForall (λ r, isUsed r = false)) justified).
  - apply justified_mono.
  - intros next r1 r2 Hnext _ _ _. split; [| split].
    + by apply addRecord_columnForall.
    + apply justified_combine. simpl. auto.
    + apply justified_combine. simpl. auto.
  - constructor.
  - eapply recordsForall_impl; [exact Hcol |]. intros r Hr. by left.
Qed.

Lemma isEmpty_getAllRecords (column : Table1Column) :
  isEmpty column = true → getAllRecords column = [].
Proof.
  unfold isEmpty, getAllRecords. intros H. apply bool_decide_eq_true in H.
  apply nil_length_inv in H. by rewrite H.
Qed.

Lemma primeImplicantLoop_covers (T : list Z) (fuel : nat) :
  ∀ (column : Table1Column) (acc res : list Table1Record),
    columnForall (λ r, isUsed r = false) column →
    (∀ t, t ∈ T → covers acc t ∨ covers (getAllRecords column) t) →
    primeImplicantLoop fuel column acc = Some res →
    ∀ t, t ∈ T → covers res t.
Proof.
  induction fuel as [|fuel IH]; intros column acc res Hunused Hcov; simpl;
    destruct (isEmpty column) eqn:Hempty; try done.
  1,2: intros [= <-] t Ht; destruct (Hcov t Ht) as [? | (r & Hr & _)]; [done |];
       rewrite (isEmpty_getAllRecords _ Hempty) in Hr; by apply elem_of_nil in Hr.
  pose proof (combineColumn_justified column
                (columnForall_recordsForall _ _ Hunused)) as [Hnext Hjust].
  pose proof (combineAdjacent_shape (sortedKeys column) column emptyColumn) as Hshape.
  fold (combineColumn column) in Hshape.
  destruct (combineColumn column) as [column' next]. cbn [fst snd] in *.
  apply IH; [done |]. intros t Ht.
  destruct (Hcov t Ht) as [(r & Hr & Hin) | Hcol].
  { left. exists r. split; [| done]. apply elem_of_app. by left. }
  apply (shape_covers _ column') in Hcol as (r & Hr & Hin); [| done].
  rewrite recordsForall_elem_of in Hjust.
  destruct (Hjust r Hr) as [Hfalse | (r' & Hr' & Hsub)].
  - left. exists r. split; [| done]. apply elem_of_app. right.
    by apply elem_of_getUnusedRecords.
  - right. exists r'. split; [done | by apply Hsub].
Qed.

Lemma primeImplicantLoop_Forall (P : Table1Record → Prop) :
  (∀ r, P r → P (markUsed r)) →
  (∀ r1 r2, P r1 → P r2 → P (combineWith r1 r2 (canCombineWith r1 r2))) →
  ∀ (fuel : nat) (column : Table1Column) (acc res : list Table1Record),
    columnForall P column → Forall P acc →
    primeImplicantLoop fuel column acc = Some res → Forall P res.
Proof.
  intros Hmark Hcombine.
  induction fuel as [|fuel IH]; intros column acc res Hcol Hacc; simpl;
    destruct (isEmpty column) eqn:Hempty; try done; try by intros [= <-].
  assert (columnForall P (combineColumn column).2
          ∧ recordsForall P (combineColumn column).1) as [Hnext Hcol'].
  { apply (combineColumn_inv (columnForall P) (λ _, P)).
    - auto.
    - intros next r1 r2 Hnext H1 H2 _. split; [| auto].
      apply addRecord_columnForall; auto.
    - constructor.
    - by apply columnForall_recordsForall. }
  destruct (combineColumn column) as [column' next]. cbn [fst snd] in *.
  apply IH; [done |]. apply Forall_app. split; [done |].
  apply Forall_forall. intros r Hr.
  apply elem_of_getUnusedRecords in Hr as [Hr _].
  rewrite recordsForall_elem_of in Hcol'. auto.
Qed.

Lemma foldl_addRecord_elem_of {T : Type} (f : T → Table1Record) (l : list T)
    (column : Table1Column) (r : Table1Record) :
  r ∈ getAllRecords column →
  r ∈ getAllRecords (foldl (λ column x, addRecord column (f x)) column l).
Proof.
  revert column. induction l as [|x l IH]; intros column Hr; [done |].
  simpl. apply IH. by apply addRecord_elem_of.
Qed.

Lemma foldl_addRecord_key {T : Type} (f : T → Table1Record) (l : list T)
    (column : Table1Column) (x : T) :
  x ∈ l →
  ∃ r, r ∈ getAllRecords (foldl (λ column x, addRecord column (f x)) column l)
       ∧ getKey r = getKey (f x).
Proof.
  revert column. induction l as [|y l IH]; intros column Hx.
  { by apply elem_of_nil in Hx. }
  simpl. apply elem_of_cons in Hx as [-> | Hx]; [| by apply IH].
  destruct (addRecord_key column (f y)) as (r & Hr & Hkey).
  exists r. split; [| done]. by apply foldl_addRecord_elem_of.
Qed.

Lemma findPrimeImplicants_covers (fuel : nat) (ms dontcares : list Z) (v : Z)
    (primes : list Table1Record) :
  findPrimeImplicants fuel ms dontcares v = Some primes →
  ∀ t, t ∈ ms ++ dontcares → covers primes t.
Proof.
  unfold findPrimeImplicants. intros Hfind t Ht.
  destruct (primeImplicantLoop fuel _ []) as [res|] eqn:Hloop; [| done].
  injection Hfind as <-.
  assert (covers res t) as (r & Hr & Hin).
  { eapply (primeImplicantLoop_covers (ms ++ dontcares)); [| | exact Hloop | exact Ht].
    - apply foldl_addRecord_columnForall; [constructor | done].
    - intros t' Ht'. right. apply elem_of_setOf in Ht'.
      destruct (foldl_addRecord_key (λ term, fromMinterm term v)
                  (setOf (ms ++ dontcares)) emptyColumn t' Ht') as (r & Hr & Hkey).
      exists r. split; [done |]. unfold getKey in Hkey. rewrite Hkey. simpl.
      apply list_elem_of_here. }
  apply (uniqueBy_keys getKey) in Hr.
  apply list_elem_of_fmap in Hr as (r' & Hkey & Hr').
  exists r'. split; [done |]. unfold deduplicatePrimeImplicants, getKey in *.
  by rewrite <- Hkey.
Qed.

Lemma findPrimeImplicants_subset (fuel : nat) (ms dontcares : list Z) (v : Z)
    (primes : list Table1Record) :
  findPrimeImplicants fuel ms dontcares v = Some primes →
  ∀ r t, r ∈ primes → t ∈ minterms r → t ∈ ms ++ dontcares.
Proof.
  unfold findPrimeImplicants. intros Hfind r t Hr Ht.
  destruct (primeImplicantLoop fuel _ []) as [res|] eqn:Hloop; [| done].
  injection Hfind as <-. apply elem_of_uniqueBy in Hr.
  pose proof (primeImplicantLoop_Forall
                (λ r, ∀ t, t ∈ minterms r → t ∈ ms ++ dontcares)) as HP.
  specialize (HP (λ _ H, H)).
  eapply Forall_forall in HP; [by apply HP | | | | exact Hloop | exact Hr].
  - intros r1 r2 H1 H2 t' Ht'. apply elem_of_combineWith_minterms in Ht'.
    destruct Ht'; auto.
  - apply foldl_addRecord_columnForall; [constructor |].
    intros x Hx t' Ht'. simpl in Ht'. apply list_elem_of_singleton in Ht'.
    subst. by apply elem_of_setOf.
  - constructor.
Qed.

(** ** Selection keeps the requested minterms accounted for *)

Lemma selectRow_accounted (ms : list Z) (table : Table2) (j : nat) (row : Table2Row) :
  accounted ms table → rows table !! j = Some row → accounted ms (selectRow table j).
Proof.
  intros Hacc Hj m Hm.
  rewrite (selectRow_uncovered _ _ _ Hj), (selectRow_rows _ _ _ Hj).
  set (row' := {| record := record row; coverage := coverage row; isSelected := true |}).
  assert (row' ∈ <[j := row']> (rows table)) as Hrow'.
  { eapply list_elem_of_lookup_2. apply list_lookup_insert_eq. by eapply lookup_lt_Some. }
  destruct (decide (m ∈ coverage row)) as [Hin | Hnotin].
  { right. by exists row'. }
  destruct (Hacc m Hm) as [Hunc | (r & Hr & Hsel & Hcov)].
  - left. set_solver.
  - right. apply list_elem_of_lookup in Hr as [i Hi].
    destruct (decide (i = j)) as [-> | Hne].
    { rewrite Hj in Hi. by injection Hi as <-. }
    exists r. split; [| done].
    eapply list_elem_of_lookup_2. by rewrite list_lookup_insert_ne.
Qed.

Lemma selectRow_coverable (table : Table2) (j : nat) (row : Table2Row) :
  coverable table → rows table !! j = Some row → coverable (selectRow table j).
Proof.
  intros Hcov Hj m Hm.
  rewrite (selectRow_uncovered _ _ _ Hj) in Hm.
  rewrite (selectRow_rows _ _ _ Hj).
  apply elem_of_difference in Hm as [Hm Hnotin].
  rewrite elem_of_list_to_set in Hnotin.
  destruct (Hcov m Hm) as (i & r & Hi & Hsel & Hin).
  exists i, r. split; [| done].
  rewrite list_lookup_insert_ne; [done |]. intros ->. congruence.
Qed.

Lemma newTable2_accounted (primes : list Table1Record) (ms : list Z) :
  accounted ms (newTable2 primes ms).
Proof. intros m Hm. left. simpl. by apply elem_of_list_to_set. Qed.

Lemma newTable2_coverable (primes : list Table1Record) (ms : list Z) :
  (∀ m, m ∈ ms → covers primes m) → coverable (newTable2 primes ms).
Proof.
  intros Hcov m Hm. simpl in Hm. apply elem_of_list_to_set in Hm.
  destruct (Hcov m Hm) as (r & Hr & Hin).
  apply list_elem_of_lookup in Hr as [j Hj].
  exists j, (newTable2Row r). simpl. rewrite list_lookup_fmap, Hj.
  split; [done |]. split; [done |]. by apply elem_of_setOf.
Qed.

(** With every uncovered minterm coverable, the heuristic always finds a
    candidate. *)
Lemma coverable_candidates (table : Table2) :
  coverable table → isFullyCovered table = false →
  filter (λ jr, (0 < countCoverage jr.2 (getUncoveredMinterms table))%nat)
         (getUnselectedRows table) ≠ [].
Proof.
  intros Hcov Hfull Hnil.
  unfold isFullyCovered in Hfull. apply bool_decide_eq_false in Hfull.
  destruct (set_choose_L (uncoveredMinterms table)) as [m Hm].
  { intros Hempty. apply Hfull. rewrite Hempty. apply size_empty. }
  destruct (Hcov m Hm) as (j & row & Hj & Hsel & Hin).
  assert ((j, row) ∈ filter
            (λ jr, (0 < countCoverage jr.2 (getUncoveredMinterms table))%nat)
            (getUnselectedRows table)) as Hcand.
  { apply list_elem_of_filter. split; [| by apply elem_of_filterRows].
    simpl. unfold countCoverage, getUncoveredMinterms.
    assert (m ∈ filter (λ m, m ∈ uncoveredMinterms table) (coverage row)) as Hf.
    { by apply list_elem_of_filter. }
    destruct (filter _ (coverage row)); [by apply elem_of_nil in Hf | simpl; lia]. }
  rewrite Hnil in Hcand. by apply elem_of_nil in Hcand.
Qed.

Lemma petrickLoop_fully (fuel : nat) (table table' : Table2) :
  coverable table → petrickLoop fuel table = Some table' → isFullyCovered table' = true.
Proof.
  revert table. induction fuel as [|fuel IH]; intros table Hcov; simpl;
    destruct (isFullyCovered table) eqn:Hfull; try (by intros [= <-]);
    pose proof (coverable_candidates table Hcov Hfull) as Hcand;
    (case_decide as Hlen; [by apply nil_length_inv in Hlen |]);
    destruct (js_sort _ _) as [|[j row] sorted] eqn:Hsort.
  1,3: apply (f_equal length) in Hsort; by rewrite js_sort_length in Hsort.
  - done.
  - assert ((j, row) ∈ (j, row) :: sorted) as Hin by apply list_elem_of_here.
    rewrite <- Hsort, elem_of_js_sort, list_elem_of_filter in Hin.
    destruct Hin as [_ Hin]. apply elem_of_filterRows in Hin as [Hj Hsel].
    apply IH. by eapply selectRow_coverable.
Qed.

Lemma applyPetricksMethod_fully (fuel : nat) (table table' : Table2) :
  coverable table → isFullyCovered table = false →
  applyPetricksMethod fuel table = Some table' → isFullyCovered table' = true.
Proof.
  intros Hcov Hfull. unfold applyPetricksMethod.
  pose proof (coverable_candidates table Hcov Hfull) as Hcand.
  case_decide as Hearly.
  { exfalso. destruct Hearly as [Hsize | Hlen].
    - unfold isFullyCovered in Hfull. apply bool_decide_eq_false in Hfull. done.
    - apply nil_length_inv in Hlen. unfold getUnselectedRows in *.
      rewrite Hlen in Hcand. done. }
  case_decide as Hlen; [by apply nil_length_inv in Hlen |].
  by apply petrickLoop_fully.
Qed.

Lemma selectionTable_fully (fuel : nat) (primes : list Table1Record) (ms : list Z)
    (table : Table2) :
  (∀ m, m ∈ ms → covers primes m) →
  selectionTable fuel primes ms = Some table → isFullyCovered table = true.
Proof.
  intros Hcov. unfold selectionTable.
  assert (coverable (findEssentialPrimeImplicants (newTable2 primes ms)).1) as Hess.
  { apply (findEssentialPrimeImplicants_Inv coverable).
    - intros t j row Ht Hj _. by eapply selectRow_coverable.
    - by apply newTable2_coverable. }
  destruct (isFullyCovered _) eqn:Hfull; [by intros [= <-] |].
  by apply applyPetricksMethod_fully.
Qed.

Lemma selectionTable_accounted (fuel : nat) (primes : list Table1Record) (ms : list Z)
    (table : Table2) :
  selectionTable fuel primes ms = Some table → accounted ms table.
Proof.
  apply (selectionTable_Inv (accounted ms)).
  - intros t j row Ht Hj _. by eapply selectRow_accounted.
  - apply newTable2_accounted.
Qed.

(** A fully covered table has every requested minterm in a selected row. *)
Lemma fully_covered_selected (fuel : nat) (primes : list Table1Record) (ms : list Z)
    (table : Table2) (m : Z) :
  selectionTable fuel primes ms = Some table → isFullyCovered table = true →
  m ∈ ms →
  ∃ loop, loop ∈ loopOfRecord <$> (record <$> getSelectedRows table)
          ∧ m ∈ RequiredLoop.minterms loop.
Proof.
  intros Htable Hfull Hm.
  destruct (selectionTable_accounted _ _ _ _ Htable m Hm)
    as [Hunc | (row & Hrow & Hsel & Hin)].
  { unfold isFullyCovered in Hfull. apply bool_decide_eq_true in Hfull.
    apply size_empty_inv in Hfull. set_solver. }
  exists (loopOfRecord (record row)). split.
  - do 2 apply list_elem_of_fmap_2. unfold getSelectedRows.
    by apply list_elem_of_filter.
  - rewrite (selectionTable_coverage _ _ _ _ _ Htable Hrow) in Hin.
    rewrite elem_of_setOf in Hin. unfold loopOfRecord, RequiredLoop.new, sortNumeric.
    simpl. by apply elem_of_js_sort.
Qed.

(** ** What [solve] returns *)

Lemma solve_Returned (fuel : nat) (ms dontcares : list Z) (v : Z)
    (loops : list RequiredLoop.t) :
  ms ≠ [] →
  solve fuel ms dontcares v = Some (Returned loops) →
  ∃ primes table,
    findPrimeImplicants fuel ms dontcares v = Some primes
    ∧ selectionTable fuel primes ms = Some table
    ∧ loops = loopOfRecord <$> (record <$> getSelectedRows table).
Proof.
  intros Hne. unfold solve.
  rewrite decide_False by (by destruct ms).
  destruct (list_find _ _) as [[? ?]|]; [done |].
  destruct (findPrimeImplicants fuel ms dontcares v) as [primes|] eqn:Hprimes; [| done].
  simpl. case_decide as Hlen.
  { exfalso. destruct ms as [|m ms]; [done |].
    destruct (findPrimeImplicants_covers _ _ _ _ _ Hprimes m) as (r & Hr & _).
    { set_solver. }
    apply nil_length_inv in Hlen. subst. by apply elem_of_nil in Hr. }
  unfold selectPrimeImplicants.
  destruct (selectionTable fuel primes ms) as [table|] eqn:Htable; [| done].
  simpl. intros [= <-]. by exists primes, table.
Qed.

(** Whenever the validation passes, [solve] returns loops that cover
    every requested minterm, and its table ends fully covered. *)
Lemma solve_valid_covers (fuel : nat) (ms dontcares : list Z) (v : Z) :
  ms ≠ [] →
  Forall (λ t, t ≤ maxPossibleTerm v) (ms ++ dontcares) →
  (Z.to_nat v + 1 + length ms ≤ fuel)%nat →
  ∃ loops,
    solve fuel ms dontcares v = Some (Returned loops)
    ∧ (∀ m, m ∈ ms → ∃ loop, loop ∈ loops ∧ m ∈ RequiredLoop.minterms loop)
    ∧ fullyCoveredRun fuel ms dontcares v.
Proof.
  intros Hne Hvalid Hfuel.
  destruct (solve_terminates fuel ms dontcares v Hfuel) as [[loops | msg] Hsolve].
  - exists loops. split; [done |].
    destruct (solve_Returned _ _ _ _ _ Hne Hsolve) as (primes & table & Hp & Ht & ->).
    assert (isFullyCovered table = true) as Hfull.
    { eapply selectionTable_fully; [| exact Ht].
      intros m Hm. eapply findPrimeImplicants_covers; [exact Hp | set_solver]. }
    split; [| by exists primes, table].
    intros m Hm. by eapply fully_covered_selected.
  - exfalso. apply solve_Threw in Hsolve as (_ & i & term & Hfind & _).
    apply list_find_Some in Hfind as (Hi & Hterm & _).
    rewrite Forall_forall in Hvalid.
    specialize (Hvalid term (list_elem_of_lookup_2 _ _ _ Hi)). lia.
Qed.

(** C1 as the specification states it fails with don't-cares: for
    [solve([1, 2], [0, 3], 3)] all terms are in range, the table ends
    fully covered, and the one returned loop contains the indices 0
    and 3, which were not requested. *)
Lemma solve_union_has_dontcares :
  Forall (λ t, 0 ≤ t ≤ 2 ^ 3 - 1) ([1; 2] ++ [0; 3])
  ∧ solve 6 [1; 2] [0; 3] 3
    = Some (Returned
              [RequiredLoop.mk [0; 1; 2; 3]
                 [ELogicState.False; ELogicState.DontCare; ELogicState.DontCare]])
  ∧ fullyCoveredRun 6 [1; 2] [0; 3] 3
  ∧ 0 ∉ [1; 2].
Proof.
  split; [repeat constructor; lia |]. split; [by vm_compute |].
  split; [| set_solver].
  eexists _, _. split; [by vm_compute |]. split; by vm_compute.
Qed.

(** C1 (amended): for a call of [solve] with non-empty minterms that
    returns loops and whose residual heuristic does not exhaust its
    candidates, the union of the minterms of the returned loops contains
    every requested minterm, and contains besides them only
    don't-cares; it equals the requested set when there are no
    don't-cares. *)
Theorem solve_union (fuel : nat) (ms dontcares : list Z) (v : Z) :
  (Z.to_nat v + 1 + length ms ≤ fuel)%nat →
  ms ≠ [] →
  ∃ outcome,
    solve fuel ms dontcares v = Some outcome
    ∧ ∀ loops,
        outcome = Returned loops →
        fullyCoveredRun fuel ms dontcares v →
        (∀ m, m ∈ ms → ∃ loop, loop ∈ loops ∧ m ∈ RequiredLoop.minterms loop)
        ∧ (∀ loop m, loop ∈ loops → m ∈ RequiredLoop.minterms loop →
             m ∈ ms ∨ m ∈ dontcares)
        ∧ (dontcares = [] →
           ∀ m, (∃ loop, loop ∈ loops ∧ m ∈ RequiredLoop.minterms loop) ↔ m ∈ ms).
Proof.
  intros Hfuel Hne.
  destruct (solve_terminates fuel ms dontcares v Hfuel) as [outcome Hsolve].
  exists outcome. split; [done |]. intros loops -> (primes' & table' & Hp' & Ht' & Hfull).
  destruct (solve_Returned _ _ _ _ _ Hne Hsolve) as (primes & table & Hp & Ht & ->).
  rewrite Hp in Hp'. injection Hp' as <-. rewrite Ht in Ht'. injection Ht' as <-.
  assert (∀ m, m ∈ ms →
            ∃ loop, loop ∈ loopOfRecord <$> (record <$> getSelectedRows table)
                    ∧ m ∈ RequiredLoop.minterms loop) as Hcovers.
  { intros m Hm. by eapply fully_covered_selected. }
  assert (∀ loop m, loop ∈ loopOfRecord <$> (record <$> getSelectedRows table) →
            m ∈ RequiredLoop.minterms loop → m ∈ ms ∨ m ∈ dontcares) as Hsub.
  { intros loop m Hloop Hm.
    apply list_elem_of_fmap in Hloop as (r & -> & Hr).
    apply list_elem_of_fmap in Hr as (row & -> & Hrow).
    apply list_elem_of_filter in Hrow as [_ Hrow].
    apply elem_of_app. eapply (findPrimeImplicants_subset _ _ _ _ _ Hp (record row)).
    - rewrite <- (selectionTable_records _ _ _ _ Ht). by apply list_elem_of_fmap_2.
    - unfold loopOfRecord, RequiredLoop.new, sortNumeric in Hm. simpl in Hm.
      by rewrite elem_of_js_sort in Hm. }
  split; [done |]. split; [done |].
  intros -> m. split; [| by apply Hcovers].
  intros (loop & Hloop & Hm). destruct (Hsub loop m Hloop Hm) as [? | Hnil]; [done |].
  by apply elem_of_nil in Hnil.
Qed.

Lemma solve_union_witness :
  solve 6 [1; 2] [0; 3] 3
  = Some (Returned
            [RequiredLoop.mk [0; 1; 2; 3]
               [ELogicState.False; ELogicState.DontCare; ELogicState.DontCare]])
  ∧ (∀ m, m ∈ [1; 2] →
       ∃ loop,
         loop ∈ [RequiredLoop.mk [0; 1; 2; 3]
                   [ELogicState.False; ELogicState.DontCare; ELogicState.DontCare]]
         ∧ m ∈ RequiredLoop.minterms loop)
  ∧ (∀ loop m,
       loop ∈ [RequiredLoop.mk [0; 1; 2; 3]
                 [ELogicState.False; ELogicState.DontCare; ELogicState.DontCare]] →
       m ∈ RequiredLoop.minterms loop → m ∈ [1; 2] ∨ m ∈ [0; 3]).
Proof.
  destruct (solve_union 6 [1; 2] [0; 3] 3) as (outcome & Hsolve & Hloops);
    [simpl; lia | done |].
  split; [by vm_compute |].
  destruct (Hloops [RequiredLoop.mk [0; 1; 2; 3]
                      [ELogicState.False; ELogicState.DontCare; ELogicState.DontCare]])
    as (Hall & Honly & _).
  - vm_compute in Hsolve. congruence.
  - eexists _, _. split; [by vm_compute |]. split; by vm_compute.
  - by split.
Defined.

(** ** The residual heuristic never runs out of candidates *)




(** ** Essential-implicant selection *)

Lemma essentialStep_spec (table : Table2) (essential : list nat) (i : nat)
    (column : Table2Column) :
  columns table !! i = Some column →
  (isCovered column = true ∧ essentialStep (table, essential) i = (table, essential))
  ∨ (isCovered column = false
     ∧ length (unselectedCoverers table (minterm column)) ≠ 1%nat
     ∧ essentialStep (table, essential) i = (table, essential))
  ∨ (isCovered column = false
     ∧ ∃ j row, unselectedCoverers table (minterm column) = [(j, row)]
                ∧ rows table !! j = Some row
                ∧ isSelected row = false
                ∧ coversMinterm row (minterm column) = true
                ∧ essentialStep (table, essential) i
                  = (selectRow table j, essential ++ [j])).
Proof.
  intros Hi. unfold essentialStep, unselectedCoverers. rewrite Hi.
  destruct (isCovered column) eqn:Hcov; [by left |]. right.
  destruct (filterRows _ table) as [|[j row] [|? ?]] eqn:Hrows;
    [by left | | by left].
  assert ((j, row) ∈ filterRows (λ row, isSelected row = false
            ∧ coversMinterm row (minterm column) = true) table) as Hin.
  { rewrite Hrows. apply list_elem_of_here. }
  apply elem_of_filterRows in Hin as (Hj & Hsel & Hcovers).
  right. split; [done |]. exists j, row. rewrite Hsel.
  repeat split; try done. unfold selectRow. by rewrite Hj.
Qed.

Lemma markMinterm_columns (table : Table2) (m : Z) :
  NoDup (minterm <$> columns table) →
  minterm <$> columns (markMinterm table m) = minterm <$> columns table
  ∧ ∀ i c', columns (markMinterm table m) !! i = Some c' →
      ∃ c, columns table !! i = Some c
           ∧ minterm c' = minterm c
           ∧ (isCovered c' = false → isCovered c = false ∧ minterm c ≠ m).
Proof.
  intros Hnd. unfold markMinterm. cbn [columns].
  destruct (list_find _ (columns table)) as [[i0 c0]|] eqn:Hfind.
  - apply list_find_Some in Hfind as (Hi0 & Hm & _). split.
    + rewrite list_fmap_insert. apply list_insert_id.
      by rewrite list_lookup_fmap, Hi0.
    + intros i c' Hi. destruct (decide (i = i0)) as [-> | Hne].
      * rewrite list_lookup_insert_eq in Hi by (by eapply lookup_lt_Some).
        injection Hi as <-. exists c0. by repeat split.
      * rewrite list_lookup_insert_ne in Hi by done.
        exists c'. repeat split; try done.
        intros Heq. apply Hne.
        eapply (NoDup_lookup (minterm <$> columns table)); [done | |].
        -- rewrite list_lookup_fmap, Hi. done.
        -- rewrite list_lookup_fmap, Hi0. simpl. congruence.
  - split; [done |]. intros i c' Hi. exists c'. repeat split; try done.
    apply list_find_None in Hfind. rewrite Forall_forall in Hfind.
    apply Hfind. by eapply list_elem_of_lookup_2.
Qed.

Lemma markCovered_columns (table : Table2) (row : Table2Row) :
  NoDup (minterm <$> columns table) →
  minterm <$> columns (markCovered table row) = minterm <$> columns table
  ∧ ∀ i c', columns (markCovered table row) !! i = Some c' →
      ∃ c, columns table !! i = Some c
           ∧ minterm c' = minterm c
           ∧ (isCovered c' = false → isCovered c = false ∧ minterm c ∉ coverage row).
Proof.
  unfold markCovered, getCoveredMinterms. generalize (coverage row). intros l.
  revert table. induction l as [|m l IH]; intros table Hnd.
  { split; [done |]. intros i c' Hi. exists c'. repeat split; try done.
    apply not_elem_of_nil. }
  cbn [foldl].
  destruct (markMinterm_columns table m Hnd) as [Hsame Hstep].
  destruct (IH (markMinterm table m)) as [Hsame' Hrest]; [by rewrite Hsame |].
  split; [by rewrite Hsame' |].
  intros i c' Hi.
  destruct (Hrest i c' Hi) as (c1 & Hi1 & Hm1 & Hcov1).
  destruct (Hstep i c1 Hi1) as (c & Hic & Hm & Hcov).
  exists c. split; [done |]. split; [congruence |].
  intros Hfalse. destruct (Hcov1 Hfalse) as [Hc1 Hnotin].
  destruct (Hcov Hc1) as [Hc Hne]. split; [done |].
  rewrite not_elem_of_cons. split; [done |]. by rewrite <- Hm.
Qed.

Lemma selectRow_columns (table : Table2) (j : nat) (row : Table2Row) :
  NoDup (minterm <$> columns table) →
  rows table !! j = Some row →
  minterm <$> columns (selectRow table j) = minterm <$> columns table
  ∧ ∀ i c', columns (selectRow table j) !! i = Some c' →
      ∃ c, columns table !! i = Some c
           ∧ minterm c' = minterm c
           ∧ (isCovered c' = false → isCovered c = false ∧ minterm c ∉ coverage row).
Proof.
  intros Hnd Hj. unfold selectRow. rewrite Hj.
  by apply (markCovered_columns (setSelected table j) row).
Qed.

Lemma filter_insert_irrelevant {A : Type} (Q : A → Prop) `{∀ x, Decision (Q x)}
    (l : list A) (j : nat) (x y : A) :
  l !! j = Some x → ¬ Q x → ¬ Q y → filter Q (<[j := y]> l) = filter Q l.
Proof.
  intros Hj Hx Hy.
  rewrite insert_take_drop by (by eapply lookup_lt_Some).
  rewrite <- (take_drop_middle l j x Hj) at 3.
  rewrite !filter_app. f_equal.
  by rewrite !filter_cons_False.
Qed.

Lemma imap_pair_insert {A : Type} (l : list A) (j : nat) (y : A) :
  imap pair (<[j := y]> l) = <[j := (j, y)]> (imap pair l).
Proof.
  apply list_eq. intros i. rewrite list_lookup_imap.
  destruct (decide (i = j)) as [-> | Hne].
  - destruct (decide (j < length l)%nat) as [Hlt | Hge].
    + rewrite !list_lookup_insert_eq by (by rewrite ?length_imap). done.
    + rewrite !list_insert_ge by (rewrite ?length_imap; lia).
      by rewrite list_lookup_imap.
  - rewrite !list_lookup_insert_ne by done. by rewrite list_lookup_imap.
Qed.

(** Selecting a row that does not cover [m] leaves the unselected
    coverers of [m] as they are. *)
Lemma selectRow_unselectedCoverers (table : Table2) (j : nat) (row : Table2Row) (m : Z) :
  rows table !! j = Some row → m ∉ coverage row →
  unselectedCoverers (selectRow table j) m = unselectedCoverers table m.
Proof.
  intros Hj Hnotin. unfold unselectedCoverers, filterRows.
  rewrite (selectRow_rows _ _ _ Hj), imap_pair_insert.
  apply (filter_insert_irrelevant _ _ _ (j, row)).
  - by rewrite list_lookup_imap, Hj.
  - simpl. unfold coversMinterm. intros [_ Hc].
    by apply bool_decide_eq_true in Hc.
  - simpl. by intros [? _].
Qed.

Lemma essentialPrefix_S (table : Table2) (k : nat) :
  essentialPrefix table (S k) = essentialStep (essentialPrefix table k) k.
Proof. unfold essentialPrefix. by rewrite seq_S, foldl_app. Qed.

Lemma essentialPrefix_settled (table : Table2) (k : nat) :
  NoDup (minterm <$> columns table) →
  minterm <$> columns (essentialPrefix table k).1 = minterm <$> columns table
  ∧ settled k (essentialPrefix table k).1.
Proof.
  intros Hnd. induction k as [|k [Hcols IH]].
  { split; [done |]. intros i column Hi. lia. }
  rewrite essentialPrefix_S.
  destruct (essentialPrefix table k) as [t essential]. cbn [fst] in *.
  destruct (columns t !! k) as [columnk|] eqn:Hk.
  2:{ unfold essentialStep. rewrite Hk. split; [done |].
      intros i column Hi Hlook. apply lookup_ge_None in Hk.
      pose proof (lookup_lt_Some _ _ _ Hlook) as Hlt. cbn [fst] in *.
      apply (IH i column); [lia | done]. }
  destruct (essentialStep_spec t essential k columnk Hk)
    as [[Hcov ->] | [(Hcov & Hlen & ->) | (Hcov & j & row & Hrows & Hj & Hsel & Hc & ->)]];
    cbn [fst].
  - split; [done |]. intros i column Hi Hlook Hfalse.
    destruct (decide (i = k)) as [-> | Hne]; [congruence |].
    apply (IH i column); [lia | done | done].
  - split; [done |]. intros i column Hi Hlook Hfalse.
    destruct (decide (i = k)) as [-> | Hne]; [congruence |].
    apply (IH i column); [lia | done | done].
  - destruct (selectRow_columns t j row) as [Hsame Hcolumns];
      [by rewrite Hcols | done |].
    split; [by rewrite Hsame |].
    intros i column' Hi Hlook Hfalse.
    destruct (Hcolumns i column' Hlook) as (column & Hlook0 & Hm & Hback).
    destruct (Hback Hfalse) as [Hfalse0 Hnotin].
    rewrite Hm, (selectRow_unselectedCoverers _ _ _ _ Hj Hnotin).
    destruct (decide (i = k)) as [-> | Hne].
    + exfalso. rewrite Hk in Hlook0. injection Hlook0 as <-.
      apply Hnotin. unfold coversMinterm in Hc. by apply bool_decide_eq_true in Hc.
    + apply (IH i column); [lia | done | done].
Qed.

Lemma settled_pass_identity (table : Table2) (l : list nat) (essential : list nat) :
  (∀ column, column ∈ columns table → isCovered column = false →
             length (unselectedCoverers table (minterm column)) ≠ 1%nat) →
  foldl essentialStep (table, essential) l = (table, essential).
Proof.
  intros Hfix. induction l as [|i l IH]; [done |]. cbn [foldl].
  assert (essentialStep (table, essential) i = (table, essential)) as ->; [| done].
  destruct (columns table !! i) as [column|] eqn:Hi.
  2:{ unfold essentialStep. by rewrite Hi. }
  destruct (essentialStep_spec table essential i column Hi)
    as [[_ ->] | [(_ & _ & ->) | (Hcov & j & row & Hrows & _)]]; try done.
  exfalso. apply (Hfix column); [by eapply list_elem_of_lookup_2 | done |].
  by rewrite Hrows.
Qed.

Lemma markMinterm_flags (table : Table2) (m : Z) :
  NoDup (minterm <$> columns table) →
  ∀ i c', columns (markMinterm table m) !! i = Some c' →
    ∃ c, columns table !! i = Some c
         ∧ minterm c' = minterm c
         ∧ isCovered c' = isCovered c || bool_decide (minterm c = m).
Proof.
  intros Hnd i c' Hi. unfold markMinterm in Hi. cbn [columns] in Hi.
  destruct (list_find _ (columns table)) as [[i0 c0]|] eqn:Hfind.
  - apply list_find_Some in Hfind as (Hi0 & Hm & _).
    destruct (decide (i = i0)) as [-> | Hne].
    + rewrite list_lookup_insert_eq in Hi by (by eapply lookup_lt_Some).
      injection Hi as <-. exists c0. split; [done |]. split; [done |]. simpl.
      rewrite bool_decide_eq_true_2 by done. by rewrite orb_true_r.
    + rewrite list_lookup_insert_ne in Hi by done.
      exists c'. split; [done |]. split; [done |].
      rewrite bool_decide_eq_false_2; [by rewrite orb_false_r |].
      intros Heq. apply Hne.
      eapply (NoDup_lookup (minterm <$> columns table)); [done | |].
      * rewrite list_lookup_fmap, Hi. done.
      * rewrite list_lookup_fmap, Hi0. simpl. congruence.
  - exists c'. split; [done |]. split; [done |].
    rewrite bool_decide_eq_false_2; [by rewrite orb_false_r |].
    apply list_find_None in Hfind. rewrite Forall_forall in Hfind.
    apply Hfind. by eapply list_elem_of_lookup_2.
Qed.

Lemma markCovered_flags (table : Table2) (row : Table2Row) :
  NoDup (minterm <$> columns table) →
  ∀ i c', columns (markCovered table row) !! i = Some c' →
    ∃ c, columns table !! i = Some c
         ∧ minterm c' = minterm c
         ∧ isCovered c' = isCovered c || bool_decide (minterm c ∈ coverage row).
Proof.
  unfold markCovered, getCoveredMinterms. generalize (coverage row). intros l.
  revert table. induction l as [|m l IH]; intros table Hnd i c' Hi.
  { exists c'. split; [done |]. split; [done |].
    rewrite bool_decide_eq_false_2 by apply not_elem_of_nil. by rewrite orb_false_r. }
  cbn [foldl] in Hi.
  destruct (markMinterm_columns table m Hnd) as [Hsame _].
  destruct (IH (markMinterm table m) ltac:(by rewrite Hsame) i c' Hi)
    as (c1 & Hi1 & Hm1 & Hcov1).
  destruct (markMinterm_flags table m Hnd i c1 Hi1) as (c & Hic & Hm & Hcov).
  exists c. split; [done |]. split; [congruence |].
  rewrite Hcov1, Hcov, Hm, <- orb_assoc. f_equal.
  destruct (decide (minterm c = m)) as [Heq | Hne].
  - rewrite (bool_decide_eq_true_2 (minterm c = m)) by done.
    rewrite (bool_decide_eq_true_2 (minterm c ∈ m :: l)); [done |].
    rewrite Heq. apply list_elem_of_here.
  - rewrite (bool_decide_eq_false_2 (minterm c = m)) by done. simpl.
    apply bool_decide_ext. rewrite elem_of_cons. naive_solver.
Qed.

Lemma selectRow_flags (table : Table2) (j : nat) (row : Table2Row) :
  NoDup (minterm <$> columns table) →
  rows table !! j = Some row →
  ∀ i c', columns (selectRow table j) !! i = Some c' →
    ∃ c, columns table !! i = Some c
         ∧ minterm c' = minterm c
         ∧ isCovered c' = isCovered c || coversMinterm row (minterm c).
Proof.
  intros Hnd Hj. unfold selectRow. rewrite Hj.
  by apply (markCovered_flags (setSelected table j) row).
Qed.

Lemma selectRow_flagsFollowSelection (table : Table2) (j : nat) (row : Table2Row) :
  NoDup (minterm <$> columns table) →
  rows table !! j = Some row →
  flagsFollowSelection table → flagsFollowSelection (selectRow table j).
Proof.
  intros Hnd Hj Hflags column' Hcolumn'.
  apply list_elem_of_lookup in Hcolumn' as [i Hi].
  destruct (selectRow_flags table j row Hnd Hj i column' Hi) as (column & Hic & Hm & Hcov).
  rewrite Hcov, Hm, orb_true_iff, (selectRow_rows _ _ _ Hj).
  rewrite (Hflags column) by (by eapply list_elem_of_lookup_2).
  set (row' := {| record := record row; coverage := coverage row; isSelected := true |}).
  split.
  - intros [(j0 & row0 & Hj0 & Hsel0 & Hc0) | Hc].
    + destruct (decide (j0 = j)) as [-> | Hne].
      * exists j, row'. rewrite list_lookup_insert_eq by (by eapply lookup_lt_Some).
        split; [done |]. split; [done |]. rewrite Hj in Hj0. by injection Hj0 as ->.
      * exists j0, row0. by rewrite list_lookup_insert_ne.
    + exists j, row'. rewrite list_lookup_insert_eq by (by eapply lookup_lt_Some). done.
  - intros (j0 & row0 & Hj0 & Hsel0 & Hc0).
    destruct (decide (j0 = j)) as [-> | Hne].
    + rewrite list_lookup_insert_eq in Hj0 by (by eapply lookup_lt_Some).
      injection Hj0 as <-. by right.
    + rewrite list_lookup_insert_ne in Hj0 by done. left. by exists j0, row0.
Qed.

Lemma selectRow_selectedAre (table : Table2) (essential : list nat) (j : nat)
    (row : Table2Row) :
  rows table !! j = Some row →
  selectedAre table essential → selectedAre (selectRow table j) (essential ++ [j]).
Proof.
  intros Hj Hsel j0 row0. rewrite (selectRow_rows _ _ _ Hj), elem_of_app,
    list_elem_of_singleton.
  destruct (decide (j0 = j)) as [-> | Hne].
  - rewrite list_lookup_insert_eq by (by eapply lookup_lt_Some).
    intros [= <-]. simpl. naive_solver.
  - rewrite list_lookup_insert_ne by done. intros Hj0.
    rewrite (Hsel j0 row0 Hj0). naive_solver.
Qed.

Lemma essentialPrefix_tracks (table : Table2) (k : nat) :
  NoDup (minterm <$> columns table) →
  flagsFollowSelection table → selectedAre table [] →
  minterm <$> columns (essentialPrefix table k).1 = minterm <$> columns table
  ∧ flagsFollowSelection (essentialPrefix table k).1
  ∧ selectedAre (essentialPrefix table k).1 (essentialPrefix table k).2.
Proof.
  intros Hnd Hflags Hsel. induction k as [|k (Hcols & IHflags & IHsel)]; [done |].
  rewrite essentialPrefix_S.
  destruct (essentialPrefix table k) as [t essential]. cbn [fst snd] in *.
  destruct (essentialStep_cases t essential k)
    as [-> | (column & j & row & Hk & Hcov & Hrows & Hj & Hrsel & ->)]; [done |].
  cbn [fst snd].
  destruct (selectRow_columns t j row) as [Hsame _]; [by rewrite Hcols | done |].
  split; [by rewrite Hsame |]. split.
  - apply (selectRow_flagsFollowSelection t j row); [by rewrite Hcols | done | done].
  - by apply (selectRow_selectedAre t essential j row).
Qed.

Lemma unique_filterRows (P : Table2Row → Prop) `{∀ row, Decision (P row)}
    (table : Table2) (j : nat) (row : Table2Row) :
  rows table !! j = Some row → P row →
  (∀ j' row', rows table !! j' = Some row' → P row' → j' = j) →
  filterRows P table = [(j, row)].
Proof.
  intros Hj HP Hunique.
  assert (NoDup (filterRows P table)) as Hnd.
  { apply NoDup_filter. apply NoDup_alt. intros i1 i2 [j1 r1] H1 H2.
    rewrite list_lookup_imap in H1, H2.
    destruct (rows table !! i1) eqn:E1; [| done].
    destruct (rows table !! i2) eqn:E2; [| done].
    simpl in *. congruence. }
  assert ((j, row) ∈ filterRows P table) as Hin by (by apply elem_of_filterRows).
  assert (∀ x, x ∈ filterRows P table → x = (j, row)) as Hall.
  { intros [j' row'] Hx. apply elem_of_filterRows in Hx as [Hj' HP'].
    assert (j' = j) as -> by (by eapply Hunique). congruence. }
  destruct (filterRows P table) as [|x [|y l]].
  - by apply elem_of_nil in Hin.
  - f_equal. apply Hall. apply list_elem_of_here.
  - exfalso. apply NoDup_cons in Hnd as [Hnotin _]. apply Hnotin.
    rewrite (Hall x), (Hall y); [apply list_elem_of_here | |].
    + apply list_elem_of_further, list_elem_of_here.
    + apply list_elem_of_here.
Qed.

(** A column that is not flagged and has one unselected covering row
    makes the loop body select that row. *)
Lemma essentialStep_selects (table : Table2) (essential : list nat) (i j : nat)
    (column : Table2Column) :
  columns table !! i = Some column → isCovered column = false →
  uniqueUnselectedCoverer table (minterm column) j →
  essentialStep (table, essential) i = (selectRow table j, essential ++ [j]).
Proof.
  intros Hi Hcov (row & Hj & Hsel & Hc & Hunique).
  assert (unselectedCoverers table (minterm column) = [(j, row)]) as Hrows.
  { apply unique_filterRows; [done | done |]. intros j' row' Hj' [Hsel' Hc'].
    by eapply Hunique. }
  destruct (essentialStep_spec table essential i column Hi)
    as [[Hcov' _] | [(_ & Hlen & _) | (_ & j0 & row0 & Hrows0 & _ & _ & _ & ->)]].
  - congruence.
  - by rewrite Hrows in Hlen.
  - rewrite Hrows in Hrows0. by injection Hrows0 as -> ->.
Qed.

(** C6: on the table built for duplicate-free minterms, (1) whenever an
    iteration of the essential-implicant loop turns a row from
    unselected to selected, that row is, in the table as it is at that
    moment, the one unselected row covering the column of the iteration,
    and that column is not yet flagged as covered; (2) conversely, when
    the column of the iteration is not flagged and has one unselected
    covering row, the iteration selects that row, leaving its record and
    coverage alone, and pushes it on the list returned; (3) after every
    iteration a column is flagged exactly when a selected row covers its
    minterm, and the selected rows are those pushed so far; (4) when the
    single pass over the columns is over, no unflagged column has
    exactly one unselected covering row, so that a further pass selects
    nothing and leaves the table as it is: the single pass ends where
    repeating the pass until nothing changes would end. *)
Theorem essential_selection (primes : list Table1Record) (ms : list Z) :
  NoDup ms →
  (∀ k j row row',
     rows (essentialPrefix (newTable2 primes ms) k).1 !! j = Some row →
     isSelected row = false →
     rows (essentialStep (essentialPrefix (newTable2 primes ms) k) k).1 !! j
     = Some row' →
     isSelected row' = true →
     ∃ column,
       columns (essentialPrefix (newTable2 primes ms) k).1 !! k = Some column
       ∧ isCovered column = false
       ∧ uniqueUnselectedCoverer (essentialPrefix (newTable2 primes ms) k).1
                                 (minterm column) j)
  ∧ (∀ k j column,
       columns (essentialPrefix (newTable2 primes ms) k).1 !! k = Some column →
       isCovered column = false →
       uniqueUnselectedCoverer (essentialPrefix (newTable2 primes ms) k).1
                               (minterm column) j →
       ∃ row row',
         rows (essentialPrefix (newTable2 primes ms) k).1 !! j = Some row
         ∧ rows (essentialStep (essentialPrefix (newTable2 primes ms) k) k).1 !! j
           = Some row'
         ∧ isSelected row' = true
         ∧ rowData row' = rowData row
         ∧ (essentialStep (essentialPrefix (newTable2 primes ms) k) k).2
           = (essentialPrefix (newTable2 primes ms) k).2 ++ [j])
  ∧ (∀ k,
       flagsFollowSelection (essentialPrefix (newTable2 primes ms) k).1
       ∧ selectedAre (essentialPrefix (newTable2 primes ms) k).1
                     (essentialPrefix (newTable2 primes ms) k).2)
  ∧ essentialPrefix (newTable2 primes ms) (length ms)
    = findEssentialPrimeImplicants (newTable2 primes ms)
  ∧ (∀ column,
       column ∈ columns (findEssentialPrimeImplicants (newTable2 primes ms)).1 →
       isCovered column = false →
       length (unselectedCoverers
                 (findEssentialPrimeImplicants (newTable2 primes ms)).1
                 (minterm column)) ≠ 1%nat)
  ∧ findEssentialPrimeImplicants
      (findEssentialPrimeImplicants (newTable2 primes ms)).1
    = ((findEssentialPrimeImplicants (newTable2 primes ms)).1, []).
Proof.
  intros Hnd.
  assert (NoDup (minterm <$> columns (newTable2 primes ms))) as Hcolumns.
  { simpl. rewrite <- list_fmap_compose. by rewrite list_fmap_id. }
  assert (essentialPrefix (newTable2 primes ms) (length ms)
          = findEssentialPrimeImplicants (newTable2 primes ms)) as Hrun.
  { unfold essentialPrefix, findEssentialPrimeImplicants. simpl.
    by rewrite length_fmap. }
  assert (∀ column,
            column ∈ columns (findEssentialPrimeImplicants (newTable2 primes ms)).1 →
            isCovered column = false →
            length (unselectedCoverers
                      (findEssentialPrimeImplicants (newTable2 primes ms)).1
                      (minterm column)) ≠ 1%nat) as Hfix.
  { rewrite <- Hrun. intros column Hcolumn Hcov.
    destruct (essentialPrefix_settled (newTable2 primes ms) (length ms) Hcolumns)
      as [Hcols Hsettled].
    apply list_elem_of_lookup in Hcolumn as [i Hi].
    apply (Hsettled i column); [| done | done].
    apply lookup_lt_Some in Hi.
    apply (f_equal length) in Hcols. rewrite !length_fmap in Hcols.
    simpl in Hcols. rewrite length_fmap in Hcols. lia. }
  split; [| split; [| split; [| split; [done | split; [done |]]]]].
  4:{ unfold findEssentialPrimeImplicants at 1. by apply settled_pass_identity. }
  - intros k j row row'.
    destruct (essentialPrefix (newTable2 primes ms) k) as [t essential]. cbn [fst].
    intros Hj Hsel Hj' Hsel'.
    destruct (columns t !! k) as [column|] eqn:Hk.
    2:{ unfold essentialStep in Hj'. rewrite Hk in Hj'. cbn [fst] in Hj'. congruence. }
    exists column. split; [done |].
    destruct (essentialStep_spec t essential k column Hk)
      as [[Hcov Hstep] | [(Hcov & Hlen & Hstep)
                         | (Hcov & j0 & row0 & Hrows & Hj0 & Hsel0 & Hc & Hstep)]];
      rewrite Hstep in Hj'; cbn [fst] in Hj'; try congruence.
    split; [done |].
    rewrite (selectRow_rows _ _ _ Hj0) in Hj'.
    destruct (decide (j = j0)) as [-> | Hne].
    2:{ rewrite list_lookup_insert_ne in Hj' by done. congruence. }
    exists row0. repeat split; try done.
    intros j1 row1 Hj1 Hsel1 Hc1.
    assert ((j1, row1) ∈ unselectedCoverers t (minterm column)) as Hin.
    { by apply elem_of_filterRows. }
    rewrite Hrows in Hin. apply list_elem_of_singleton in Hin. congruence.
  - intros k j column.
    destruct (essentialPrefix (newTable2 primes ms) k) as [t essential]. cbn [fst snd].
    intros Hk Hcov Hunique.
    rewrite (essentialStep_selects t essential k j column Hk Hcov Hunique).
    destruct Hunique as (row & Hj & _). cbn [fst snd].
    exists row, {| record := record row; coverage := coverage row; isSelected := true |}.
    split; [done |]. rewrite (selectRow_rows _ _ _ Hj).
    rewrite list_lookup_insert_eq by (by eapply lookup_lt_Some). done.
  - intros k.
    destruct (essentialPrefix_tracks (newTable2 primes ms) k Hcolumns)
      as (_ & Hflags & Hsel); [| | done].
    + intros column Hcolumn. simpl in Hcolumn.
      apply list_elem_of_fmap in Hcolumn as (m & -> & _). simpl. split; [done |].
      intros (j & row & Hj & Hsel & _). simpl in Hj.
      rewrite list_lookup_fmap in Hj. destruct (primes !! j); [| done].
      simpl in Hj. injection Hj as <-. done.
    + intros j row Hj. simpl in Hj.
      rewrite list_lookup_fmap in Hj. destruct (primes !! j); [| done].
      simpl in Hj. injection Hj as <-. simpl. split; [done |].
      intros Hin. by apply elem_of_nil in Hin.
Qed.

Lemma essential_selection_witness :
  flagsFollowSelection
    (findEssentialPrimeImplicants
       (newTable2 [fromMinterm 6 3;
                   combineWith (fromMinterm 0 3) (fromMinterm 1 3) 2]
                  [0; 1; 6])).1
  ∧ selectedAre
      (findEssentialPrimeImplicants
         (newTable2 [fromMinterm 6 3;
                     combineWith (fromMinterm 0 3) (fromMinterm 1 3) 2]
                    [0; 1; 6])).1
      (findEssentialPrimeImplicants
         (newTable2 [fromMinterm 6 3;
                     combineWith (fromMinterm 0 3) (fromMinterm 1 3) 2]
                    [0; 1; 6])).2
  ∧ findEssentialPrimeImplicants
      (findEssentialPrimeImplicants
         (newTable2 [fromMinterm 6 3;
                     combineWith (fromMinterm 0 3) (fromMinterm 1 3) 2]
                    [0; 1; 6])).1
    = ((findEssentialPrimeImplicants
          (newTable2 [fromMinterm 6 3;
                      combineWith (fromMinterm 0 3) (fromMinterm 1 3) 2]
                     [0; 1; 6])).1, []).
Proof.
  destruct (essential_selection
              [fromMinterm 6 3; combineWith (fromMinterm 0 3) (fromMinterm 1 3) 2]
              [0; 1; 6])
    as (_ & _ & Htracks & Hrun & _ & Hagain); [compute_done |].
  rewrite <- Hrun. destruct (Htracks (length [0; 1; 6])) as [Hflags Hsel].
  rewrite <- Hrun in Hagain. done.
Defined.

(** * Further properties of the code *)

(** ** [canCombineWith], completely *)

Lemma canCombineScan_spec (bs1 bs2 : list ELogicState.t) (k : nat) (p : Z) (c : nat)
    (q : nat) :
  length bs1 = length bs2 →
  (c = 0%nat ∧ p = -1) ∨ (c = 1%nat ∧ 0 ≤ p) →
  canCombineScan (Z.of_nat k) bs1 bs2 p c = Z.of_nat q
  ↔ (c = 1%nat ∧ p = Z.of_nat q ∧ bs1 = bs2)
    ∨ (c = 0%nat
       ∧ ∃ j b1 b2,
           q = (k + j)%nat ∧ bs1 !! j = Some b1 ∧ bs2 !! j = Some b2
           ∧ b1 ≠ b2 ∧ b1 ≠ ELogicState.DontCare ∧ b2 ≠ ELogicState.DontCare
           ∧ ∀ i, i ≠ j → bs1 !! i = bs2 !! i).
Proof.
  revert bs2 k p c.
  induction bs1 as [|b1 r1 IH]; intros [|b2 r2] k p c Hlen Hstate; try done.
  { simpl. split.
    - intros Hp. destruct Hstate as [[-> ->] | [-> Hp0]]; [lia |]. by left.
    - intros [(_ & -> & _) | (_ & j & ? & ? & _ & Hj & _)]; [done | done]. }
  simpl in Hlen. injection Hlen as Hlen. cbn [canCombineScan].
  replace (Z.of_nat k + 1) with (Z.of_nat (S k)) by lia.
  destruct (decide (b1 ≠ b2)) as [Hne | Heq].
  - destruct (decide (b1 = ELogicState.DontCare ∨ b2 = ELogicState.DontCare))
      as [Hdc | Hndc].
    { split; [lia |].
      intros [(_ & _ & [= ? ?]) | (_ & j & x1 & x2 & _ & Hj1 & Hj2 & Hx & Hx1 & Hx2 & Hrest)];
        [done |].
      destruct j as [|j]; [simpl in *; naive_solver |].
      specialize (Hrest 0%nat ltac:(lia)). simpl in Hrest. congruence. }
    destruct (decide (1 < S c)%nat) as [Hc | Hc].
    { split; [lia |].
      intros [(_ & _ & [= ? ?]) | (-> & _)]; [done | lia]. }
    assert (c = 0%nat) as -> by lia.
    rewrite (IH r2 (S k) (Z.of_nat k) 1%nat Hlen) by (right; lia).
    split.
    + intros [(_ & Hq & ->) | (? & _)]; [| done].
      right. split; [done |]. exists 0%nat, b1, b2.
      repeat split; try done; try lia; try (intros ->; apply Hndc; by auto).
      intros [|i] Hi; [done | done].
    + intros [(? & _) | (_ & j & x1 & x2 & -> & Hj1 & Hj2 & Hx & Hx1 & Hx2 & Hrest)];
        [done |].
      left. destruct j as [|j].
      * split; [done |]. split; [lia |].
        apply list_eq. intros i. apply (Hrest (S i)). done.
      * specialize (Hrest 0%nat ltac:(lia)). simpl in Hrest. congruence.
  - apply dec_stable in Heq. subst b2.
    rewrite (IH r2 (S k) p c Hlen Hstate). split.
    + intros [(-> & -> & ->) | (-> & j & x1 & x2 & -> & Hj1 & Hj2 & Hx & Hx1 & Hx2 & Hrest)].
      * by left.
      * right. split; [done |]. exists (S j), x1, x2.
        repeat split; try done; try lia.
        intros [|i] Hi; [done |]. simpl. apply Hrest. lia.
    + intros [(-> & -> & [= ->]) | (-> & j & x1 & x2 & -> & Hj1 & Hj2 & Hx & Hx1 & Hx2 & Hrest)].
      * by left.
      * right. split; [done |]. destruct j as [|j]; [simpl in *; naive_solver |].
        exists j, x1, x2. repeat split; try done; try lia.
        intros i Hi. apply (Hrest (S i)). lia.
Qed.

Lemma canCombineWith_differOnlyAt (a b : Table1Record) (p : nat) :
  canCombineWith a b = Z.of_nat p ↔ differOnlyAt (bits a) (bits b) p.
Proof.
  unfold canCombineWith, differOnlyAt.
  destruct (decide (length (bits a) ≠ length (bits b))) as [Hne | Heq].
  { split; [lia | naive_solver]. }
  apply dec_stable in Heq.
  rewrite (canCombineScan_spec (bits a) (bits b) 0 (-1) 0 p Heq) by (left; done).
  split.
  - intros [(? & _) | (_ & j & b1 & b2 & -> & H)]; [done |]. split; [done |].
    exists b1, b2. simpl. naive_solver.
  - intros (_ & b1 & b2 & H). right. split; [done |]. exists p, b1, b2.
    naive_solver.
Qed.

(** [canCombineWith] returns the position [p] exactly when the two bit
    patterns have the same length and differ at [p] only, with no
    [DontCare] there; in every other case it returns -1. *)
Theorem canCombineWith_spec (a b : Table1Record) :
  (∀ p : nat, canCombineWith a b = Z.of_nat p ↔ differOnlyAt (bits a) (bits b) p)
  ∧ (canCombineWith a b = -1 ↔ ¬ ∃ p, differOnlyAt (bits a) (bits b) p).
Proof.
  split; [apply canCombineWith_differOnlyAt |]. split.
  - intros Hminus [p Hp]. apply canCombineWith_differOnlyAt in Hp. lia.
  - intros Hnone.
    destruct (canCombineWith_good a b) as [? | (Hge & _)]; [done |].
    exfalso. apply Hnone. exists (Z.to_nat (canCombineWith a b)).
    apply canCombineWith_differOnlyAt. lia.
Qed.

Lemma differOnlyAt_split (bs1 bs2 : list ELogicState.t) (p : nat) :
  differOnlyAt bs1 bs2 p →
  ∃ pre b1 b2 post,
    bs1 = pre ++ b1 :: post ∧ bs2 = pre ++ b2 :: post ∧ length pre = p
    ∧ b1 ≠ b2 ∧ b1 ≠ ELogicState.DontCare ∧ b2 ≠ ELogicState.DontCare.
Proof.
  intros (Hlen & b1 & b2 & H1 & H2 & Hne & Hd1 & Hd2 & Hrest).
  exists (take p bs1), b1, b2, (drop (S p) bs1).
  split; [by rewrite take_drop_middle |].
  split; [| split; [| done]].
  - rewrite <- (take_drop_middle bs2 p b2 H2). f_equal; [| f_equal].
    + apply list_eq. intros i. destruct (decide (i < p)%nat).
      * rewrite !lookup_take_lt by done. symmetry. apply Hrest. lia.
      * rewrite !lookup_take_ge by lia. done.
    + apply list_eq. intros i. rewrite !lookup_drop. symmetry. apply Hrest. lia.
  - rewrite length_take. apply lookup_lt_Some in H1. lia.
Qed.

(** Two records that can be combined have Hamming weights that differ by
    exactly one: comparing only groups of neighbouring weight loses no
    combination. *)
Theorem canCombineWith_weights (a b : Table1Record) :
  0 ≤ canCombineWith a b →
  countOnes a = S (countOnes b) ∨ countOnes b = S (countOnes a).
Proof.
  intros Hpos.
  pose proof (canCombineWith_differOnlyAt a b
                (Z.to_nat (canCombineWith a b))) as Hspec.
  rewrite Z2Nat.id in Hspec by done.
  assert (differOnlyAt (bits a) (bits b) (Z.to_nat (canCombineWith a b))) as Hdiff
    by (by apply Hspec).
  clear Hspec. apply differOnlyAt_split in Hdiff
    as (pre & b1 & b2 & post & H1 & H2 & _ & Hne & Hd1 & Hd2).
  unfold countOnes. rewrite H1, H2, !filter_app, !filter_cons, !length_app.
  destruct b1, b2; try done; repeat case_decide; try done; simpl; lia.
Qed.

Lemma canCombineWith_weights_witness :
  countOnes (fromMinterm 1 2) = S (countOnes (fromMinterm 3 2))
  ∨ countOnes (fromMinterm 3 2) = S (countOnes (fromMinterm 1 2)).
Proof. apply (canCombineWith_weights (fromMinterm 1 2) (fromMinterm 3 2)). by vm_compute. Defined.

(** ** Implicants are cubes *)

Lemma stateOfBool_inj (x y : bool) : stateOfBool x = stateOfBool y → x = y.
Proof. by destruct x, y. Qed.

Lemma low_bits_eq (n : nat) (m t : Z) :
  0 ≤ m < 2 ^ Z.of_nat n → 0 ≤ t < 2 ^ Z.of_nat n →
  (∀ j : nat, (j < n)%nat → Z.testbit m (Z.of_nat j) = Z.testbit t (Z.of_nat j)) →
  m = t.
Proof.
  intros Hm Ht Hbits.
  rewrite <- (Z.mod_small m (2 ^ Z.of_nat n)), <- (Z.mod_small t (2 ^ Z.of_nat n)) by lia.
  apply Z.bits_inj'. intros j Hj.
  destruct (decide (j < Z.of_nat n)) as [Hlt | Hge].
  - rewrite !Z.mod_pow2_bits_low by lia.
    specialize (Hbits (Z.to_nat j)). rewrite Z2Nat.id in Hbits by lia.
    apply Hbits. lia.
  - rewrite !Z.mod_pow2_bits_high by lia. done.
Qed.

Lemma fromMinterm_cube (n : nat) (t : Z) :
  (n ≤ 32)%nat → 0 ≤ t < 2 ^ Z.of_nat n → isCube n (fromMinterm t (Z.of_nat n)).
Proof.
  intros Hn Ht. unfold isCube, fromMinterm, newTable1Record. cbn [bits minterms].
  rewrite Nat2Z.id, fromMintermBits_length. split; [done |].
  intros m. rewrite list_elem_of_singleton. unfold matchesBits.
  rewrite fromMintermBits_length. split.
  - intros ->. split; [done |]. intros i b Hi.
    pose proof (lookup_lt_Some _ _ _ Hi) as Hlt. rewrite fromMintermBits_length in Hlt.
    rewrite fromMintermBits_lookup in Hi by done. injection Hi as <-.
    right. rewrite Z.mod_small by lia. done.
  - intros [Hm Hmatch]. apply (low_bits_eq n); [done | done |].
    intros j Hj. specialize (Hmatch (n - 1 - j)%nat).
    rewrite fromMintermBits_lookup in Hmatch by lia.
    destruct (Hmatch _ eq_refl) as [Hdc | Heq].
    { by destruct (Z.testbit t _). }
    apply stateOfBool_inj in Heq.
    rewrite Z.mod_small in Heq by lia.
    replace (n - 1 - (n - 1 - j))%nat with j in Heq by lia. done.
Qed.

Lemma matchesBits_combine (bs1 bs2 : list ELogicState.t) (p : nat) (m : Z) :
  differOnlyAt bs1 bs2 p →
  matchesBits (<[p := ELogicState.DontCare]> bs1) m
  ↔ matchesBits bs1 m ∨ matchesBits bs2 m.
Proof.
  intros (Hlen & b1 & b2 & H1 & H2 & Hne & Hd1 & Hd2 & Hrest).
  pose proof (lookup_lt_Some _ _ _ H1) as Hp.
  unfold matchesBits. rewrite length_insert. split.
  - intros Hmatch.
    destruct (decide (b1 = stateOfBool (Z.testbit m (Z.of_nat (length bs1 - 1 - p)))))
      as [Hb1 | Hb1].
    + left. intros i b Hi. destruct (decide (i = p)) as [-> | Hip].
      * right. congruence.
      * apply Hmatch. by rewrite list_lookup_insert_ne.
    + right. intros i b Hi. rewrite <- Hlen. destruct (decide (i = p)) as [-> | Hip].
      * right. rewrite H2 in Hi. injection Hi as <-.
        destruct b1, b2, (Z.testbit m _); done.
      * apply Hmatch. rewrite list_lookup_insert_ne by done. by rewrite Hrest.
  - intros [Hmatch | Hmatch] i b Hi.
    + destruct (decide (i = p)) as [-> | Hip].
      * rewrite list_lookup_insert_eq in Hi by done. left. congruence.
      * rewrite list_lookup_insert_ne in Hi by done. by apply Hmatch.
    + destruct (decide (i = p)) as [-> | Hip].
      * rewrite list_lookup_insert_eq in Hi by done. left. congruence.
      * rewrite list_lookup_insert_ne in Hi by done. rewrite Hlen.
        apply Hmatch. by rewrite <- Hrest.
Qed.

Lemma combineWith_cube (n : nat) (r1 r2 : Table1Record) :
  isCube n r1 → isCube n r2 → 0 ≤ canCombineWith r1 r2 →
  isCube n (combineWith r1 r2 (canCombineWith r1 r2)).
Proof.
  intros [Hlen1 Hc1] [Hlen2 Hc2] Hpos.
  pose proof (canCombineWith_differOnlyAt r1 r2
                (Z.to_nat (canCombineWith r1 r2))) as Hspec.
  rewrite Z2Nat.id in Hspec by done.
  assert (differOnlyAt (bits r1) (bits r2) (Z.to_nat (canCombineWith r1 r2))) as Hdiff
    by (by apply Hspec).
  split.
  - unfold combineWith, newTable1Record. cbn [bits]. by rewrite arraySet_length.
  - intros m. rewrite elem_of_combineWith_minterms, Hc1, Hc2.
    unfold combineWith, newTable1Record, arraySet. cbn [bits].
    rewrite decide_True by done.
    rewrite (matchesBits_combine _ _ _ _ Hdiff). naive_solver.
Qed.

Lemma primeImplicantLoop_Forall_combinable (P : Table1Record → Prop) :
  (∀ r, P r → P (markUsed r)) →
  (∀ r1 r2, P r1 → P r2 → 0 ≤ canCombineWith r1 r2 →
            P (combineWith r1 r2 (canCombineWith r1 r2))) →
  ∀ (fuel : nat) (column : Table1Column) (acc res : list Table1Record),
    columnForall P column → Forall P acc →
    primeImplicantLoop fuel column acc = Some res → Forall P res.
Proof.
  intros Hmark Hcombine.
  induction fuel as [|fuel IH]; intros column acc res Hcol Hacc; simpl;
    destruct (isEmpty column) eqn:Hempty; try done; try by intros [= <-].
  assert (columnForall P (combineColumn column).2
          ∧ recordsForall P (combineColumn column).1) as [Hnext Hcol'].
  { apply (combineColumn_inv (columnForall P) (λ _, P)).
    - auto.
    - intros next r1 r2 Hnext H1 H2 Hpos. split; [| auto].
      apply addRecord_columnForall; auto.
    - constructor.
    - by apply columnForall_recordsForall. }
  destruct (combineColumn column) as [column' next]. cbn [fst snd] in *.
  apply IH; [done |]. apply Forall_app. split; [done |].
  apply Forall_forall. intros r Hr.
  apply elem_of_getUnusedRecords in Hr as [Hr _].
  rewrite recordsForall_elem_of in Hcol'. auto.
Qed.

Lemma StronglySorted_lt_NoDup (l : list Z) : StronglySorted Z.lt l → NoDup l.
Proof.
  induction 1 as [|x l Hl IH Hx]; constructor; [| done].
  intros Hin. rewrite Forall_forall in Hx. specialize (Hx x Hin). lia.
Qed.

Lemma foldl_insertUnique_NoDup_id (acc l : list Z) :
  NoDup (acc ++ l) → foldl (insertUnique id) acc l = acc ++ l.
Proof.
  revert acc. induction l as [|x l IH]; intros acc Hnd; simpl.
  { by rewrite app_nil_r. }
  unfold insertUnique at 2. rewrite list_fmap_id.
  rewrite decide_False.
  - rewrite IH; rewrite <- app_assoc; done.
  - apply NoDup_app in Hnd as (_ & Hdisj & _). intros Hin.
    apply (Hdisj x Hin). apply list_elem_of_here.
Qed.

Lemma setOf_NoDup_id (l : list Z) : NoDup l → setOf l = l.
Proof. intros Hnd. by apply (foldl_insertUnique_NoDup_id [] l). Qed.

Lemma differOnlyAt_dontCareCount (r1 r2 : Table1Record) (p : nat) :
  differOnlyAt (bits r1) (bits r2) p → dontCareCount r1 = dontCareCount r2.
Proof.
  intros Hdiff.
  apply differOnlyAt_split in Hdiff
    as (pre & b1 & b2 & post & H1 & H2 & _ & _ & Hd1 & Hd2).
  unfold dontCareCount. rewrite H1, H2, !filter_app, !length_app.
  by rewrite !filter_cons_False.
Qed.

Lemma differOnlyAt_disjoint (bs1 bs2 : list ELogicState.t) (p : nat) (m : Z) :
  differOnlyAt bs1 bs2 p → matchesBits bs1 m → matchesBits bs2 m → False.
Proof.
  intros (Hlen & b1 & b2 & H1 & H2 & Hne & Hd1 & Hd2 & _) Hm1 Hm2.
  destruct (Hm1 p b1 H1) as [? | Hb1]; [done |].
  destruct (Hm2 p b2 H2) as [? | Hb2]; [done |].
  rewrite <- Hlen in Hb2. congruence.
Qed.

Lemma combineWith_goodRecord (n : nat) (r1 r2 : Table1Record) :
  goodRecord n r1 → goodRecord n r2 → 0 ≤ canCombineWith r1 r2 →
  goodRecord n (combineWith r1 r2 (canCombineWith r1 r2)).
Proof.
  intros (Hc1 & Hs1 & Hn1) (Hc2 & Hs2 & Hn2) Hpos.
  pose proof (canCombineWith_differOnlyAt r1 r2
                (Z.to_nat (canCombineWith r1 r2))) as Hspec.
  rewrite Z2Nat.id in Hspec by done.
  assert (differOnlyAt (bits r1) (bits r2) (Z.to_nat (canCombineWith r1 r2))) as Hdiff
    by (by apply Hspec).
  assert (NoDup (minterms r1 ++ minterms r2)) as Hnd.
  { apply NoDup_app. split; [by apply StronglySorted_lt_NoDup |].
    split; [| by apply StronglySorted_lt_NoDup].
    intros m Hm1 Hm2. apply Hc1 in Hm1 as [_ Hm1]. apply Hc2 in Hm2 as [_ Hm2].
    by eapply differOnlyAt_disjoint. }
  split; [by apply combineWith_cube |]. split.
  - unfold combineWith, newTable1Record. cbn [minterms].
    apply StronglySorted_le_NoDup_lt; [apply sortNumeric_sorted |].
    unfold sortNumeric. rewrite js_sort_Permutation. apply setOf_NoDup.
  - pose proof (combineWith_uniform n (dontCareCount r1) r1 r2) as [_ Hk];
      [split; [apply Hc1 | done] | done |].
    rewrite Hk. unfold combineWith, newTable1Record, sortNumeric. cbn [minterms].
    rewrite js_sort_length, setOf_NoDup_id, length_app by done.
    rewrite (differOnlyAt_dontCareCount _ _ _ Hdiff) in Hn1 |- *.
    rewrite Nat2Z.inj_succ, Z.pow_succ_r by lia. lia.
Qed.

Lemma fromMinterm_goodRecord (n : nat) (t : Z) :
  (n ≤ 32)%nat → 0 ≤ t < 2 ^ Z.of_nat n → goodRecord n (fromMinterm t (Z.of_nat n)).
Proof.
  intros Hn Ht. split; [by apply fromMinterm_cube |]. split.
  - simpl. repeat constructor.
  - destruct (fromMinterm_uniform t (Z.of_nat n)) as [_ ->]. done.
Qed.

Lemma findPrimeImplicants_goodRecord (fuel : nat) (ms dontcares : list Z) (v : Z)
    (primes : list Table1Record) :
  0 ≤ v ≤ 32 →
  Forall (λ t, 0 ≤ t < 2 ^ v) (ms ++ dontcares) →
  findPrimeImplicants fuel ms dontcares v = Some primes →
  Forall (goodRecord (Z.to_nat v)) primes.
Proof.
  intros Hv Hrange. unfold findPrimeImplicants.
  destruct (primeImplicantLoop fuel _ []) as [res|] eqn:Hloop; [| done].
  intros [= <-].
  assert (Forall (goodRecord (Z.to_nat v)) res) as Hres.
  { eapply (primeImplicantLoop_Forall_combinable (goodRecord (Z.to_nat v)));
      [| | | | exact Hloop].
    - by intros r.
    - intros r1 r2. apply combineWith_goodRecord.
    - apply foldl_addRecord_columnForall; [constructor |].
      intros t Ht. rewrite elem_of_setOf in Ht.
      rewrite Forall_forall in Hrange. specialize (Hrange t Ht).
      pose proof (fromMinterm_goodRecord (Z.to_nat v) t) as Hgood.
      rewrite Z2Nat.id in Hgood by lia. apply Hgood; lia.
    - constructor. }
  rewrite Forall_forall in *. intros r Hr. apply Hres.
  by apply (elem_of_uniqueBy getKey).
Qed.

(** ** The loops [solve] returns *)

Lemma solve_loops_from_primes (fuel : nat) (ms dontcares : list Z) (v : Z)
    (loops : list RequiredLoop.t) :
  ms ≠ [] →
  solve fuel ms dontcares v = Some (Returned loops) →
  ∃ primes selected,
    findPrimeImplicants fuel ms dontcares v = Some primes
    ∧ selected `sublist_of` primes
    ∧ loops = loopOfRecord <$> selected.
Proof.
  intros Hne Hsolve.
  destruct (solve_Returned _ _ _ _ _ Hne Hsolve) as (primes & table & Hp & Ht & ->).
  exists primes, (record <$> getSelectedRows table). split; [done |]. split; [| done].
  rewrite <- (selectionTable_records _ _ _ _ Ht).
  apply fmap_sublist. apply sublist_filter.
Qed.

Lemma solve_passed_validation (fuel : nat) (ms dontcares : list Z) (v : Z)
    (loops : list RequiredLoop.t) :
  ms ≠ [] →
  solve fuel ms dontcares v = Some (Returned loops) →
  Forall (λ t, t ≤ maxPossibleTerm v) (ms ++ dontcares).
Proof.
  intros Hne. unfold solve. rewrite decide_False by (by destruct ms).
  destruct (list_find _ _) as [[? ?]|] eqn:Hfind; [done |]. intros _.
  apply list_find_None in Hfind. eapply Forall_impl; [exact Hfind |].
  simpl. lia.
Qed.

Lemma sortNumeric_sorted_id (l : list Z) : StronglySorted Z.le l → sortNumeric l = l.
Proof.
  unfold sortNumeric, js_sort.
  induction 1 as [|x l Hl IH Hx]; [done |]. simpl. rewrite IH.
  destruct l as [|y l]; [done |]. simpl.
  apply Forall_cons in Hx as [Hxy _]. rewrite decide_True by lia. done.
Qed.

Lemma StronglySorted_lt_le (l : list Z) : StronglySorted Z.lt l → StronglySorted Z.le l.
Proof.
  induction 1 as [|x l Hl IH Hx]; constructor; [done |].
  eapply Forall_impl; [exact Hx |]. simpl. lia.
Qed.

Lemma loopOfRecord_goodRecord (n : nat) (r : Table1Record) :
  goodRecord n r →
  RequiredLoop.minterms (loopOfRecord r) = minterms r
  ∧ RequiredLoop.bits (loopOfRecord r) = bits r
  ∧ (RequiredLoop.getLiteralCount (loopOfRecord r) + dontCareCount r = n)%nat.
Proof.
  intros ([Hlen _] & Hsorted & _). unfold loopOfRecord, RequiredLoop.new.
  cbn [RequiredLoop.minterms RequiredLoop.bits].
  split; [by apply sortNumeric_sorted_id, StronglySorted_lt_le |]. split; [done |].
  unfold RequiredLoop.getLiteralCount, dontCareCount. cbn [RequiredLoop.bits].
  rewrite <- Hlen. clear. induction (bits r) as [|b bs IH]; [done |].
  rewrite !filter_cons. destruct b; repeat case_decide; try done; simpl; lia.
Qed.

(** For at most 30 variables and terms in range, every loop [solve]
    returns is a cube: its bit pattern has one position per variable,
    its minterms are exactly the numbers below [2^v] that the pattern
    stands for, listed in strictly ascending order, and there are two to
    the number of eliminated variables of them. *)
Theorem solve_loops_are_cubes (fuel : nat) (ms dontcares : list Z) (v : Z) :
  0 ≤ v ≤ 30 →
  ms ≠ [] →
  Forall (λ t, 0 ≤ t ≤ 2 ^ v - 1) (ms ++ dontcares) →
  (Z.to_nat v + 1 + length ms ≤ fuel)%nat →
  ∃ loops,
    solve fuel ms dontcares v = Some (Returned loops)
    ∧ ∀ loop, loop ∈ loops →
        Z.of_nat (length (RequiredLoop.getBits loop)) = v
        ∧ (∀ m, m ∈ RequiredLoop.minterms loop
                ↔ 0 ≤ m < 2 ^ v ∧ matchesBits (RequiredLoop.getBits loop) m)
        ∧ StronglySorted Z.lt (RequiredLoop.minterms loop)
        ∧ Z.of_nat (length (RequiredLoop.minterms loop))
          = 2 ^ (v - Z.of_nat (RequiredLoop.getLiteralCount loop)).
Proof.
  intros Hv Hne Hrange Hfuel.
  destruct (solve_valid_covers fuel ms dontcares v Hne) as (loops & Hsolve & _); [| done |].
  { rewrite maxPossibleTerm_exact by done.
    eapply Forall_impl; [exact Hrange |]. simpl. lia. }
  exists loops. split; [done |].
  destruct (solve_loops_from_primes _ _ _ _ _ Hne Hsolve)
    as (primes & selected & Hprimes & Hsub & ->).
  assert (Forall (goodRecord (Z.to_nat v)) primes) as Hgood.
  { eapply findPrimeImplicants_goodRecord; [lia | | exact Hprimes].
    eapply Forall_impl; [exact Hrange |]. simpl. lia. }
  intros loop Hloop. apply list_elem_of_fmap in Hloop as (r & -> & Hr).
  rewrite Forall_forall in Hgood.
  assert (goodRecord (Z.to_nat v) r) as Hr'.
  { apply Hgood. by eapply elem_of_sublist. }
  destruct (loopOfRecord_goodRecord _ _ Hr') as (Hms & Hbits & Hlit).
  destruct Hr' as ([Hlen Hcube] & Hsorted & Hcount).
  unfold RequiredLoop.getBits. rewrite Hms, Hbits.
  split; [lia |]. split.
  { intros m. rewrite Hcube, Z2Nat.id by lia. done. }
  split; [done |]. rewrite Hcount. f_equal. lia.
Qed.

Lemma solve_loops_are_cubes_witness :
  ∃ loops,
    solve 9 [0; 2; 8; 10] [] 4 = Some (Returned loops)
    ∧ ∀ loop, loop ∈ loops →
        Z.of_nat (length (RequiredLoop.getBits loop)) = 4
        ∧ (∀ m, m ∈ RequiredLoop.minterms loop
                ↔ 0 ≤ m < 2 ^ 4 ∧ matchesBits (RequiredLoop.getBits loop) m)
        ∧ StronglySorted Z.lt (RequiredLoop.minterms loop)
        ∧ Z.of_nat (length (RequiredLoop.minterms loop))
          = 2 ^ (4 - Z.of_nat (RequiredLoop.getLiteralCount loop)).
Proof.
  apply (solve_loops_are_cubes 9 [0; 2; 8; 10] [] 4);
    [lia | done | compute_done | simpl; lia].
Defined.

(** For at most 30 variables and terms in range, the sum of the returned
    products is the requested function: every minterm is matched by the
    bit pattern of some returned loop, and a number below [2^v] matched
    by the pattern of a returned loop is a minterm or a don't-care. *)
Theorem solve_sound (fuel : nat) (ms dontcares : list Z) (v : Z) :
  0 ≤ v ≤ 30 →
  ms ≠ [] →
  Forall (λ t, 0 ≤ t ≤ 2 ^ v - 1) (ms ++ dontcares) →
  (Z.to_nat v + 1 + length ms ≤ fuel)%nat →
  ∃ loops,
    solve fuel ms dontcares v = Some (Returned loops)
    ∧ (∀ m, m ∈ ms →
         ∃ loop, loop ∈ loops ∧ matchesBits (RequiredLoop.getBits loop) m)
    ∧ (∀ loop m, loop ∈ loops → 0 ≤ m < 2 ^ v →
         matchesBits (RequiredLoop.getBits loop) m → m ∈ ms ∨ m ∈ dontcares).
Proof.
  intros Hv Hne Hrange Hfuel.
  destruct (solve_valid_covers fuel ms dontcares v Hne)
    as (loops & Hsolve & Hcovers & _); [| done |].
  { rewrite maxPossibleTerm_exact by done.
    eapply Forall_impl; [exact Hrange |]. simpl. lia. }
  exists loops. split; [done |].
  destruct (solve_loops_from_primes _ _ _ _ _ Hne Hsolve)
    as (primes & selected & Hprimes & Hsub & ->).
  assert (Forall (goodRecord (Z.to_nat v)) primes) as Hgood.
  { eapply findPrimeImplicants_goodRecord; [lia | | exact Hprimes].
    eapply Forall_impl; [exact Hrange |]. simpl. lia. }
  rewrite Forall_forall in Hgood.
  assert (∀ r, r ∈ selected →
            RequiredLoop.minterms (loopOfRecord r) = minterms r
            ∧ RequiredLoop.getBits (loopOfRecord r) = bits r
            ∧ ∀ m, m ∈ minterms r ↔ 0 ≤ m < 2 ^ v ∧ matchesBits (bits r) m) as Hsel.
  { intros r Hr. assert (goodRecord (Z.to_nat v) r) as Hr'.
    { apply Hgood. by eapply elem_of_sublist. }
    destruct (loopOfRecord_goodRecord _ _ Hr') as (Hms & Hbits & _).
    destruct Hr' as ([_ Hcube] & _). split; [done |]. split; [done |].
    intros m. rewrite Hcube, Z2Nat.id by lia. done. }
  split.
  - intros m Hm. destruct (Hcovers m Hm) as (loop & Hloop & Hin).
    exists loop. split; [done |].
    apply list_elem_of_fmap in Hloop as (r & -> & Hr).
    destruct (Hsel r Hr) as (Hms & -> & Hcube). rewrite Hms in Hin.
    by apply Hcube.
  - intros loop m Hloop Hm Hmatch.
    apply list_elem_of_fmap in Hloop as (r & -> & Hr).
    destruct (Hsel r Hr) as (_ & Hbits & Hcube). rewrite Hbits in Hmatch.
    apply elem_of_app.
    eapply (findPrimeImplicants_subset _ _ _ _ _ Hprimes r);
      [by eapply elem_of_sublist | by apply Hcube].
Qed.

Lemma solve_sound_witness :
  ∃ loops,
    solve 8 [1; 2] [0; 3] 3 = Some (Returned loops)
    ∧ (∀ m, m ∈ [1; 2] →
         ∃ loop, loop ∈ loops ∧ matchesBits (RequiredLoop.getBits loop) m)
    ∧ (∀ loop m, loop ∈ loops → 0 ≤ m < 2 ^ 3 →
         matchesBits (RequiredLoop.getBits loop) m → m ∈ [1; 2] ∨ m ∈ [0; 3]).
Proof.
  apply (solve_sound 8 [1; 2] [0; 3] 3); [lia | done | compute_done | simpl; lia].
Defined.

Lemma findPrimeImplicants_sorted (fuel : nat) (ms dontcares : list Z) (v : Z)
    (primes : list Table1Record) :
  findPrimeImplicants fuel ms dontcares v = Some primes →
  Forall (λ r, StronglySorted Z.lt (minterms r) ∧ minterms r ≠ []) primes.
Proof.
  unfold findPrimeImplicants.
  destruct (primeImplicantLoop fuel _ []) as [res|] eqn:Hloop; [| done].
  intros [= <-].
  assert (Forall (λ r, StronglySorted Z.lt (minterms r) ∧ minterms r ≠ []) res) as Hres.
  { eapply (primeImplicantLoop_Forall
              (λ r, StronglySorted Z.lt (minterms r) ∧ minterms r ≠ []));
      [| | | | exact Hloop].
    - by intros r.
    - intros r1 r2 [_ Hne1] _. split.
      + unfold combineWith, newTable1Record. cbn [minterms].
        apply StronglySorted_le_NoDup_lt; [apply sortNumeric_sorted |].
        unfold sortNumeric. rewrite js_sort_Permutation. apply setOf_NoDup.
      + intros Hnil. destruct (minterms r1) as [|m l] eqn:Hm; [done |].
        assert (m ∈ minterms (combineWith r1 r2 (canCombineWith r1 r2))) as Hin.
        { apply elem_of_combineWith_minterms. left. rewrite Hm. apply list_elem_of_here. }
        rewrite Hnil in Hin. by apply elem_of_nil in Hin.
    - apply foldl_addRecord_columnForall; [constructor |].
      intros t _. simpl. split; [repeat constructor | done].
    - constructor. }
  rewrite Forall_forall in *. intros r Hr. apply Hres.
  by apply (elem_of_uniqueBy getKey).
Qed.

Lemma findPrimeImplicants_NoDup (fuel : nat) (ms dontcares : list Z) (v : Z)
    (primes : list Table1Record) :
  findPrimeImplicants fuel ms dontcares v = Some primes →
  NoDup (minterms <$> primes).
Proof.
  unfold findPrimeImplicants.
  destruct (primeImplicantLoop fuel _ []) as [res|]; [| done].
  intros [= <-]. apply (uniqueBy_NoDup getKey).
Qed.

(** Whatever the input, the loops [solve] returns have pairwise
    different minterm lists, each non-empty and strictly ascending. *)
Theorem solve_loops_distinct (fuel : nat) (ms dontcares : list Z) (v : Z)
    (loops : list RequiredLoop.t) :
  solve fuel ms dontcares v = Some (Returned loops) →
  NoDup (RequiredLoop.minterms <$> loops)
  ∧ ∀ loop, loop ∈ loops →
      RequiredLoop.minterms loop ≠ []
      ∧ StronglySorted Z.lt (RequiredLoop.minterms loop).
Proof.
  intros Hsolve. destruct (decide (ms = [])) as [-> | Hne].
  { unfold solve in Hsolve. simpl in Hsolve. injection Hsolve as <-.
    split; [constructor |]. intros loop Hloop. by apply elem_of_nil in Hloop. }
  destruct (solve_loops_from_primes _ _ _ _ _ Hne Hsolve)
    as (primes & selected & Hprimes & Hsub & ->).
  pose proof (findPrimeImplicants_sorted _ _ _ _ _ Hprimes) as Hsorted.
  pose proof (findPrimeImplicants_NoDup _ _ _ _ _ Hprimes) as Hnd.
  rewrite Forall_forall in Hsorted.
  assert (∀ r, r ∈ selected → RequiredLoop.minterms (loopOfRecord r) = minterms r) as Hms.
  { intros r Hr. unfold loopOfRecord, RequiredLoop.new. simpl.
    apply sortNumeric_sorted_id, StronglySorted_lt_le, Hsorted.
    by eapply elem_of_sublist. }
  split.
  - rewrite <- list_fmap_compose.
    assert ((RequiredLoop.minterms ∘ loopOfRecord) <$> selected
            = minterms <$> selected) as ->.
    { apply list_fmap_ext. intros i r Hi. simpl. apply Hms.
      by eapply list_elem_of_lookup_2. }
    apply (sublist_NoDup _ (minterms <$> primes)); [done | by apply fmap_sublist].
  - intros loop Hloop. apply list_elem_of_fmap in Hloop as (r & -> & Hr).
    rewrite (Hms r Hr). destruct (Hsorted r) as [? ?]; [by eapply elem_of_sublist |].
    done.
Qed.

Lemma solve_loops_distinct_witness :
  NoDup (RequiredLoop.minterms
           <$> [loopOfRecord (fromMinterm 6 3);
                loopOfRecord (combineWith (fromMinterm 0 3) (fromMinterm 1 3) 2)])
  ∧ ∀ loop,
      loop ∈ [loopOfRecord (fromMinterm 6 3);
              loopOfRecord (combineWith (fromMinterm 0 3) (fromMinterm 1 3) 2)] →
      RequiredLoop.minterms loop ≠ []
      ∧ StronglySorted Z.lt (RequiredLoop.minterms loop).
Proof. apply (solve_loops_distinct 4 [0; 1; 6] [] 3). by vm_compute. Defined.

(** ** Columns are proper groupings *)

Lemma containsRecord_true (g : Table1Group) (r : Table1Record) :
  containsRecord g r = true ↔ getKey r ∈ getKey <$> records g.
Proof.
  unfold containsRecord. rewrite bool_decide_eq_true, Exists_exists, list_elem_of_fmap.
  naive_solver.
Qed.

Lemma addRecordTo_keys (ones : nat) (r : Table1Record) (gs : list Table1Group) :
  onesCount <$> addRecordTo ones r gs
  = if decide (ones ∈ onesCount <$> gs) then onesCount <$> gs
    else (onesCount <$> gs) ++ [ones].
Proof.
  induction gs as [|g gs IH].
  { case_decide as Hin; [by apply elem_of_nil in Hin | done]. }
  cbn [addRecordTo]. rewrite (fmap_cons onesCount g gs).
  destruct (decide (onesCount g = ones)) as [Heq | Hne].
  - rewrite decide_True by (rewrite Heq; apply list_elem_of_here).
    rewrite fmap_cons. f_equal. by destruct (containsRecord g r).
  - rewrite fmap_cons, IH. destruct (decide (ones ∈ onesCount <$> gs)) as [Hin | Hnotin].
    + rewrite decide_True by (by apply list_elem_of_further). done.
    + rewrite decide_False; [done |].
      rewrite elem_of_cons. naive_solver.
Qed.

Lemma addRecordTo_wellFormed (r : Table1Record) (gs : list Table1Group) :
  Forall (λ g, records g ≠ []
               ∧ NoDup (getKey <$> records g)
               ∧ Forall (λ r, countOnes r = onesCount g) (records g)) gs →
  Forall (λ g, records g ≠ []
               ∧ NoDup (getKey <$> records g)
               ∧ Forall (λ r, countOnes r = onesCount g) (records g))
         (addRecordTo (countOnes r) r gs).
Proof.
  induction 1 as [|g gs (Hne & Hnd & Hw) Hgs IH]; simpl.
  { constructor; [| constructor]. simpl.
    split; [done |]. split; [apply NoDup_singleton | by constructor]. }
  case_decide as Hones; [| by constructor].
  constructor; [| done].
  destruct (containsRecord g r) eqn:Hc; [done |]. simpl.
  split; [by destruct (records g) |]. split.
  - rewrite fmap_app. apply NoDup_app. split; [done |].
    split; [| apply NoDup_singleton].
    intros k Hk Hk'. apply list_elem_of_singleton in Hk'. subst k.
    apply containsRecord_true in Hk. congruence.
  - apply Forall_app. split; [done |]. by repeat constructor.
Qed.

Lemma addRecordTo_idempotent (ones : nat) (r : Table1Record) (gs : list Table1Group) :
  addRecordTo ones r (addRecordTo ones r gs) = addRecordTo ones r gs.
Proof.
  induction gs as [|g gs IH]; simpl.
  - rewrite decide_True by done.
    assert (containsRecord (groupAddRecord {| onesCount := ones; records := [] |} r) r
            = true) as ->; [| done].
    apply containsRecord_true. simpl. apply list_elem_of_here.
  - destruct (decide (onesCount g = ones)) as [Heq | Hne].
    + destruct (containsRecord g r) eqn:Hc; simpl.
      * by rewrite decide_True, Hc.
      * rewrite decide_True by done.
        assert (containsRecord (groupAddRecord g r) r = true) as ->; [| done].
        apply containsRecord_true. simpl. rewrite fmap_app. set_solver.
    + simpl. rewrite decide_False by done. by rewrite IH.
Qed.

Lemma addRecordTo_duplicate (r : Table1Record) (gs : list Table1Group)
    (g : Table1Group) :
  NoDup (onesCount <$> gs) →
  g ∈ gs → onesCount g = countOnes r → getKey r ∈ getKey <$> records g →
  addRecordTo (countOnes r) r gs = gs.
Proof.
  intros Hnd Hg Hones Hkey. induction gs as [|g0 gs IH]; [by apply elem_of_nil in Hg |].
  rewrite fmap_cons in Hnd. apply NoDup_cons in Hnd as [Hnotin Hnd].
  simpl. apply elem_of_cons in Hg as [<- | Hg].
  - rewrite decide_True by done.
    assert (containsRecord g r = true) as -> by (by apply containsRecord_true). done.
  - rewrite decide_False; [by rewrite IH |].
    intros Heq. apply Hnotin. rewrite Heq, <- Hones. by apply list_elem_of_fmap_2.
Qed.

Lemma addRecordTo_key_group (ones : nat) (r : Table1Record) (gs : list Table1Group) :
  ∃ g x, g ∈ addRecordTo ones r gs ∧ x ∈ records g ∧ getKey x = getKey r
         ∧ onesCount g = ones.
Proof.
  induction gs as [|g0 gs IH]; simpl.
  - eexists _, r. split; [apply list_elem_of_here |]. simpl.
    split; [apply list_elem_of_here | done].
  - case_decide as Hones.
    + destruct (containsRecord g0 r) eqn:Hc.
      * apply containsRecord_true, list_elem_of_fmap in Hc as (x & Hk & Hx).
        exists g0, x. split; [apply list_elem_of_here | done].
      * exists (groupAddRecord g0 r), r. split; [apply list_elem_of_here |].
        simpl. split; [| done]. apply elem_of_app. right. apply list_elem_of_here.
    + destruct IH as (g & x & ? & ? & ? & ?). exists g, x.
      split; [by apply list_elem_of_further | done].
Qed.

Lemma addRecord_wellFormed (column : Table1Column) (r : Table1Record) :
  wellFormedColumn column → wellFormedColumn (addRecord column r).
Proof.
  intros [Hkeys Hgroups].
  split; [| by apply addRecordTo_wellFormed].
  unfold addRecord. cbn [groups]. rewrite addRecordTo_keys.
  case_decide as Hin; [done |].
  apply NoDup_app. split; [done |]. split; [| apply NoDup_singleton].
  intros k Hk Hk'. apply list_elem_of_singleton in Hk'. by subst.
Qed.

(** [addRecord] keeps a column a proper grouping and never drops a
    record; adding a record whose key is already held by a record of the
    same weight changes nothing, so that adding the same record twice is
    the same as adding it once. *)
Theorem addRecord_grouping (column : Table1Column) (r : Table1Record) :
  wellFormedColumn column →
  wellFormedColumn (addRecord column r)
  ∧ (∀ x, x ∈ getAllRecords column → x ∈ getAllRecords (addRecord column r))
  ∧ (∃ x, x ∈ getAllRecords (addRecord column r) ∧ getKey x = getKey r
          ∧ countOnes x = countOnes r)
  ∧ ((∃ x, x ∈ getAllRecords column ∧ getKey x = getKey r
           ∧ countOnes x = countOnes r) →
     addRecord column r = column)
  ∧ addRecord (addRecord column r) r = addRecord column r.
Proof.
  intros Hcolumn.
  pose proof (addRecord_wellFormed column r Hcolumn) as Hwf.
  destruct Hcolumn as [Hkeys Hgroups].
  split; [done |]. split; [intros x; apply addRecord_elem_of |].
  split; [| split].
  - destruct (addRecordTo_key_group (countOnes r) r (groups column))
      as (g & x & Hg & Hx & Hkey & Hones).
    exists x. split; [apply elem_of_getAllRecords; by exists g |]. split; [done |].
    destruct Hwf as [_ Hwf]. rewrite Forall_forall in Hwf.
    destruct (Hwf g Hg) as (_ & _ & Hw). rewrite Forall_forall in Hw.
    rewrite <- Hones. by apply Hw.
  - intros (x & Hx & Hkey & Hones).
    apply elem_of_getAllRecords in Hx as (g & Hg & Hx).
    unfold addRecord. destruct column as [gs]. cbn [groups] in *. f_equal.
    rewrite Forall_forall in Hgroups. destruct (Hgroups g Hg) as (_ & _ & Hw).
    rewrite Forall_forall in Hw.
    apply (addRecordTo_duplicate r gs g); [done | done | |].
    + rewrite <- Hones. symmetry. by apply Hw.
    + rewrite <- Hkey. by apply list_elem_of_fmap_2.
  - unfold addRecord. cbn [groups]. f_equal. apply addRecordTo_idempotent.
Qed.

Lemma addRecord_grouping_witness :
  wellFormedColumn (addRecord (firstColumn [1] [] 2) (fromMinterm 3 2))
  ∧ (∀ x, x ∈ getAllRecords (firstColumn [1] [] 2) →
          x ∈ getAllRecords (addRecord (firstColumn [1] [] 2) (fromMinterm 3 2)))
  ∧ (∃ x, x ∈ getAllRecords (addRecord (firstColumn [1] [] 2) (fromMinterm 3 2))
          ∧ getKey x = getKey (fromMinterm 3 2)
          ∧ countOnes x = countOnes (fromMinterm 3 2))
  ∧ ((∃ x, x ∈ getAllRecords (firstColumn [1] [] 2)
           ∧ getKey x = getKey (fromMinterm 3 2)
           ∧ countOnes x = countOnes (fromMinterm 3 2)) →
     addRecord (firstColumn [1] [] 2) (fromMinterm 3 2) = firstColumn [1] [] 2)
  ∧ addRecord (addRecord (firstColumn [1] [] 2) (fromMinterm 3 2)) (fromMinterm 3 2)
    = addRecord (firstColumn [1] [] 2) (fromMinterm 3 2).
Proof.
  apply (addRecord_grouping (firstColumn [1] [] 2) (fromMinterm 3 2)).
  split; [compute_done |].
  vm_compute. constructor; [| constructor].
  split; [done |]. split; [apply NoDup_singleton | by constructor].
Defined.

Lemma firstColumn_wellFormed (ms dontcares : list Z) (v : Z) :
  wellFormedColumn (firstColumn ms dontcares v).
Proof.
  unfold firstColumn. generalize (setOf (ms ++ dontcares)). intros l.
  assert (wellFormedColumn emptyColumn) as Hempty by (split; constructor).
  revert Hempty. generalize emptyColumn.
  induction l as [|t l IH]; intros column Hwf; [done |]. simpl.
  apply IH. by apply addRecord_wellFormed.
Qed.

Lemma combineColumn_wellFormed (column : Table1Column) :
  wellFormedColumn (combineColumn column).2.
Proof.
  apply (combineColumn_inv wellFormedColumn (λ _ _, True)); try done.
  - intros next r1 r2 Hnext _ _ _. split; [| done]. by apply addRecord_wellFormed.
  - split; constructor.
  - unfold recordsForall. apply Forall_forall. intros g _.
    apply Forall_forall. done.
Qed.

Lemma insertSorted_nat_sorted (x : nat) (l : list nat) :
  StronglySorted le l →
  StronglySorted le (insertSorted (λ a b, Z.of_nat a - Z.of_nat b) x l).
Proof.
  induction 1 as [|y r Hr IH Hy]; simpl.
  - repeat constructor.
  - case_decide.
    + constructor; [by constructor |].
      constructor; [lia |]. eapply Forall_impl; [exact Hy |]. simpl. lia.
    + constructor; [done |].
      rewrite insertSorted_Permutation. constructor; [lia | done].
Qed.

Lemma sortedKeys_sorted (column : Table1Column) :
  StronglySorted le (sortedKeys column).
Proof.
  unfold sortedKeys, js_sort. induction (onesCount <$> groups column) as [|x l IH];
    simpl; [constructor | by apply insertSorted_nat_sorted].
Qed.

(** Every column the solver builds, the first one and the next column of
    any combination pass, is a proper grouping; the pass takes the groups
    of such a column in strictly increasing order of weight, each group
    once. *)
Theorem solver_columns_grouped (ms dontcares : list Z) (v : Z)
    (column : Table1Column) :
  wellFormedColumn (firstColumn ms dontcares v)
  ∧ wellFormedColumn (combineColumn column).2
  ∧ (wellFormedColumn column →
     sortedKeys column ≡ₚ onesCount <$> groups column
     ∧ StronglySorted lt (sortedKeys column)
     ∧ ∀ key, key ∈ sortedKeys column →
         ∃ i g, getGroup column key = Some (i, g) ∧ onesCount g = key
                ∧ groups column !! i = Some g).
Proof.
  split; [apply firstColumn_wellFormed |]. split; [apply combineColumn_wellFormed |].
  intros [Hkeys _].
  assert (sortedKeys column ≡ₚ onesCount <$> groups column) as Hperm
    by apply js_sort_Permutation.
  split; [done |]. split.
  - assert (NoDup (sortedKeys column)) as Hnd by (by rewrite Hperm).
    pose proof (sortedKeys_sorted column) as Hsorted.
    clear Hperm Hkeys. induction Hsorted as [|x l Hl IH Hx]; [constructor |].
    apply NoDup_cons in Hnd as [Hnotin Hnd]. constructor; [by apply IH |].
    apply Forall_forall. intros y Hy. rewrite Forall_forall in Hx.
    specialize (Hx y Hy). assert (x ≠ y) by (by intros ->). lia.
  - intros key Hkey. rewrite Hperm in Hkey.
    apply list_elem_of_fmap in Hkey as (g0 & -> & Hg0).
    destruct (list_find_elem_of (λ g, onesCount g = onesCount g0) (groups column) g0)
      as [[i g] Hfind]; [done | done |].
    exists i, g. unfold getGroup. split; [done |].
    apply list_find_Some in Hfind. naive_solver.
Qed.

Lemma solver_columns_grouped_witness :
  wellFormedColumn (firstColumn [0; 1; 6] [] 3)
  ∧ sortedKeys (firstColumn [0; 1; 6] [] 3)
    ≡ₚ onesCount <$> groups (firstColumn [0; 1; 6] [] 3)
  ∧ StronglySorted lt (sortedKeys (firstColumn [0; 1; 6] [] 3)).
Proof.
  destruct (solver_columns_grouped [0; 1; 6] [] 3 (firstColumn [0; 1; 6] [] 3))
    as (Hfirst & _ & Hkeys).
  destruct (Hkeys Hfirst) as (Hperm & Hsorted & _). done.
Defined.

(** * The Gray code helper *)

Section GrayCode.
Import GrayCodeHelper.

Lemma log2_lt_pow2' (n a : Z) : 0 < n → 0 ≤ a < 2 ^ n → Z.log2 a < n.
Proof.
  intros Hn Ha. destruct (decide (a = 0)) as [-> | Hne]; [done |].
  apply Z.log2_lt_pow2; lia.
Qed.

Lemma lxor_bound (n a b : Z) :
  0 ≤ n → 0 ≤ a < 2 ^ n → 0 ≤ b < 2 ^ n → 0 ≤ Z.lxor a b < 2 ^ n.
Proof.
  intros Hn Ha Hb.
  assert (0 ≤ Z.lxor a b) as Hnonneg by (apply Z.lxor_nonneg; lia).
  split; [done |].
  destruct (decide (n = 0)) as [-> | Hn0].
  { assert (a = 0) as -> by lia. assert (b = 0) as -> by lia. done. }
  destruct (decide (Z.lxor a b = 0)) as [-> | Hne]; [lia |].
  apply Z.log2_lt_pow2; [lia |].
  pose proof (Z.log2_lxor a b ltac:(lia) ltac:(lia)) as Hlog.
  pose proof (log2_lt_pow2' n a ltac:(lia) Ha).
  pose proof (log2_lt_pow2' n b ltac:(lia) Hb). lia.
Qed.

Lemma lor_bound (n a b : Z) :
  0 ≤ n → 0 ≤ a < 2 ^ n → 0 ≤ b < 2 ^ n → 0 ≤ Z.lor a b < 2 ^ n.
Proof.
  intros Hn Ha Hb.
  assert (0 ≤ Z.lor a b) as Hnonneg by (apply Z.lor_nonneg; lia).
  split; [done |].
  destruct (decide (n = 0)) as [-> | Hn0].
  { assert (a = 0) as -> by lia. assert (b = 0) as -> by lia. done. }
  destruct (decide (Z.lor a b = 0)) as [-> | Hne]; [lia |].
  apply Z.log2_lt_pow2; [lia |].
  rewrite Z.log2_lor by lia.
  pose proof (log2_lt_pow2' n a ltac:(lia) Ha).
  pose proof (log2_lt_pow2' n b ltac:(lia) Hb). lia.
Qed.

Lemma half_bound (n a : Z) : 0 ≤ a < 2 ^ n → 0 ≤ a `div` 2 < 2 ^ n.
Proof.
  intros. pose proof (Z.div_mod a 2 ltac:(lia)).
  pose proof (Z.mod_pos_bound a 2 ltac:(lia)). lia.
Qed.

(** On 31-bit naturals the 32-bit operators are the plain ones. *)
Lemma js_shr_1_small (x : Z) : 0 ≤ x < 2 ^ 31 → js_shr x 1 = x `div` 2.
Proof.
  intros Hx. unfold js_shr. rewrite toInt32_small by lia.
  change (1 `mod` 32) with 1. by rewrite Z.shiftr_div_pow2.
Qed.

Lemma js_xor_small (x y : Z) :
  0 ≤ x < 2 ^ 31 → 0 ≤ y < 2 ^ 31 → js_xor x y = Z.lxor x y.
Proof.
  intros Hx Hy. unfold js_xor.
  rewrite (toInt32_small x), (toInt32_small y) by lia.
  pose proof (lxor_bound 31 x y ltac:(lia) Hx Hy). rewrite toInt32_small; lia.
Qed.

(** The pure Gray code of a natural number. *)
Lemma binaryToGray_small (b : Z) :
  0 ≤ b < 2 ^ 31 → binaryToGray b = Z.lxor b (b `div` 2).
Proof.
  intros Hb. unfold binaryToGray. rewrite js_shr_1_small by done.
  apply js_xor_small; [done |]. pose proof (half_bound 31 b Hb). lia.
Qed.

Lemma gray_bound (n b : Z) :
  0 ≤ n → 0 ≤ b < 2 ^ n → 0 ≤ Z.lxor b (b `div` 2) < 2 ^ n.
Proof.
  intros Hn Hb. apply lxor_bound; [done | done |].
  pose proof (half_bound n b Hb). lia.
Qed.

Lemma gray_zero (x : Z) : 0 ≤ x → Z.lxor x (x `div` 2) = 0 → x = 0.
Proof.
  intros Hx H. apply Z.lxor_eq in H.
  pose proof (Z.div_mod x 2 ltac:(lia)).
  pose proof (Z.mod_pos_bound x 2 ltac:(lia)). lia.
Qed.

Lemma gray_half (x : Z) :
  Z.lxor x (x `div` 2) `div` 2 = Z.lxor (x `div` 2) ((x `div` 2) `div` 2).
Proof.
  rewrite <- !(Z.shiftr_div_pow2 _ 1) by lia. change (2 ^ 1) with 2.
  by rewrite Z.shiftr_lxor.
Qed.

Lemma shiftr_bound (n b k : Z) :
  0 ≤ k → 0 ≤ b < 2 ^ n → 0 ≤ Z.shiftr b k < 2 ^ n.
Proof.
  intros Hk Hb. rewrite Z.shiftr_div_pow2 by done.
  assert (0 < 2 ^ k) by (apply Z.pow_pos_nonneg; lia).
  split; [apply Z.div_pos; lia |].
  eapply Z.le_lt_trans; [| apply Hb]. apply Z.div_le_upper_bound; [done |]. nia.
Qed.

Lemma shiftr_small (b k : Z) : 0 ≤ k → 0 ≤ b < 2 ^ k → Z.shiftr b k = 0.
Proof. intros Hk Hb. rewrite Z.shiftr_div_pow2 by done. by apply Z.div_small. Qed.

Lemma shiftr_succ (b k : Z) : 0 ≤ k → Z.shiftr b (k + 1) = Z.shiftr b k `div` 2.
Proof.
  intros Hk. rewrite <- (Z.shiftr_div_pow2 _ 1) by lia. change (2 ^ 1) with 2.
  by rewrite Z.shiftr_shiftr by lia.
Qed.

(** The loop invariant: after [k] rounds [binary = b ^ (b >> k)] and
    [mask] is the Gray code of [b >> k]. *)
Lemma grayToBinaryLoop_invariant (fuel : nat) (b k : Z) :
  0 ≤ b < 2 ^ 31 → 1 ≤ k → b < 2 ^ (k + Z.of_nat fuel) →
  grayToBinaryLoop (S fuel) (Z.lxor b (Z.shiftr b k))
    (Z.lxor (Z.shiftr b k) (Z.shiftr b k `div` 2)) = Some b.
Proof.
  revert k. induction fuel as [|fuel IH]; intros k Hb Hk Hfuel.
  - rewrite Z.add_0_r in Hfuel. rewrite shiftr_small by lia.
    simpl. by rewrite Z.lxor_0_r.
  - pose proof (shiftr_bound 31 b k ltac:(lia) Hb) as Hshift.
    pose proof (gray_bound 31 _ ltac:(lia) Hshift) as Hmask.
    pose proof (lxor_bound 31 b _ ltac:(lia) Hb Hshift) as Hbinary.
    cbn [grayToBinaryLoop]. case_decide as Hzero.
    + apply gray_zero in Hzero; [| lia]. by rewrite Hzero, Z.lxor_0_r.
    + rewrite js_xor_small, js_shr_1_small by done.
      rewrite gray_half, <- !shiftr_succ by lia.
      rewrite Z.lxor_assoc, <- (Z.lxor_assoc (Z.shiftr b k)), Z.lxor_nilpotent,
        Z.lxor_0_l.
      rewrite (shiftr_succ b (k + 1)) by lia.
      apply IH; [done | lia |]. by replace (k + 1 + Z.of_nat fuel) with (k + Z.of_nat (S fuel)) by lia.
Qed.

Lemma grayToBinary_binaryToGray (fuel : nat) (b : Z) :
  0 ≤ b < 2 ^ 31 → (32 ≤ fuel)%nat →
  grayToBinary fuel (binaryToGray b) = Some b.
Proof.
  intros Hb Hfuel. destruct fuel as [|fuel]; [lia |].
  rewrite binaryToGray_small by done. unfold grayToBinary.
  pose proof (gray_bound 31 b ltac:(lia) Hb).
  rewrite js_shr_1_small, gray_half by done.
  pose proof (grayToBinaryLoop_invariant fuel b 1 Hb ltac:(lia)) as Hloop.
  assert (b `div` 2 = Z.shiftr b 1) as -> by (by rewrite Z.shiftr_div_pow2).
  apply Hloop. eapply Z.lt_le_trans; [apply Hb |].
  apply Z.pow_le_mono_r; lia.
Qed.

Lemma gray_surjective (n : nat) (g : Z) :
  0 ≤ g < 2 ^ Z.of_nat n →
  ∃ b, 0 ≤ b < 2 ^ Z.of_nat n ∧ Z.lxor b (b `div` 2) = g.
Proof.
  revert g. induction n as [|n IH]; intros g Hg.
  - exists 0. change (2 ^ Z.of_nat 0) with 1 in *. split; [lia |].
    assert (g = 0) as -> by lia. done.
  - rewrite Nat2Z.inj_succ, Z.pow_succ_r in * by lia.
    destruct (IH (g `div` 2)) as (b' & Hb' & Hgray).
    { pose proof (Z.div_mod g 2 ltac:(lia)).
      pose proof (Z.mod_pos_bound g 2 ltac:(lia)). lia. }
    set (c := xorb (Z.testbit g 0) (Z.testbit b' 0)).
    exists (2 * b' + Z.b2z c).
    assert ((2 * b' + Z.b2z c) `div` 2 = b') as Hhalf.
    { rewrite Z.add_comm. apply Z.add_b2z_double_div2. }
    split; [destruct c; simpl; lia |].
    rewrite Hhalf. apply Z.bits_inj'. intros i Hi.
    rewrite Z.lxor_spec.
    destruct (decide (i = 0)) as [-> | Hne].
    + rewrite Z.testbit_0_r. unfold c. by destruct (Z.testbit g 0), (Z.testbit b' 0).
    + replace i with (Z.succ (i - 1)) by lia.
      rewrite Z.testbit_succ_r by lia.
      rewrite <- (Z.div2_bits g) by lia.
      rewrite <- Hgray, Z.lxor_spec. f_equal.
      by rewrite Z.div2_bits by lia.
Qed.

Lemma grayToBinary_inverse (fuel : nat) (n g : Z) :
  0 ≤ n ≤ 31 → 0 ≤ g < 2 ^ n → (32 ≤ fuel)%nat →
  ∃ b, grayToBinary fuel g = Some b ∧ 0 ≤ b < 2 ^ n ∧ binaryToGray b = g.
Proof.
  intros Hn Hg Hfuel.
  destruct (gray_surjective (Z.to_nat n) g) as (b & Hb & Hgray);
    [by rewrite Z2Nat.id by lia |].
  rewrite Z2Nat.id in Hb by lia.
  assert (2 ^ n ≤ 2 ^ 31) by (apply Z.pow_le_mono_r; lia).
  assert (binaryToGray b = g) as Hbg by (rewrite binaryToGray_small; [done | lia]).
  exists b. split; [| done]. rewrite <- Hbg.
  apply grayToBinary_binaryToGray; [lia | done].
Qed.

(** A negative mask never becomes zero. *)
Lemma js_shr_1_negative (x : Z) : toInt32 x < 0 → toInt32 (js_shr x 1) < 0.
Proof.
  intros Hx. unfold js_shr. change (1 `mod` 32) with 1.
  assert (- 2 ^ 31 ≤ toInt32 x < 2 ^ 31) as Hrange.
  { unfold toInt32. pose proof (Z.mod_pos_bound (x + 2 ^ 31) (2 ^ 32) ltac:(lia)). lia. }
  rewrite Z.shiftr_div_pow2 by lia. change (2 ^ 1) with 2.
  pose proof (Z.div_mod (toInt32 x) 2 ltac:(lia)).
  pose proof (Z.mod_pos_bound (toInt32 x) 2 ltac:(lia)).
  rewrite toInt32_small; lia.
Qed.

Lemma grayToBinaryLoop_negative (fuel : nat) (binary mask : Z) :
  toInt32 mask < 0 → grayToBinaryLoop fuel binary mask = None.
Proof.
  revert binary mask. induction fuel as [|fuel IH]; intros binary mask Hmask; [done |].
  simpl. case_decide as Hzero; [by subst |].
  apply IH. by apply js_shr_1_negative.
Qed.

Lemma grayToBinary_diverges (fuel : nat) (gray : Z) :
  toInt32 gray < 0 → grayToBinary fuel gray = None.
Proof.
  intros Hg. unfold grayToBinary. apply grayToBinaryLoop_negative.
  by apply js_shr_1_negative.
Qed.

Lemma gray_lxor (a b : Z) :
  Z.lxor (Z.lxor a (a `div` 2)) (Z.lxor b (b `div` 2))
  = Z.lxor (Z.lxor a b) (Z.lxor a b `div` 2).
Proof.
  rewrite <- !(Z.shiftr_div_pow2 _ 1) by lia. rewrite Z.shiftr_lxor.
  apply Z.bits_inj'. intros i Hi. rewrite !Z.lxor_spec.
  by destruct (Z.testbit a i), (Z.testbit b i), (Z.testbit (a ≫ 1) i),
    (Z.testbit (b ≫ 1) i).
Qed.

Lemma testbit_half (a i : Z) :
  0 ≤ i → Z.testbit (a `div` 2) i = Z.testbit a (i + 1).
Proof. intros Hi. by rewrite Z.div2_bits by lia. Qed.

Lemma gray_ones (k : Z) :
  0 ≤ k → Z.lxor (Z.ones (k + 1)) (Z.ones (k + 1) `div` 2) = 2 ^ k.
Proof.
  intros Hk. apply Z.bits_inj'. intros i Hi.
  rewrite Z.lxor_spec, testbit_half, Z.pow2_bits_eqb by lia.
  destruct (decide (i < k)).
  - rewrite !Z.ones_spec_low by lia. symmetry. apply Z.eqb_neq. lia.
  - destruct (decide (i = k)) as [-> | Hne].
    + rewrite Z.ones_spec_low, Z.ones_spec_high by lia. symmetry. by apply Z.eqb_eq.
    + rewrite !Z.ones_spec_high by lia. symmetry. apply Z.eqb_neq. lia.
Qed.

Lemma succ_lxor_ones (n : nat) (i : Z) :
  0 ≤ i < 2 ^ Z.of_nat n →
  ∃ k, 0 ≤ k ≤ Z.of_nat n ∧ Z.lxor i (i + 1) = Z.ones (k + 1).
Proof.
  revert i. induction n as [|n IH]; intros i Hi.
  - change (2 ^ Z.of_nat 0) with 1 in Hi. assert (i = 0) as -> by lia.
    exists 0. done.
  - rewrite Nat2Z.inj_succ, Z.pow_succ_r in Hi by lia.
    pose proof (Z.div_mod i 2 ltac:(lia)) as Hdiv.
    pose proof (Z.mod_pos_bound i 2 ltac:(lia)) as Hmod.
    destruct (decide (i `mod` 2 = 0)) as [Heven | Hodd].
    + exists 0. split; [lia |]. rewrite Hdiv, Heven, Z.add_0_r.
      apply Z.bits_inj'. intros j Hj. rewrite Z.lxor_spec.
      destruct (decide (j = 0)) as [-> | Hne].
      * by rewrite Z.testbit_even_0, Z.testbit_odd_0.
      * replace j with (Z.succ (j - 1)) by lia.
        rewrite Z.testbit_even_succ, Z.testbit_odd_succ by lia.
        rewrite Z.ones_spec_high by lia. apply xorb_nilpotent.
    + destruct (IH (i `div` 2)) as (k & Hk & Hones); [lia |].
      exists (k + 1). split; [lia |].
      replace (i + 1) with (2 * (i `div` 2 + 1)) by lia.
      rewrite Hdiv at 1. replace (i `mod` 2) with 1 by lia.
      apply Z.bits_inj'. intros j Hj. rewrite Z.lxor_spec.
      destruct (decide (j = 0)) as [-> | Hne].
      * rewrite Z.testbit_even_0, Z.testbit_odd_0. by rewrite Z.ones_spec_low by lia.
      * replace j with (Z.succ (j - 1)) by lia.
        rewrite Z.testbit_even_succ, Z.testbit_odd_succ by lia.
        rewrite <- Z.lxor_spec, Hones.
        destruct (decide (j - 1 < k + 1)).
        -- by rewrite !Z.ones_spec_low by lia.
        -- by rewrite !Z.ones_spec_high by lia.
Qed.

(** Successive Gray codes differ in exactly one binary digit. *)
Lemma gray_adjacent (n i : Z) :
  0 ≤ n → 0 ≤ i → i + 1 < 2 ^ n →
  ∃ k, 0 ≤ k < n
       ∧ Z.lxor (Z.lxor i (i `div` 2)) (Z.lxor (i + 1) ((i + 1) `div` 2)) = 2 ^ k.
Proof.
  intros Hn Hi Hlt.
  destruct (succ_lxor_ones (Z.to_nat n) i) as (k & Hk & Hones);
    [rewrite Z2Nat.id by lia; lia |].
  exists k. rewrite gray_lxor, Hones, gray_ones by lia. split; [| done].
  pose proof (gray_bound n i Hn ltac:(lia)) as H1.
  pose proof (gray_bound n (i + 1) Hn ltac:(lia)) as H2.
  pose proof (lxor_bound n _ _ Hn H1 H2) as Hbound.
  rewrite gray_lxor, Hones, gray_ones in Hbound by lia.
  split; [lia |]. apply (Z.pow_lt_mono_r_iff 2); lia.
Qed.

(** So do the last and the first of the [2 ^ n] codes. *)
Lemma gray_wrap (n : Z) :
  1 ≤ n →
  Z.lxor (Z.lxor (2 ^ n - 1) ((2 ^ n - 1) `div` 2)) (Z.lxor 0 (0 `div` 2))
  = 2 ^ (n - 1).
Proof.
  intros Hn. assert (Z.lxor 0 (0 `div` 2) = 0) as -> by done. rewrite Z.lxor_0_r.
  replace (2 ^ n - 1) with (Z.ones (n - 1 + 1)).
  - apply gray_ones. lia.
  - rewrite Z.ones_equiv. replace (n - 1 + 1) with n by lia. lia.
Qed.

Lemma js_shl_1 (v : Z) : 0 ≤ v ≤ 30 → js_shl 1 v = 2 ^ v.
Proof. intros Hv. pose proof (maxPossibleTerm_exact v Hv). unfold maxPossibleTerm in *. lia. Qed.

Lemma pow2_le_30 (n : Z) : 0 ≤ n ≤ 30 → 0 < 2 ^ n ≤ 2 ^ 30.
Proof.
  intros Hn. split; [apply Z.pow_pos_nonneg; lia | apply Z.pow_le_mono_r; lia].
Qed.

Lemma binaryToGray_bound (n b : Z) :
  0 ≤ n ≤ 31 → 0 ≤ b < 2 ^ n → 0 ≤ binaryToGray b < 2 ^ n.
Proof.
  intros Hn Hb. assert (2 ^ n ≤ 2 ^ 31) by (apply Z.pow_le_mono_r; lia).
  rewrite binaryToGray_small by lia. apply gray_bound; lia.
Qed.

Lemma binaryToGray_inj (a b : Z) :
  0 ≤ a < 2 ^ 31 → 0 ≤ b < 2 ^ 31 → binaryToGray a = binaryToGray b → a = b.
Proof.
  intros Ha Hb Heq.
  pose proof (grayToBinary_binaryToGray 32 a Ha ltac:(lia)) as H1.
  pose proof (grayToBinary_binaryToGray 32 b Hb ltac:(lia)) as H2.
  rewrite Heq in H1. congruence.
Qed.

Lemma binaryToGray_adjacent (n i : Z) :
  1 ≤ n ≤ 31 → 0 ≤ i < 2 ^ n →
  ∃ k, 0 ≤ k < n
       ∧ Z.lxor (binaryToGray i) (binaryToGray ((i + 1) `mod` 2 ^ n)) = 2 ^ k.
Proof.
  intros Hn Hi. assert (2 ^ n ≤ 2 ^ 31) by (apply Z.pow_le_mono_r; lia).
  destruct (decide (i + 1 < 2 ^ n)) as [Hlt | Hge].
  - rewrite Z.mod_small by lia. rewrite !binaryToGray_small by lia.
    apply gray_adjacent; lia.
  - assert (i = 2 ^ n - 1) as -> by lia.
    replace (2 ^ n - 1 + 1) with (2 ^ n) by lia. rewrite Z.mod_same by lia.
    rewrite !binaryToGray_small by lia. exists (n - 1). split; [lia |].
    apply gray_wrap. lia.
Qed.

(** For 1 to 30 bits [generateGrayCode] lists the [2 ^ bits] Gray codes:
    entry [i] is [binaryToGray i], no value occurs twice, the values are
    exactly the numbers below [2 ^ bits], and every entry differs from
    the next one in exactly one binary digit, the last entry from the
    first one too. *)
Theorem generateGrayCode_spec (bits : Z) :
  1 ≤ bits ≤ 30 →
  length (generateGrayCode bits) = Z.to_nat (2 ^ bits)
  ∧ (∀ i : nat, Z.of_nat i < 2 ^ bits →
       generateGrayCode bits !! i = Some (binaryToGray (Z.of_nat i)))
  ∧ NoDup (generateGrayCode bits)
  ∧ (∀ g, g ∈ generateGrayCode bits ↔ 0 ≤ g < 2 ^ bits)
  ∧ (∀ i : nat, Z.of_nat i < 2 ^ bits →
       ∃ x y, generateGrayCode bits !! i = Some x
              ∧ generateGrayCode bits !! Z.to_nat ((Z.of_nat i + 1) `mod` 2 ^ bits)
                = Some y
              ∧ oneBitApart x y).
Proof.
  intros Hbits. pose proof (pow2_le_30 bits ltac:(lia)) as Hpow.
  assert (generateGrayCode bits = binaryToGray <$> seqZ 0 (2 ^ bits)) as Hcodes.
  { unfold generateGrayCode. rewrite decide_False by lia. by rewrite js_shl_1 by lia. }
  assert (∀ i : nat, Z.of_nat i < 2 ^ bits →
    generateGrayCode bits !! i = Some (binaryToGray (Z.of_nat i))) as Hlookup.
  { intros i Hi. rewrite Hcodes, list_lookup_fmap, lookup_seqZ_lt by done. done. }
  split; [by rewrite Hcodes, length_fmap, length_seqZ |].
  split; [done |]. split; [| split].
  - rewrite Hcodes. apply NoDup_fmap_2_strong; [| apply NoDup_seqZ].
    intros x y Hx Hy Heq. rewrite elem_of_seqZ in Hx, Hy.
    apply binaryToGray_inj; [lia | lia | done].
  - intros g. rewrite Hcodes, list_elem_of_fmap. split.
    + intros (b & -> & Hb). rewrite elem_of_seqZ in Hb.
      apply binaryToGray_bound; lia.
    + intros Hg.
      destruct (grayToBinary_inverse 32 bits g ltac:(lia) Hg ltac:(lia))
        as (b & _ & Hb & Hgray).
      exists b. split; [done |]. rewrite elem_of_seqZ. lia.
  - intros i Hi.
    pose proof (Z.mod_pos_bound (Z.of_nat i + 1) (2 ^ bits) ltac:(lia)) as Hnext.
    exists (binaryToGray (Z.of_nat i)),
      (binaryToGray ((Z.of_nat i + 1) `mod` 2 ^ bits)).
    split; [by apply Hlookup |]. split.
    + rewrite Hlookup by (rewrite Z2Nat.id; lia). by rewrite Z2Nat.id by lia.
    + destruct (binaryToGray_adjacent bits (Z.of_nat i) ltac:(lia) ltac:(lia))
        as (k & Hk & Hxor).
      exists k. split; [lia | done].
Qed.

(** Outside that range the shift count wraps: the list has
    [1 << bits] entries when that is positive and none otherwise. *)
Theorem generateGrayCode_length (bits : Z) :
  0 < bits →
  length (generateGrayCode bits)
  = if decide (bits `mod` 32 = 31) then 0%nat else Z.to_nat (2 ^ (bits `mod` 32)).
Proof.
  intros Hbits. unfold generateGrayCode. rewrite decide_False by lia.
  rewrite length_fmap, length_seqZ.
  pose proof (Z.mod_pos_bound bits 32 ltac:(lia)) as Hmod.
  assert (js_shl 1 bits = js_shl 1 (bits `mod` 32)) as ->.
  { unfold js_shl. by rewrite Z.mod_mod by lia. }
  case_decide as H31.
  - rewrite H31. done.
  - by rewrite js_shl_1 by lia.
Qed.

Lemma testbit_high (c b i : Z) : 0 ≤ b < 2 ^ c → c ≤ i → Z.testbit b i = false.
Proof.
  intros Hb Hi. destruct (decide (0 ≤ c)) as [Hc | Hc].
  - rewrite <- (Z.mod_small b (2 ^ c)) by done. apply Z.mod_pow2_bits_high. lia.
  - rewrite Z.pow_neg_r in Hb by lia. lia.
Qed.

Lemma testbit_join (a b c i : Z) :
  0 ≤ c → 0 ≤ b < 2 ^ c → 0 ≤ i →
  Z.testbit (Z.lor (Z.shiftl a c) b) i
  = if decide (i < c) then Z.testbit b i else Z.testbit a (i - c).
Proof.
  intros Hc Hb Hi. rewrite Z.lor_spec. case_decide.
  - by rewrite Z.shiftl_spec_low by lia.
  - rewrite Z.shiftl_spec_high by lia. rewrite (testbit_high c b i) by lia.
    apply orb_false_r.
Qed.

Lemma join_split (a b c : Z) :
  0 ≤ c → 0 ≤ b < 2 ^ c →
  Z.shiftr (Z.lor (Z.shiftl a c) b) c = a
  ∧ Z.land (Z.lor (Z.shiftl a c) b) (Z.ones c) = b.
Proof.
  intros Hc Hb. split; apply Z.bits_inj'; intros i Hi.
  - rewrite Z.shiftr_spec, testbit_join by lia. rewrite decide_False by lia.
    f_equal. lia.
  - rewrite Z.land_spec, testbit_join by lia. case_decide.
    + rewrite Z.ones_spec_low by lia. apply andb_true_r.
    + rewrite Z.ones_spec_high by lia. rewrite andb_false_r.
      symmetry. apply (testbit_high c); lia.
Qed.

Lemma split_join (m c : Z) :
  0 ≤ c → Z.lor (Z.shiftl (Z.shiftr m c) c) (Z.land m (Z.ones c)) = m.
Proof.
  intros Hc. apply Z.bits_inj'. intros i Hi.
  rewrite Z.lor_spec, Z.land_spec. destruct (decide (i < c)).
  - rewrite Z.shiftl_spec_low, Z.ones_spec_low by lia. by rewrite andb_true_r.
  - rewrite Z.shiftl_spec_high, Z.shiftr_spec, Z.ones_spec_high by lia.
    rewrite andb_false_r, orb_false_r. f_equal. lia.
Qed.

Lemma join_bound (a b r c : Z) :
  0 ≤ r → 0 ≤ c → 0 ≤ a < 2 ^ r → 0 ≤ b < 2 ^ c →
  0 ≤ Z.lor (Z.shiftl a c) b < 2 ^ (r + c).
Proof.
  intros Hr Hc Ha Hb.
  assert (0 < 2 ^ c) by (apply Z.pow_pos_nonneg; lia).
  assert (0 ≤ Z.shiftl a c < 2 ^ (r + c)).
  { rewrite Z.shiftl_mul_pow2, Z.pow_add_r by lia. nia. }
  assert (2 ^ c ≤ 2 ^ (r + c)) by (apply Z.pow_le_mono_r; lia).
  apply lor_bound; lia.
Qed.

Lemma js_shl_small (x n : Z) :
  0 ≤ n ≤ 31 → 0 ≤ x → x * 2 ^ n < 2 ^ 31 → js_shl x n = Z.shiftl x n.
Proof.
  intros Hn Hx Hbound. unfold js_shl.
  assert (0 < 2 ^ n) by (apply Z.pow_pos_nonneg; lia).
  rewrite (toInt32_small x) by nia. rewrite Z.mod_small by lia.
  rewrite Z.shiftl_mul_pow2 by lia. apply toInt32_small. nia.
Qed.

Lemma js_or_small (x y : Z) :
  0 ≤ x < 2 ^ 31 → 0 ≤ y < 2 ^ 31 → js_or x y = Z.lor x y.
Proof.
  intros Hx Hy. unfold js_or.
  rewrite (toInt32_small x), (toInt32_small y) by lia.
  pose proof (lor_bound 31 x y ltac:(lia) Hx Hy). rewrite toInt32_small; lia.
Qed.

Lemma js_shr_small (m c : Z) :
  0 ≤ c ≤ 31 → 0 ≤ m < 2 ^ 31 → js_shr m c = Z.shiftr m c.
Proof.
  intros Hc Hm. unfold js_shr. rewrite toInt32_small by lia.
  by rewrite Z.mod_small by lia.
Qed.

Lemma colMask_ones (c : Z) : 0 ≤ c ≤ 31 → toInt32 (js_shl 1 c - 1) = Z.ones c.
Proof.
  intros Hc. destruct (decide (c = 31)) as [-> | Hne]; [done |].
  rewrite js_shl_1 by lia. pose proof (pow2_le_30 c ltac:(lia)).
  rewrite Z.ones_equiv. apply toInt32_small. lia.
Qed.

Lemma js_and_colMask (m c : Z) :
  0 ≤ c ≤ 31 → 0 ≤ m < 2 ^ 31 →
  js_and m (js_shl 1 c - 1) = Z.land m (Z.ones c).
Proof.
  intros Hc Hm. unfold js_and. rewrite colMask_ones, (toInt32_small m) by lia.
  rewrite Z.land_ones by lia.
  pose proof (Z.mod_pos_bound m (2 ^ c) ltac:(apply Z.pow_pos_nonneg; lia)).
  assert (2 ^ c ≤ 2 ^ 31) by (apply Z.pow_le_mono_r; lia).
  apply toInt32_small. lia.
Qed.

Lemma gridPositionToMinterm_small (row col rowBits colBits : Z) :
  0 ≤ rowBits → 0 ≤ colBits → rowBits + colBits ≤ 31 →
  0 ≤ row < 2 ^ rowBits → 0 ≤ col < 2 ^ colBits →
  gridPositionToMinterm row col rowBits colBits
  = Z.lor (Z.shiftl (binaryToGray row) colBits) (binaryToGray col).
Proof.
  intros Hr Hc Hsum Hrow Hcol. unfold gridPositionToMinterm.
  pose proof (binaryToGray_bound rowBits row ltac:(lia) Hrow) as Hgr.
  pose proof (binaryToGray_bound colBits col ltac:(lia) Hcol) as Hgc.
  assert (0 < 2 ^ colBits) by (apply Z.pow_pos_nonneg; lia).
  assert (2 ^ rowBits * 2 ^ colBits ≤ 2 ^ 31).
  { rewrite <- Z.pow_add_r by lia. apply Z.pow_le_mono_r; lia. }
  assert (2 ^ colBits ≤ 2 ^ 31) by (apply Z.pow_le_mono_r; lia).
  rewrite js_shl_small by nia.
  apply js_or_small; [| lia].
  rewrite Z.shiftl_mul_pow2 by lia. nia.
Qed.

Lemma grayToBinary_Some (fuel : nat) (gray b : Z) :
  0 ≤ b < 2 ^ 31 → (32 ≤ fuel)%nat → binaryToGray b = gray →
  grayToBinary fuel gray = Some b.
Proof. intros Hb Hfuel <-. by apply grayToBinary_binaryToGray. Qed.

(** With at most 31 bits in all, [gridPositionToMinterm] and
    [mintermToGridPosition] are inverse bijections between the grid
    positions and the minterms below [2 ^ (rowBits + colBits)]; the
    loops of [grayToBinary] end within 32 tests of their condition. *)
Theorem grid_roundtrip (fuel : nat) (rowBits colBits : Z) :
  0 ≤ rowBits → 0 ≤ colBits → rowBits + colBits ≤ 31 → (32 ≤ fuel)%nat →
  (∀ row col, 0 ≤ row < 2 ^ rowBits → 0 ≤ col < 2 ^ colBits →
     0 ≤ gridPositionToMinterm row col rowBits colBits < 2 ^ (rowBits + colBits)
     ∧ mintermToGridPosition fuel (gridPositionToMinterm row col rowBits colBits)
         rowBits colBits = Some (mkGridPosition row col))
  ∧ (∀ minterm, 0 ≤ minterm < 2 ^ (rowBits + colBits) →
       ∃ row col,
         mintermToGridPosition fuel minterm rowBits colBits
         = Some (mkGridPosition row col)
         ∧ 0 ≤ row < 2 ^ rowBits ∧ 0 ≤ col < 2 ^ colBits
         ∧ gridPositionToMinterm row col rowBits colBits = minterm).
Proof.
  intros Hr Hc Hsum Hfuel.
  assert (2 ^ (rowBits + colBits) ≤ 2 ^ 31) as Hpow by (apply Z.pow_le_mono_r; lia).
  assert (2 ^ rowBits ≤ 2 ^ 31) by (apply Z.pow_le_mono_r; lia).
  assert (2 ^ colBits ≤ 2 ^ 31) by (apply Z.pow_le_mono_r; lia).
  split.
  - intros row col Hrow Hcol.
    pose proof (binaryToGray_bound rowBits row ltac:(lia) Hrow) as Hgr.
    pose proof (binaryToGray_bound colBits col ltac:(lia) Hcol) as Hgc.
    rewrite gridPositionToMinterm_small by done.
    pose proof (join_bound _ _ rowBits colBits Hr Hc Hgr Hgc) as Hbound.
    split; [done |].
    destruct (join_split (binaryToGray row) (binaryToGray col) colBits Hc Hgc)
      as [Hhigh Hlow].
    unfold mintermToGridPosition.
    rewrite js_and_colMask, js_shr_small, Hhigh, Hlow by lia.
    rewrite (grayToBinary_Some fuel (binaryToGray col) col); [| lia | done | done].
    rewrite (grayToBinary_Some fuel (binaryToGray row) row); [| lia | done | done].
    done.
  - intros minterm Hm. unfold mintermToGridPosition.
    rewrite js_and_colMask, js_shr_small by lia.
    assert (0 < 2 ^ colBits) by (apply Z.pow_pos_nonneg; lia).
    assert (0 ≤ Z.land minterm (Z.ones colBits) < 2 ^ colBits) as Hlow.
    { rewrite Z.land_ones by lia. apply Z.mod_pos_bound. lia. }
    assert (0 ≤ Z.shiftr minterm colBits < 2 ^ rowBits) as Hhigh.
    { rewrite Z.shiftr_div_pow2 by lia. split; [apply Z.div_pos; lia |].
      apply Z.div_lt_upper_bound; [lia |]. rewrite <- Z.pow_add_r by lia.
      replace (colBits + rowBits) with (rowBits + colBits) by lia. lia. }
    destruct (grayToBinary_inverse fuel colBits _ ltac:(lia) Hlow Hfuel)
      as (col & -> & Hcol & Hgc).
    destruct (grayToBinary_inverse fuel rowBits _ ltac:(lia) Hhigh Hfuel)
      as (row & -> & Hrow & Hgr).
    exists row, col. split; [done |]. split; [done |]. split; [done |].
    rewrite gridPositionToMinterm_small, Hgc, Hgr by done.
    by apply split_join.
Qed.


(** On a number whose 32-bit value is negative the mask of
    [grayToBinary] stays negative under [>>=], so the loop never ends,
    whatever the number of iterations allowed; [mintermToGridPosition]
    on such a minterm does not return either. *)
Theorem grayToBinary_never_returns (fuel : nat) (gray : Z) :
  toInt32 gray < 0 →
  grayToBinary fuel gray = None
  ∧ ∀ rowBits colBits, mintermToGridPosition fuel gray rowBits colBits = None.
Proof.
  intros Hneg. split; [by apply grayToBinary_diverges |].
  intros rowBits colBits. unfold mintermToGridPosition.
  assert (grayToBinary fuel (js_shr gray colBits) = None) as ->.
  { apply grayToBinary_diverges. unfold js_shr.
    pose proof (Z.mod_pos_bound colBits 32 ltac:(lia)).
    assert (- 2 ^ 31 ≤ toInt32 gray < 2 ^ 31) as Hrange.
    { unfold toInt32. pose proof (Z.mod_pos_bound (gray + 2 ^ 31) (2 ^ 32) ltac:(lia)). lia. }
    assert (0 < 2 ^ (colBits `mod` 32)) by (apply Z.pow_pos_nonneg; lia).
    assert (- 2 ^ 31 ≤ Z.shiftr (toInt32 gray) (colBits `mod` 32) < 0).
    { rewrite Z.shiftr_div_pow2 by lia. split.
      - apply Z.div_le_lower_bound; [lia |]. nia.
      - apply Z.div_lt_upper_bound; lia. }
    rewrite toInt32_small; lia. }
  by destruct (grayToBinary fuel _).
Qed.

(** On the numbers below [2 ^ n], [n] at most 31, [binaryToGray] and
    [grayToBinary] are inverse of each other, and both stay below
    [2 ^ n]. *)
Theorem grayToBinary_inverts (fuel : nat) (n : Z) :
  0 ≤ n ≤ 31 → (32 ≤ fuel)%nat →
  (∀ b, 0 ≤ b < 2 ^ n →
     0 ≤ binaryToGray b < 2 ^ n ∧ grayToBinary fuel (binaryToGray b) = Some b)
  ∧ (∀ g, 0 ≤ g < 2 ^ n →
       ∃ b, grayToBinary fuel g = Some b ∧ 0 ≤ b < 2 ^ n ∧ binaryToGray b = g).
Proof.
  intros Hn Hfuel. assert (2 ^ n ≤ 2 ^ 31) by (apply Z.pow_le_mono_r; lia).
  split.
  - intros b Hb. split; [by apply binaryToGray_bound |].
    apply grayToBinary_binaryToGray; [lia | done].
  - intros g Hg. by apply grayToBinary_inverse.
Qed.

Lemma grayToBinary_inverts_witness :
  grayToBinary 32 (binaryToGray 5) = Some 5
  ∧ ∃ b, grayToBinary 32 6 = Some b ∧ 0 ≤ b < 2 ^ 3 ∧ binaryToGray b = 6.
Proof.
  destruct (grayToBinary_inverts 32 3) as [Hto Hfrom]; [lia | lia |].
  split; [apply Hto; lia | apply Hfrom; lia].
Defined.

Lemma grayToBinary_never_returns_witness :
  grayToBinary 1000 (-1) = None
  ∧ ∀ rowBits colBits, mintermToGridPosition 1000 (-1) rowBits colBits = None.
Proof. apply (grayToBinary_never_returns 1000 (-1)). reflexivity. Defined.

Lemma generateGrayCode_spec_witness :
  length (generateGrayCode 2) = Z.to_nat (2 ^ 2) ∧ NoDup (generateGrayCode 2).
Proof.
  destruct (generateGrayCode_spec 2) as (Hlen & _ & Hnodup & _); [lia |]. done.
Defined.

Lemma generateGrayCode_length_witness :
  length (generateGrayCode 31) = 0%nat ∧ length (generateGrayCode 33) = 2%nat.
Proof.
  split; [apply (generateGrayCode_length 31) | apply (generateGrayCode_length 33)];
    reflexivity.
Defined.

Lemma grid_roundtrip_witness :
  mintermToGridPosition 32 (gridPositionToMinterm 3 2 2 2) 2 2
  = Some (mkGridPosition 3 2).
Proof.
  destruct (grid_roundtrip 32 2 2) as [Hto _]; [lia | lia | lia | lia |].
  apply Hto; lia.
Defined.


Lemma halves (n : Z) :
  ceilHalf n + floorHalf n = n ∧ floorHalf n ≤ ceilHalf n ≤ floorHalf n + 1.
Proof.
  unfold ceilHalf, floorHalf.
  pose proof (Z.div_mod n 2 ltac:(lia)). pose proof (Z.mod_pos_bound n 2 ltac:(lia)).
  pose proof (Z.div_mod (- n) 2 ltac:(lia)).
  pose proof (Z.mod_pos_bound (- n) 2 ltac:(lia)). lia.
Qed.

(** For at most 60 variables the grid has [2 ^ rowBits] rows and
    [2 ^ colBits] columns, [2 ^ n] cells in all; the columns get the
    extra variable when [n] is odd, and [distributeVariables] splits the
    names in the same proportion: the first [rowBits] names go to the
    rows, the other [colBits] names to the columns, in order. *)
Theorem grid_dimensions (variables : list string) :
  let n := Z.of_nat (length variables) in
  let d := calculateGridDimensions n in
  let v := distributeVariables variables in
  n ≤ 60 →
  rowBits d + colBits d = n
  ∧ rowBits d ≤ colBits d ≤ rowBits d + 1
  ∧ rows d = 2 ^ rowBits d ∧ cols d = 2 ^ colBits d
  ∧ rows d * cols d = 2 ^ n
  ∧ Z.of_nat (length (rowVars v)) = rowBits d
  ∧ Z.of_nat (length (colVars v)) = colBits d
  ∧ rowVars v ++ colVars v = variables.
Proof.
  intros n d v Hn. cbn [d v calculateGridDimensions distributeVariables rowBits
    colBits rows cols rowVars colVars]. fold n.
  destruct (halves n) as [Hsum Hle].
  assert (0 ≤ floorHalf n) by (unfold floorHalf; apply Z.div_pos; lia).
  split; [lia |]. split; [lia |].
  rewrite !js_shl_1 by lia. split; [done |]. split; [done |].
  split; [rewrite <- Z.pow_add_r by lia; f_equal; lia |].
  rewrite length_take, length_drop, take_drop. split; [lia |]. split; [lia | done].
Qed.

Lemma grid_dimensions_witness :
  rowBits (calculateGridDimensions 3) + colBits (calculateGridDimensions 3) = 3
  ∧ rows (calculateGridDimensions 3) * cols (calculateGridDimensions 3) = 2 ^ 3
  ∧ rowVars (distributeVariables ["A"; "B"; "C"]%string)
    ++ colVars (distributeVariables ["A"; "B"; "C"]%string)
    = ["A"; "B"; "C"]%string.
Proof.
  destruct (grid_dimensions ["A"; "B"; "C"]%string)
    as (Hsum & _ & _ & _ & Hcells & _ & _ & Hvars); [simpl; lia |].
  split; [exact Hsum |]. split; [exact Hcells | exact Hvars].
Defined.

End GrayCode.
